(** * PCM WAV and Wave64 audio providers (src/audio_provider_pcm.cpp)

    A shallow embedding of [PCMAudioProvider], [RiffWavPCMAudioProvider],
    [Wave64AudioProvider] and [CreatePCMAudioProvider], and the properties
    of the specification that concern them.

    Conventions.
    - A file is the list of its bytes; the provider's [file_size] is its
      length.  Opening the file and probing its size are taken to succeed.
    - Unsigned C++ integers wrap ([uint w]); conversions from an unsigned
      to a signed type of the same width reinterpret the bits ([sint w]).
      Overflow of signed arithmetic and division by zero have no defined
      result in C++: the model returns [Undefined] there.
    - Headers are overlaid on the mapped bytes in little-endian order.
    - A C++ exception is an [exception] value carried by [Throw]. *)

From Stdlib Require Import ZArith List String Ascii Bool Lia.
From Stdlib.Strings Require Import Byte.
Import ListNotations.

Local Open Scope Z_scope.

(** ** Machine integers *)

Definition uint (w z : Z) : Z := z mod 2 ^ w.

Definition sint (w z : Z) : Z :=
  let u := z mod 2 ^ w in
  if u <? 2 ^ (w - 1) then u else u - 2 ^ w.

Definition INT64_MIN : Z := - 2 ^ 63.
Definition INT64_MAX : Z := 2 ^ 63 - 1.

Definition is_int64 (z : Z) : bool := (INT64_MIN <=? z) && (z <=? INT64_MAX).

(** ** Outcomes of a C++ computation *)

(** Modelled from the spec: the exception classes thrown by the code
    embedded here, whose declarations are in headers that are not among the
    sources.  They are the three kinds of the error taxonomy (unrecognized
    container, invalid content, decode or access failure); none derives
    from another, so a handler for one does not catch another.

    The file throws a fourth class, agi::AudioPlayerOpenError, at line 63:
    the base constructor throws it when the size of the file cannot be
    obtained.  A file is here the list of its bytes, whose size is always
    known, so that throw, which precedes the body of either parser, has no
    counterpart below. *)
Inductive exception : Type :=
| AudioDataNotFoundError (msg : string)
| AudioProviderOpenError (msg : string)
| AudioDecodeError (msg : string).

Inductive undefined : Type :=
| DivisionByZero
| SignedOverflow
| InvalidPointer
| BufferOverrun.

Inductive outcome (A : Type) : Type :=
| Return (a : A)
| Throw (e : exception)
| Undefined (u : undefined).

Arguments Return {A} a.
Arguments Throw {A} e.
Arguments Undefined {A} u.

(** State and outcome monad: the state survives an exception, as the
    members of a C++ object do. *)
Definition M (S A : Type) : Type := S -> outcome A * S.

Definition ret {S A} (a : A) : M S A := fun s => (Return a, s).

Definition bind {S A B} (c : M S A) (k : A -> M S B) : M S B :=
  fun s =>
    match c s with
    | (Return a, s') => k a s'
    | (Throw e, s') => (Throw e, s')
    | (Undefined u, s') => (Undefined u, s')
    end.

Definition throw {S A} (e : exception) : M S A := fun s => (Throw e, s).

Definition undef {S A} (u : undefined) : M S A := fun s => (Undefined u, s).

Definition get_state {S} : M S S := fun s => (Return s, s).

Declare Scope cxx_scope.
Delimit Scope cxx_scope with cxx.

Notation "x <- c ;; k" := (bind c (fun x => k))
  (at level 61, c at next level, right associativity) : cxx_scope.
Notation "c ;;; k" := (bind c (fun _ => k))
  (at level 61, right associativity) : cxx_scope.

Local Open Scope cxx_scope.

(** A signed 64-bit result: defined only when it fits. *)
Definition i64 {S} (z : Z) : M S Z :=
  if is_int64 z then ret z else undef SignedOverflow.

(** Integer division, as [/] on operands of which the divisor is not
    negative. *)
Definition divide {S} (a b : Z) : M S Z :=
  if b =? 0 then undef DivisionByZero else ret (Z.quot a b).

(** ** Files and little-endian fields *)

Definition file : Type := list byte.

Definition byte_val (b : byte) : Z := Z.of_N (Byte.to_N b).

Fixpoint le (bs : list byte) : Z :=
  match bs with
  | [] => 0
  | b :: rest => byte_val b + 256 * le rest
  end.

Definition bytes_at (f : file) (off n : Z) : list byte :=
  firstn (Z.to_nat n) (skipn (Z.to_nat off) f).

Definition chars (s : string) : list byte :=
  List.map byte_of_ascii (list_ascii_of_string s).

Fixpoint bytes_eqb (a b : list byte) : bool :=
  match a, b with
  | [], [] => true
  | x :: a', y :: b' => Byte.eqb x y && bytes_eqb a' b'
  | _, _ => false
  end.

(** ** Platform *)

(** What the translation unit takes from the platform: the width of
    [size_t] (the test [sizeof(size_t) == 4]), the size of the [FormatChunk]
    structure, which depends on the alignment of its 64-bit member, and
    whether the operating system grants a view of [size] bytes at [offset]
    (the [interprocess_exception] of [mapped_region]). *)
Inductive size_t_width : Type := Bits32 | Bits64.

Record platform : Type := {
  size_t_bits : size_t_width;
  sizeof_FormatChunk : Z;
  map_view : Z -> Z -> bool
}.

Definition size_t (pf : platform) (z : Z) : Z :=
  match size_t_bits pf with
  | Bits32 => uint 32 z
  | Bits64 => uint 64 z
  end.

(** ** The mapped window *)

(** A [mapped_region]: the file range it shows and the order in which it was
    created, which tells a live region from a destroyed one. *)
Record mapped_region : Type := {
  get_offset : Z;
  get_size : Z;
  serial : nat
}.

(** The mutable members of [PCMAudioProvider]. *)
Record mapper : Type := {
  region : option mapped_region;
  mapping_start : Z;
  regions_created : nat
}.

Definition unmapped : mapper :=
  {| region := None; mapping_start := 0; regions_created := 0 |}.

(** A [char *] into a mapped region. *)
Record pointer : Type := {
  ptr_serial : nat;
  ptr_offset : Z
}.

Definition ptr_add (p : pointer) (d : Z) : pointer :=
  {| ptr_serial := ptr_serial p; ptr_offset := ptr_offset p + d |}.

(** Reading [n] bytes through a pointer: defined when the region the pointer
    was taken from is still the mapped one and the bytes lie inside it.
    Bounds and lifetime of the region are all that is checked: the
    alignment of a structure overlaid on the file (a [uint32_t] field of a
    chunk header that starts at an odd multiple of 2) is not part of the
    model, and a read that is misaligned counts as defined here. *)
Definition load (f : file) (p : pointer) (n : Z) : M mapper (list byte) :=
  fun m =>
    match region m with
    | Some r =>
        if Nat.eqb (serial r) (ptr_serial p)
           && (0 <=? ptr_offset p) && (ptr_offset p + n <=? get_size r)
           && (0 <=? get_offset r)
           && (get_offset r + get_size r <=? Z.of_nat (List.length f))
        then (Return (bytes_at f (get_offset r + ptr_offset p) n), m)
        else (Undefined InvalidPointer, m)
    | None => (Undefined InvalidPointer, m)
    end.

Definition load_uint (f : file) (p : pointer) (off n : Z) : M mapper Z :=
  bs <- load f (ptr_add p off) n ;; ret (le bs).

Section Mapper.

Variable pf : platform.
Variable file_size : Z.

(** The construction of the new [mapped_region] at [mapping_start], which
    is already assigned when the constructor runs; the old region is
    destroyed when the new one replaces it. *)
Definition remap (start new_start length : Z) : M mapper pointer :=
  fun m =>
    let m1 := {| region := region m; mapping_start := new_start;
                 regions_created := regions_created m |} in
    if map_view pf new_start length then
      let r := {| get_offset := new_start; get_size := length;
                  serial := S (regions_created m) |} in
      (Return {| ptr_serial := serial r; ptr_offset := start - new_start |},
       {| region := Some r; mapping_start := new_start;
          regions_created := S (regions_created m) |})
    else (Throw (AudioDecodeError "Failed mapping a view of the file"), m1).

(** The test [region && start >= mapping_start &&
    start + length <= mapping_start + region->get_size()], yielding the
    region when it holds.  With a 64-bit [size_t] the right operand of the
    last comparison is unsigned and so is the comparison; with a 32-bit one
    both sides stay signed 64-bit. *)
Definition current_mapping (start sum : Z) : M mapper (option mapped_region) :=
  m <- get_state ;;
  match region m with
  | None => ret None
  | Some r =>
      if mapping_start m <=? start then
        match size_t_bits pf with
        | Bits64 =>
            ret (if uint 64 sum <=? uint 64 (mapping_start m + get_size r)
                 then Some r else None)
        | Bits32 =>
            e <- i64 (mapping_start m + get_size r) ;;
            ret (if sum <=? e then Some r else None)
        end
      else ret None
  end.

(** [PCMAudioProvider::EnsureRangeAccessible] (lines 69-97). *)
Definition EnsureRangeAccessible (start length : Z) : M mapper pointer :=
  sum <- i64 (start + length) ;;
  if sum >? file_size then
    throw (AudioDecodeError "Attempted to map beyond end of file")
  else
    (* Check if we can just use the current mapping *)
    cur <- current_mapping start sum ;;
    match cur with
    | Some r =>
        m <- get_state ;;
        ret {| ptr_serial := serial r; ptr_offset := start - mapping_start m |}
    | None =>
        match size_t_bits pf with
        | Bits32 =>
            (* Align to 1 MB boundary; map 16 MB or length rounded up to
               the next MB *)
            let new_start :=
              sint 64 (Z.land (uint 64 start) (uint 64 (Z.lnot 1048575))) in
            d <- i64 (start - new_start) ;;
            length1 <- i64 (length + uint 32 d) ;;
            up <- i64 (length1 + 1048575) ;;
            rest <- i64 (file_size - new_start) ;;
            let wanted :=
              Z.max 16777216 (uint 32 (Z.land up (Z.lnot 1048575))) in
            remap start new_start (Z.min wanted (uint 32 rest))
        | Bits64 =>
            (* Just map the whole file *)
            remap start 0 file_size
        end
    end.

End Mapper.

(** ** The provider object *)

Module IndexPoint.
Record t : Type := {
  start_byte : Z;
  start_sample : Z;
  num_samples : Z
}.
End IndexPoint.

(** Modelled from the spec: the members [PCMAudioProvider] inherits from
    [AudioProvider] and declares in its header, which is not among the
    sources; [sample_rate], [channels] and [bytes_per_sample] are unsigned
    integers, [num_samples] and the fields of an index point are signed
    64-bit.  [file_mapping] stands for the open file. *)
Record PCMAudioProvider : Type := {
  file_mapping : file;
  file_size : Z;
  float_samples : bool;
  sample_rate : Z;
  channels : Z;
  bytes_per_sample : Z;
  num_samples : Z;
  index_points : list IndexPoint.t
}.

(** [PCMAudioProvider::PCMAudioProvider] (lines 54-65), for a file that
    was opened and whose size was obtained; otherwise the constructor
    throws (line 63) and there is no object.  It assigns [float_samples]
    and [file_size].  [sample_rate], [channels] and [bytes_per_sample] are
    assigned by no line before a format chunk is read: the zeros below
    stand for values the source leaves undetermined.  No path of the
    parsers or of FillBuffer reads them before a format chunk has set
    them, and what is proved of the providers the parsers return says
    nothing of the format of a provider that saw no format chunk.
    [num_samples] is set to 0 by both parsers (lines 205 and 351) before
    their chunk walk. *)
Definition PCMAudioProvider_new (f : file) : PCMAudioProvider :=
  {| file_mapping := f;
     file_size := Z.of_nat (List.length f);
     float_samples := false;
     sample_rate := 0;
     channels := 0;
     bytes_per_sample := 0;
     num_samples := 0;
     index_points := [] |}.

Definition set_format (this : PCMAudioProvider) (rate chans bps : Z) : PCMAudioProvider :=
  {| file_mapping := file_mapping this;
     file_size := file_size this;
     float_samples := float_samples this;
     sample_rate := rate;
     channels := chans;
     bytes_per_sample := bps;
     num_samples := num_samples this;
     index_points := index_points this |}.

(** [index_points.push_back(ip); num_samples += frames;] with the sum
    already computed. *)
Definition push_back (this : PCMAudioProvider) (ip : IndexPoint.t) (total : Z) : PCMAudioProvider :=
  {| file_mapping := file_mapping this;
     file_size := file_size this;
     float_samples := float_samples this;
     sample_rate := sample_rate this;
     channels := channels this;
     bytes_per_sample := bytes_per_sample this;
     num_samples := total;
     index_points := index_points this ++ [ip] |}.

(** ** FillBuffer *)

(** The state of a read: the mapped window and the destination memory. *)
Definition reader : Type := (mapper * list byte)%type.

Definition with_mapper {A} (c : M mapper A) : M reader A :=
  fun s =>
    match c (fst s) with
    | (o, m') => (o, (m', snd s))
    end.

(** [memcpy(buf, src, n)] with [buf] the offset reached in the destination. *)
Definition memcpy (f : file) (buf : Z) (src : pointer) (n : Z) : M reader unit :=
  bs <- with_mapper (load f src n) ;;
  fun s =>
    let d := snd s in
    if (0 <=? buf) && (buf + n <=? Z.of_nat (List.length d)) then
      (Return tt,
       (fst s, firstn (Z.to_nat buf) d ++ bs ++ skipn (Z.to_nat (buf + n)) d))
    else (Undefined BufferOverrun, s).

Section Reader.

Variable pf : platform.
Variable this : PCMAudioProvider.

(** The body of the loop for one index point; yields the new [buf], [start]
    and [count]. *)
Definition FillBuffer_block (ip : IndexPoint.t) (buf start count : Z)
  : M reader (Z * Z * Z) :=
  (* Check if this index contains the samples we're looking for *)
  found <- (if IndexPoint.start_sample ip <=? start then
              e <- i64 (IndexPoint.start_sample ip + IndexPoint.num_samples ip) ;;
              ret (e >? start)
            else ret false) ;;
  if found : bool then
    (* How many samples we can maximum take from this block *)
    t <- i64 (IndexPoint.num_samples ip - start) ;;
    can_do <- i64 (t + IndexPoint.start_sample ip) ;;
    let samples_can_do := if can_do >? count then count else can_do in
    (* Read as many samples we can *)
    d <- i64 (start - IndexPoint.start_sample ip) ;;
    d1 <- i64 (d * bytes_per_sample this) ;;
    d2 <- i64 (d1 * channels this) ;;
    from <- i64 (IndexPoint.start_byte ip + d2) ;;
    n1 <- i64 (samples_can_do * bytes_per_sample this) ;;
    n <- i64 (n1 * channels this) ;;
    src <- with_mapper (EnsureRangeAccessible pf (file_size this) from n) ;;
    memcpy (file_mapping this) buf src (size_t pf n) ;;;
    (* Update data *)
    start' <- i64 (start + samples_can_do) ;;
    count' <- i64 (count - samples_can_do) ;;
    ret (buf + n, start', count')
  else ret (buf, start, count).

(** The loop [while (count > 0 && index < index_points.size())] over the
    index points from [index] on. *)
Fixpoint FillBuffer_from (ips : list IndexPoint.t) (buf start count : Z)
  : M reader unit :=
  match ips with
  | [] => ret tt
  | ip :: rest =>
      if count >? 0 then
        next <- FillBuffer_block ip buf start count ;;
        let '(buf', start', count') := next in
        FillBuffer_from rest buf' start' count'
      else ret tt
  end.

(** [PCMAudioProvider::FillBuffer] (lines 99-124); [buf] starts at the
    first byte of the destination. *)
Definition FillBuffer (start count : Z) : M reader unit :=
  FillBuffer_from (index_points this) 0 start count.

End Reader.

(** ** Loops *)

(** [while (cond) body]: [fuel] bounds the number of iterations; [None]
    when they do not suffice. *)
Fixpoint while {S St : Type} (fuel : nat) (cond : St -> bool)
  (body : St -> M S St) (st : St) (s : S) : option (outcome St * S) :=
  if cond st then
    match fuel with
    | O => None
    | Datatypes.S k =>
        match body st s with
        | (Return st', s') => while k cond body st' s'
        | (Throw e, s') => Some (Throw e, s')
        | (Undefined u, s') => Some (Undefined u, s')
        end
    end
  else Some (Return st, s).

(** A constructor that runs [init], then the chunk loop, and yields the
    object part of the loop state. *)
Definition construct {St A : Type} (fuel : nat) (init : M mapper St)
  (cond : St -> bool) (body : St -> M mapper St) (result : St -> A)
  : option (outcome A * mapper) :=
  match init unmapped with
  | (Return st, m) =>
      match while fuel cond body st m with
      | Some (Return st', m') => Some (Return (result st'), m')
      | Some (Throw e, m') => Some (Throw e, m')
      | Some (Undefined u, m') => Some (Undefined u, m')
      | None => None
      end
  | (Throw e, m) => Some (Throw e, m)
  | (Undefined u, m) => Some (Undefined u, m)
  end.

(** The local variables of both chunk walks and the object being built. *)
Record walk : Type := {
  data_left : Z;
  filepos : Z;
  got_fmt_header : bool;
  object : PCMAudioProvider
}.

Definition more_data (st : walk) : bool := negb (data_left st =? 0).

Definition newline : string := String (ascii_of_nat 10) EmptyString.

(** ** RIFF WAV *)

Module RiffWav.

Definition sizeof_ChunkHeader : Z := 8.
Definition sizeof_RIFFChunk : Z := 12.
Definition sizeof_fmtChunk : Z := 16.

Section Parser.

Variable pf : platform.
Variable f : file.

Let fsize : Z := Z.of_nat (List.length f).

(** [CheckFourcc(str1, str2)] with [str1] the four bytes at [p + off]. *)
Definition CheckFourcc (p : pointer) (off : Z) (str2 : string) : M mapper bool :=
  str1 <- load f (ptr_add p off) 4 ;;
  ret (bytes_eqb str1 (chars str2)).

(** [(size + 1) & ~1] on [uint32_t]. *)
Definition word_aligned (size : Z) : Z :=
  Z.land (uint 32 (size + 1)) (uint 32 (Z.lnot 1)).

(** The constructor up to the loop. *)
Definition open : M mapper walk :=
  (* Read header *)
  header <- EnsureRangeAccessible pf fsize 0 sizeof_RIFFChunk ;;
  (* Check magic values *)
  riff <- CheckFourcc header 0 "RIFF" ;;
  if negb riff then
    throw (AudioDataNotFoundError "File is not a RIFF file")
  else
    wave <- CheckFourcc header 8 "WAVE" ;;
    if negb wave then
      throw (AudioDataNotFoundError "File is not a RIFF WAV file")
    else
      size <- load_uint f header 4 4 ;;
      ret {| data_left := uint 32 (size - 4);
             filepos := sizeof_RIFFChunk;
             got_fmt_header := false;
             object := PCMAudioProvider_new f |}.

(** The ['fmt '] branch; yields [got_fmt_header] and the object. *)
Definition fmt_chunk (st : walk) (filepos1 : Z) : M mapper (bool * PCMAudioProvider) :=
  if got_fmt_header st then
    throw (AudioProviderOpenError "Invalid file, multiple 'fmt ' chunks")
  else
    fmt <- EnsureRangeAccessible pf fsize filepos1 sizeof_fmtChunk ;;
    compression <- load_uint f fmt 0 2 ;;
    if negb (compression =? 1) then
      throw (AudioProviderOpenError "Can't use file, not PCM encoding")
    else
      samplerate <- load_uint f fmt 4 4 ;;
      chans <- load_uint f fmt 2 2 ;;
      significant_bits_sample <- load_uint f fmt 14 2 ;;
      ret (true, set_format (object st) samplerate chans
                   ((significant_bits_sample + 7) / 8)).

(** The ['data'] branch. *)
Definition data_chunk (st : walk) (ch : pointer) (filepos1 : Z)
  : M mapper (bool * PCMAudioProvider) :=
  if negb (got_fmt_header st) then
    throw (AudioProviderOpenError
             "Found 'data' chunk before 'fmt ' chunk, file is invalid.")
  else
    size <- load_uint f ch 4 4 ;;
    samples <- divide size (bytes_per_sample (object st)) ;;
    frames <- divide samples (channels (object st)) ;;
    let ip := {| IndexPoint.start_sample := num_samples (object st);
                 IndexPoint.num_samples := frames;
                 IndexPoint.start_byte := filepos1 |} in
    total <- i64 (num_samples (object st) + frames) ;;
    ret (got_fmt_header st, push_back (object st) ip total).

(** One iteration of [while (data_left)]. *)
Definition chunk (st : walk) : M mapper walk :=
  ch <- EnsureRangeAccessible pf fsize (filepos st) sizeof_ChunkHeader ;;
  (* Update counters *)
  let data_left1 := uint 32 (data_left st - sizeof_ChunkHeader) in
  let filepos1 := uint 32 (filepos st + sizeof_ChunkHeader) in
  is_fmt <- CheckFourcc ch 0 "fmt " ;;
  seen <- (if is_fmt : bool then fmt_chunk st filepos1
           else
             is_data <- CheckFourcc ch 0 "data" ;;
             if is_data : bool then data_chunk st ch filepos1
             else ret (got_fmt_header st, object st)) ;;
  (* Update counters; make sure they're word aligned *)
  size <- load_uint f ch 4 4 ;;
  ret {| data_left := uint 32 (data_left1 - word_aligned size);
         filepos := uint 32 (filepos1 + word_aligned size);
         got_fmt_header := fst seen;
         object := snd seen |}.

(** The constructor [RiffWavPCMAudioProvider::RiffWavPCMAudioProvider]
    (lines 180-255). *)
Definition RiffWavPCMAudioProvider (fuel : nat)
  : option (outcome PCMAudioProvider * mapper) :=
  construct fuel open more_data chunk object.

End Parser.

End RiffWav.

(** ** Wave64 *)

Module Wave64.

Definition w64GuidRIFF : list byte :=
  [x72; x69; x66; x66; x2e; x91; xcf; x11; xa5; xd6; x28; xdb; x04; xc1; x00; x00].

Definition w64GuidWAVE : list byte :=
  [x77; x61; x76; x65; xf3; xac; xd3; x11; x8c; xd1; x00; xc0; x4f; x8e; xdb; x8a].

Definition w64Guidfmt : list byte :=
  [x66; x6d; x74; x20; xf3; xac; xd3; x11; x8c; xd1; x00; xc0; x4f; x8e; xdb; x8a].

Definition w64Guiddata : list byte :=
  [x64; x61; x74; x61; xf3; xac; xd3; x11; x8c; xd1; x00; xc0; x4f; x8e; xdb; x8a].

Definition sizeof_RiffChunk : Z := 40.
Definition sizeof_DataChunk : Z := 24.

Section Parser.

Variable pf : platform.
Variable f : file.

Let fsize : Z := Z.of_nat (List.length f).

Definition smallest_possible_file : Z :=
  sizeof_RiffChunk + sizeof_FormatChunk pf + sizeof_DataChunk.

(** [CheckGuid(guid1, guid2)]: [memcmp] over 16 bytes. *)
Definition CheckGuid (guid1 : pointer) (guid2 : list byte) : M mapper bool :=
  bs <- load f guid1 16 ;;
  ret (bytes_eqb bs guid2).

(** [(chunk_size + 7) & ~7] on [uint64_t]. *)
Definition qword_aligned (chunk_size : Z) : Z :=
  Z.land (uint 64 (chunk_size + 7)) (uint 64 (Z.lnot 7)).

(** The constructor up to the loop. *)
Definition open : M mapper walk :=
  if fsize <? smallest_possible_file then
    throw (AudioDataNotFoundError "File is too small to be a Wave64 file")
  else
    (* Read header *)
    header <- EnsureRangeAccessible pf fsize 0 sizeof_RiffChunk ;;
    (* Check magic values *)
    riff <- CheckGuid header w64GuidRIFF ;;
    if negb riff then
      throw (AudioDataNotFoundError "File is not a Wave64 RIFF file")
    else
      wave <- CheckGuid (ptr_add header 24) w64GuidWAVE ;;
      if negb wave then
        throw (AudioDataNotFoundError "File is not a Wave64 WAVE file")
      else
        header_file_size <- load_uint f header 16 8 ;;
        ret {| data_left := uint 64 (header_file_size - sizeof_RiffChunk);
               filepos := sizeof_RiffChunk;
               got_fmt_header := false;
               object := PCMAudioProvider_new f |}.

(** The format branch; [WaveFormatEx] starts 24 bytes into the chunk. *)
Definition fmt_chunk (st : walk) : M mapper (bool * PCMAudioProvider) :=
  if got_fmt_header st then
    throw (AudioProviderOpenError "Bad file, found more than one 'fmt' chunk")
  else
    fmt <- EnsureRangeAccessible pf fsize (sint 64 (filepos st))
             (sizeof_FormatChunk pf) ;;
    wFormatTag <- load_uint f fmt 24 2 ;;
    if wFormatTag =? 3 then
      throw (AudioProviderOpenError
               "File is IEEE 32 bit float format which isn't supported. Bug the developers if this matters.")
    else if negb (wFormatTag =? 1) then
      throw (AudioProviderOpenError "Can't use file, not PCM encoding")
    else
      nSamplesPerSec <- load_uint f fmt 28 4 ;;
      nChannels <- load_uint f fmt 26 2 ;;
      wBitsPerSample <- load_uint f fmt 38 2 ;;
      ret (true, set_format (object st) nSamplesPerSec nChannels
                   ((wBitsPerSample + 7) / 8)).

(** The data branch: the quotient of the unsigned division is converted to
    [int64_t]; the division by [channels] is signed. *)
Definition data_chunk (st : walk) (chunk_size : Z)
  : M mapper (bool * PCMAudioProvider) :=
  if negb (got_fmt_header st) then
    throw (AudioProviderOpenError
             "Found 'data' chunk before 'fmt ' chunk, file is invalid.")
  else
    quotient <- divide chunk_size (bytes_per_sample (object st)) ;;
    let samples := sint 64 quotient in
    frames <- divide samples (channels (object st)) ;;
    let ip := {| IndexPoint.start_sample := num_samples (object st);
                 IndexPoint.num_samples := frames;
                 IndexPoint.start_byte := sint 64 (filepos st) |} in
    total <- i64 (num_samples (object st) + frames) ;;
    ret (got_fmt_header st, push_back (object st) ip total).

(** One iteration of [while (data_left)]. *)
Definition chunk (st : walk) : M mapper walk :=
  chunk_guid <- EnsureRangeAccessible pf fsize (sint 64 (filepos st)) 16 ;;
  size_ptr <- EnsureRangeAccessible pf fsize
                (sint 64 (uint 64 (filepos st + 16))) 8 ;;
  chunk_size <- load_uint f size_ptr 0 8 ;;
  is_fmt <- CheckGuid chunk_guid w64Guidfmt ;;
  seen <- (if is_fmt : bool then fmt_chunk st
           else
             is_data <- CheckGuid chunk_guid w64Guiddata ;;
             if is_data : bool then data_chunk st chunk_size
             else ret (got_fmt_header st, object st)) ;;
  (* Update counters; make sure they're 64 bit aligned *)
  ret {| data_left := uint 64 (data_left st - qword_aligned chunk_size);
         filepos := uint 64 (filepos st + qword_aligned chunk_size);
         got_fmt_header := fst seen;
         object := snd seen |}.

(** The constructor [Wave64AudioProvider::Wave64AudioProvider]
    (lines 320-396). *)
Definition Wave64AudioProvider (fuel : nat)
  : option (outcome PCMAudioProvider * mapper) :=
  construct fuel open more_data chunk object.

End Parser.

End Wave64.

(** ** The factory *)

Inductive container : Type := RIFF_WAV | WAVE64.

Section Factory.

Variable pf : platform.
Variable fuel : nat.
Variable f : file.

(** The second [try] block and the final [throw], with the values the first
    block left in [wrong_file_type] and [msg]. *)
Definition try_wave64 (wrong_file_type : bool) (msg : string)
  : option (list container * outcome (PCMAudioProvider * mapper)) :=
  match Wave64.Wave64AudioProvider pf f fuel with
  | None => None
  | Some (Return p, m) => Some ([RIFF_WAV; WAVE64], Return (p, m))
  | Some (Throw (AudioDataNotFoundError err), _) =>
      let msg := (msg ++ newline ++ "Wave64 audio provider: " ++ err)%string in
      Some ([RIFF_WAV; WAVE64],
            if wrong_file_type then Throw (AudioDataNotFoundError msg)
            else Throw (AudioProviderOpenError msg))
  | Some (Throw (AudioProviderOpenError err), _) =>
      let msg := (msg ++ newline ++ "Wave64 audio provider: " ++ err)%string in
      Some ([RIFF_WAV; WAVE64], Throw (AudioProviderOpenError msg))
  | Some (Throw e, _) => Some ([RIFF_WAV; WAVE64], Throw e)
  | Some (Undefined u, _) => Some ([RIFF_WAV; WAVE64], Undefined u)
  end.

(** [CreatePCMAudioProvider] (lines 399-429): the parsers that were run, in
    order, and the provider returned or the exception that leaves the
    function. *)
Definition CreatePCMAudioProvider
  : option (list container * outcome (PCMAudioProvider * mapper)) :=
  match RiffWav.RiffWavPCMAudioProvider pf f fuel with
  | None => None
  | Some (Return p, m) => Some ([RIFF_WAV], Return (p, m))
  | Some (Throw (AudioDataNotFoundError err), _) =>
      try_wave64 true ("RIFF PCM WAV audio provider: " ++ err)%string
  | Some (Throw (AudioProviderOpenError err), _) =>
      try_wave64 false ("RIFF PCM WAV audio provider: " ++ err)%string
  | Some (Throw e, _) => Some ([RIFF_WAV], Throw e)
  | Some (Undefined u, _) => Some ([RIFF_WAV], Undefined u)
  end.

End Factory.

(** * Specification vocabulary *)

(** The window held by the mapper is a view of the file. *)
Definition window_ok (m : mapper) (r : mapped_region) : Prop :=
  0 <= mapping_start m /\ 0 <= get_size r /\
  mapping_start m + get_size r <= INT64_MAX.

(** The test of line 74: the range lies in the window as [mapping_start]
    and the size of the region place it. *)
Definition covers (m : mapper) (r : mapped_region) (start length : Z) : Prop :=
  mapping_start m <= start /\ start + length <= mapping_start m + get_size r.

(** The mapped region holds the bytes of the range: the window of the file
    the region is a view of, from its own offset on.  It is the range of
    [covers] as long as [mapping_start] is the offset of the region. *)
Definition window_covers (r : mapped_region) (start length : Z) : Prop :=
  get_offset r <= start /\ start + length <= get_offset r + get_size r.

(** ** Platforms *)

(** A platform of the given [size_t] width on which structures have their
    natural alignment and every view is granted. *)
Definition granting (w : size_t_width) : platform :=
  {| size_t_bits := w; sizeof_FormatChunk := 56; map_view := fun _ _ => true |}.

Definition lp64 : platform := granting Bits64.
Definition ilp32 : platform := granting Bits32.

(** A platform on which [EnsureRangeAccessible] can serve every range of
    the file: every view is granted and, where [size_t] has 32 bits, the
    window size computed in [size_t] does not wrap. *)
Definition dependable (pf : platform) (fsize : Z) : Prop :=
  (forall offset size, map_view pf offset size = true) /\
  (size_t_bits pf = Bits32 -> fsize <= 2 ^ 32 - 2 ^ 20).

(** The mapped window, if any, lies inside the file and starts where
    [mapping_start] says. *)
Definition mapper_wf (fsize : Z) (m : mapper) : Prop :=
  match region m with
  | None => True
  | Some r =>
      get_offset r = mapping_start m /\ 0 <= get_offset r /\
      0 <= get_size r /\ get_offset r + get_size r <= fsize
  end.

(** ** The index *)

Fixpoint total_samples (ips : list IndexPoint.t) : Z :=
  match ips with
  | [] => 0
  | ip :: rest => IndexPoint.num_samples ip + total_samples rest
  end.

(** Each point starts where the points before it end, the first at [first]. *)
Fixpoint contiguous_from (first : Z) (ips : list IndexPoint.t) : Prop :=
  match ips with
  | [] => True
  | ip :: rest =>
      IndexPoint.start_sample ip = first /\
      contiguous_from (first + IndexPoint.num_samples ip) rest
  end.

(** The points are in order of [start_sample]. *)
Fixpoint ordered_from (low : Z) (ips : list IndexPoint.t) : Prop :=
  match ips with
  | [] => True
  | ip :: rest =>
      low <= IndexPoint.start_sample ip /\
      ordered_from (IndexPoint.start_sample ip) rest
  end.

Definition frame_size (this : PCMAudioProvider) : Z :=
  bytes_per_sample this * channels this.

(** The frames of an index point are bytes of the file. *)
Definition in_file (this : PCMAudioProvider) (ip : IndexPoint.t) : Prop :=
  0 <= IndexPoint.start_byte ip /\
  IndexPoint.start_byte ip + IndexPoint.num_samples ip * frame_size this
    <= file_size this.

(** What the parsers establish and [FillBuffer] relies on. *)
Record well_formed (this : PCMAudioProvider) : Prop := {
  wf_size : file_size this = Z.of_nat (List.length (file_mapping this));
  wf_size_max : file_size this <= INT64_MAX;
  wf_bps : 0 < bytes_per_sample this;
  wf_channels : 0 < channels this;
  wf_contiguous : contiguous_from 0 (index_points this);
  wf_counts : Forall (fun ip => 0 <= IndexPoint.num_samples ip) (index_points this);
  wf_total : num_samples this = total_samples (index_points this);
  wf_total_max : num_samples this <= INT64_MAX;
  wf_in_file : Forall (in_file this) (index_points this)
}.

(** ** Building files *)

Definition byte_of_Z (z : Z) : byte :=
  match Byte.of_N (Z.to_N (z mod 256)) with
  | Some b => b
  | None => x00
  end.

(** [n] bytes of [z], least significant first. *)
Fixpoint le_bytes (n : nat) (z : Z) : list byte :=
  match n with
  | O => []
  | S k => byte_of_Z z :: le_bytes k (z / 256)
  end.

Definition zeros (n : nat) : list byte := repeat x00 n.

Definition riff_header (size : Z) : list byte :=
  chars "RIFF" ++ le_bytes 4 size ++ chars "WAVE".

(** A ['fmt '] chunk of 16 bytes. *)
Definition riff_fmt (compression chans rate bits : Z) : list byte :=
  chars "fmt " ++ le_bytes 4 16 ++ le_bytes 2 compression ++ le_bytes 2 chans
  ++ le_bytes 4 rate ++ le_bytes 4 (rate * chans * ((bits + 7) / 8))
  ++ le_bytes 2 (chans * ((bits + 7) / 8)) ++ le_bytes 2 bits.

Definition riff_chunk (type : string) (size : Z) (payload : list byte) : list byte :=
  chars type ++ le_bytes 4 size ++ payload.

(** 16-bit PCM, 2 channels, 44100 Hz, one data chunk. *)
Definition stereo16_wav (payload : list byte) : file :=
  riff_header (36 + Z.of_nat (List.length payload))
  ++ riff_fmt 1 2 44100 16
  ++ riff_chunk "data" (Z.of_nat (List.length payload)) payload.

Definition wave64_header (size : Z) : list byte :=
  Wave64.w64GuidRIFF ++ le_bytes 8 size ++ Wave64.w64GuidWAVE.

(** A Wave64 format chunk of 48 bytes; its size counts the 24 bytes of the
    chunk header, as the cursor of the walk does. *)
Definition wave64_fmt (tag chans rate bits : Z) : list byte :=
  Wave64.w64Guidfmt ++ le_bytes 8 48 ++ le_bytes 2 tag ++ le_bytes 2 chans
  ++ le_bytes 4 rate ++ le_bytes 4 (rate * chans * ((bits + 7) / 8))
  ++ le_bytes 2 (chans * ((bits + 7) / 8)) ++ le_bytes 2 bits
  ++ le_bytes 2 0 ++ zeros 6.

Definition wave64_chunk (guid : list byte) (size : Z) (payload : list byte) : list byte :=
  guid ++ le_bytes 8 size ++ payload.

Definition ramp : list byte := List.map byte_of_Z
  [0; 1; 2; 3; 4; 5; 6; 7; 8; 9; 10; 11; 12; 13; 14; 15].

(** A 3-byte file, shorter than any header. *)
Definition short_file : file := chars "abc".

(** A RIFF WAV file whose format chunk declares a compression other than
    PCM. *)
Definition adpcm_wav : file := riff_header 28 ++ riff_fmt 2 2 44100 4.

(** A RIFF WAV file with a zero channel count and a data chunk. *)
Definition zero_channels_wav : file :=
  riff_header 44 ++ riff_fmt 1 0 44100 16 ++ riff_chunk "data" 8 (zeros 8).

(** A RIFF WAV file with zero bits per sample and a data chunk. *)
Definition zero_bits_wav : file :=
  riff_header 44 ++ riff_fmt 1 2 44100 0 ++ riff_chunk "data" 8 (zeros 8).

(** A Wave64 file with a zero channel count and a data chunk. *)
Definition zero_channels_w64 : file :=
  wave64_header 128 ++ wave64_fmt 1 0 44100 16
  ++ wave64_chunk Wave64.w64Guiddata 40 ramp.

(** A Wave64 file: 16-bit PCM, 2 channels, one data chunk of 4 frames (a
    chunk of 24 + 16 bytes) whose payload starts at byte 112. *)
Definition stereo16_w64 : file :=
  wave64_header 128 ++ wave64_fmt 1 2 44100 16
  ++ wave64_chunk Wave64.w64Guiddata 40 ramp.

(** A RIFF WAV file whose only chunk, of an unknown type, declares
    [0xFFFFFFF8] bytes. *)
Definition wrapping_wav : file :=
  riff_header 12 ++ riff_chunk "JUNK" (2 ^ 32 - 8) [].

(** A Wave64 file whose header is followed by zero bytes: a chunk of an
    unknown type and of size 0. *)
Definition zero_padded_w64 : file := wave64_header 128 ++ zeros 88.

(** A Wave64 file, 8-bit mono, in which a data chunk at byte 144 declares
    [2^64 - 32] bytes, which moves the cursor back to a second data chunk
    at byte 112, inside the payload of the unknown chunk at byte 88. *)
Definition backward_w64 : file :=
  wave64_header 136 ++ wave64_fmt 1 1 8000 8
  ++ wave64_chunk (zeros 16) 56
       (wave64_chunk Wave64.w64Guiddata 24 (zeros 8))
  ++ wave64_chunk Wave64.w64Guiddata (2 ^ 64 - 32) [].

(** The first 40 bytes are a valid Wave64 header; 119 bytes in all. *)
Definition truncated_w64 : file := wave64_header 119 ++ zeros 79.

(** ** Signatures *)

Definition riff_signature (f : file) : bool :=
  bytes_eqb (bytes_at f 0 4) (chars "RIFF") && bytes_eqb (bytes_at f 8 4) (chars "WAVE").

Definition wave64_signature (f : file) : bool :=
  bytes_eqb (bytes_at f 0 16) Wave64.w64GuidRIFF
  && bytes_eqb (bytes_at f 24 16) Wave64.w64GuidWAVE.

(** ** The logical sample stream *)

(** The bytes of the frames of an index point, and of all points in order. *)
Definition chunk_bytes (this : PCMAudioProvider) (ip : IndexPoint.t) : list byte :=
  bytes_at (file_mapping this) (IndexPoint.start_byte ip)
    (IndexPoint.num_samples ip * frame_size this).

Definition sample_stream (this : PCMAudioProvider) (ips : list IndexPoint.t) : list byte :=
  flat_map (chunk_bytes this) ips.

(** The provider the RIFF WAV parser builds from [stereo16_wav ramp]. *)
Definition stereo16_provider : PCMAudioProvider :=
  {| file_mapping := stereo16_wav ramp;
     file_size := 60;
     float_samples := false;
     sample_rate := 44100;
     channels := 2;
     bytes_per_sample := 2;
     num_samples := 4;
     index_points := [{| IndexPoint.start_byte := 44;
                         IndexPoint.start_sample := 0;
                         IndexPoint.num_samples := 4 |}] |}.

(** The three things an iteration can do to the object; [frames_of] relates
    an added point to the object it is added to. *)
Inductive chunk_effect (frames_of : PCMAudioProvider -> IndexPoint.t -> Prop)
  (st st' : walk) : Prop :=
| skipped :
    object st' = object st -> got_fmt_header st' = got_fmt_header st ->
    chunk_effect frames_of st st'
| format_set (rate chans bps : Z) :
    got_fmt_header st = false -> got_fmt_header st' = true ->
    0 <= chans -> 0 <= bps ->
    object st' = set_format (object st) rate chans bps ->
    chunk_effect frames_of st st'
| point_added (ip : IndexPoint.t) :
    got_fmt_header st = true -> got_fmt_header st' = true ->
    IndexPoint.start_sample ip = num_samples (object st) ->
    is_int64 (num_samples (object st) + IndexPoint.num_samples ip) = true ->
    frames_of (object st) ip ->
    object st' = push_back (object st) ip
                   (num_samples (object st) + IndexPoint.num_samples ip) ->
    chunk_effect frames_of st st'.

(** RIFF WAV: the frame count is the quotient of a 32-bit size. *)
Definition riff_frames (this : PCMAudioProvider) (ip : IndexPoint.t) : Prop :=
  exists size,
    0 <= size /\ bytes_per_sample this <> 0 /\ channels this <> 0 /\
    IndexPoint.num_samples ip
    = Z.quot (Z.quot size (bytes_per_sample this)) (channels this).

(** Wave64: the first quotient is reinterpreted as signed. *)
Definition wave64_frames (this : PCMAudioProvider) (ip : IndexPoint.t) : Prop :=
  exists size,
    0 <= size /\ bytes_per_sample this <> 0 /\ channels this <> 0 /\
    IndexPoint.num_samples ip
    = Z.quot (sint 64 (Z.quot size (bytes_per_sample this))) (channels this).

(** What the chunk walks maintain. *)
Record index_sums (this : PCMAudioProvider) : Prop := {
  sums_contiguous : contiguous_from 0 (index_points this);
  sums_total : num_samples this = total_samples (index_points this)
}.

Record counts_nonneg (this : PCMAudioProvider) : Prop := {
  nonneg_bps : 0 <= bytes_per_sample this;
  nonneg_channels : 0 <= channels this;
  nonneg_counts : Forall (fun ip => 0 <= IndexPoint.num_samples ip) (index_points this)
}.

(** The mapped region, if any, starts at [mapping_start]. *)
Definition mapper_sync (m : mapper) : Prop :=
  match region m with
  | Some r => get_offset r = mapping_start m
  | None => True
  end.

(** The two exceptions the factory catches, and their messages. *)
Definition caught (e : exception) : option string :=
  match e with
  | AudioDataNotFoundError msg => Some msg
  | AudioProviderOpenError msg => Some msg
  | AudioDecodeError _ => None
  end.

Definition is_open_error (e : exception) : bool :=
  match e with
  | AudioProviderOpenError _ => true
  | _ => false
  end.

(** The message of the error the factory raises after both parsers failed. *)
Definition both_failed (riff wave64 : string) : string :=
  ("RIFF PCM WAV audio provider: " ++ riff ++ newline
   ++ "Wave64 audio provider: " ++ wave64)%string.

(** A computation that throws only exceptions in [P]. *)
Definition throws_only {S A} (P : exception -> Prop) (c : M S A) : Prop :=
  forall s e s', c s = (Throw e, s') -> P e.

Definition decode_error (e : exception) : Prop :=
  exists msg, e = AudioDecodeError msg.

Definition open_or_decode_error (e : exception) : Prop :=
  (exists msg, e = AudioProviderOpenError msg) \/ decode_error e.

(** [p] gives access to [length] bytes of the file from [start] on. *)
Definition points_to (f : file) (m : mapper) (p : pointer) (start length : Z) : Prop :=
  forall off n, 0 <= off -> 0 <= n -> off + n <= length ->
    load f (ptr_add p off) n m = (Return (bytes_at f (start + off) n), m).

(** A 16-byte file with neither signature. *)
Definition unknown_file : file := chars "0123456789abcdef".

(** An index point made from the ['data'] chunk whose header is at [pos]:
    it records the first byte after the 8-byte header and the quotient of
    the declared size. *)
Definition riff_point (f : file) (this : PCMAudioProvider) (ip : IndexPoint.t) : Prop :=
  exists pos,
    bytes_at f pos 4 = chars "data" /\
    IndexPoint.start_byte ip = uint 32 (pos + 8) /\
    IndexPoint.num_samples ip
    = Z.quot (Z.quot (le (bytes_at f (pos + 4) 4)) (bytes_per_sample this))
        (channels this).

(** What the RIFF WAV walk maintains about its points. *)
Record riff_walk_inv (f : file) (st : walk) (m : mapper) : Prop := {
  walk_sync : mapper_sync m;
  walk_fmt_first : index_points (object st) <> [] -> got_fmt_header st = true;
  walk_points : Forall (riff_point f (object st)) (index_points (object st))
}.

(** The object of a walk over [f]: the file it maps, a total that fits its
    type, and non-zero divisors once a point exists. *)
Record built_from (f : file) (st : walk) : Prop := {
  built_file : file_mapping (object st) = f;
  built_size : file_size (object st) = Z.of_nat (List.length f);
  built_total : is_int64 (num_samples (object st)) = true;
  built_fmt :
    index_points (object st) <> [] ->
    got_fmt_header st = true /\
    bytes_per_sample (object st) <> 0 /\ channels (object st) <> 0
}.

(** ** Further vocabulary *)

(** A 64-bit platform on which no view is granted. *)
Definition refusing : platform :=
  {| size_t_bits := Bits64; sizeof_FormatChunk := 56;
     map_view := fun _ _ => false |}.

(** A 32-bit platform on which only views at the start of the file are
    granted. *)
Definition first_window_only : platform :=
  {| size_t_bits := Bits32; sizeof_FormatChunk := 56;
     map_view := fun offset _ => offset =? 0 |}.

(** [p] is a pointer into the mapped region, at the byte [pos] of the
    file. *)
Definition denotes (m : mapper) (p : pointer) (pos : Z) : Prop :=
  exists r, region m = Some r /\ serial r = ptr_serial p /\
            get_offset r + ptr_offset p = pos.

(** The window a 32-bit build maps for a request: it starts at the multiple
    of 1 MiB at or below [start] and holds 16 MiB, or the request rounded up
    to whole MiB if that is more, or what is left of the file if that is
    less. *)
Definition window_start_32 (start : Z) : Z := 1048576 * (start / 1048576).

Definition window_size_32 (fsize start length : Z) : Z :=
  Z.min (Z.max 16777216
           (1048576 * ((length + start mod 1048576 + 1048575) / 1048576)))
        (fsize - window_start_32 start).

(** No region has a serial number above the count of regions created. *)
Definition serial_ok (m : mapper) : Prop :=
  match region m with
  | Some r => (serial r <= regions_created m)%nat
  | None => True
  end.

(** What a call creating a region at [new_start] does to the mapper. *)
Definition remapped (pf : platform) (start new_start size : Z) (m : mapper)
  (o : outcome pointer) (m' : mapper) : Prop :=
  mapping_start m' = new_start /\
  ((map_view pf new_start size = true /\
    o = Return {| ptr_serial := S (regions_created m);
                  ptr_offset := start - new_start |} /\
    region m' = Some {| get_offset := new_start; get_size := size;
                        serial := S (regions_created m) |} /\
    regions_created m' = S (regions_created m)) \/
   (map_view pf new_start size = false /\
    o = Throw (AudioDecodeError "Failed mapping a view of the file") /\
    region m' = region m /\
    regions_created m' = regions_created m)).


(** A RIFF WAV file, 16-bit stereo, whose 4 frames are in two data chunks
    of 2 frames each, with a chunk of another type between them. *)
Definition split_wav : file :=
  riff_header 72 ++ riff_fmt 1 2 44100 16
  ++ riff_chunk "data" 8 (firstn 8 ramp)
  ++ riff_chunk "LIST" 4 (zeros 4)
  ++ riff_chunk "data" 8 (skipn 8 ramp).

(** The provider the RIFF WAV parser builds from [split_wav]. *)
Definition split_provider : PCMAudioProvider :=
  {| file_mapping := split_wav;
     file_size := 80;
     float_samples := false;
     sample_rate := 44100;
     channels := 2;
     bytes_per_sample := 2;
     num_samples := 4;
     index_points := [{| IndexPoint.start_byte := 44;
                         IndexPoint.start_sample := 0;
                         IndexPoint.num_samples := 2 |};
                      {| IndexPoint.start_byte := 72;
                         IndexPoint.start_sample := 2;
                         IndexPoint.num_samples := 2 |}] |}.

(** A RIFF WAV file, 16-bit stereo, whose data chunk declares 16 bytes
    (4 frames) of which the file holds the first 8. *)
Definition cut_wav : file :=
  riff_header 52 ++ riff_fmt 1 2 44100 16
  ++ riff_chunk "data" 16 (firstn 8 ramp).

(** The provider the RIFF WAV parser builds from [cut_wav]. *)
Definition cut_provider : PCMAudioProvider :=
  {| file_mapping := cut_wav;
     file_size := 52;
     float_samples := false;
     sample_rate := 44100;
     channels := 2;
     bytes_per_sample := 2;
     num_samples := 4;
     index_points := [{| IndexPoint.start_byte := 44;
                         IndexPoint.start_sample := 0;
                         IndexPoint.num_samples := 4 |}] |}.

(** The index point holds the frame [start]. *)
Definition holds (ip : IndexPoint.t) (start : Z) : Prop :=
  IndexPoint.start_sample ip <= start
  < IndexPoint.start_sample ip + IndexPoint.num_samples ip.

(** The index point ends at or before the frame [start]. *)
Definition ends_before (start : Z) (ip : IndexPoint.t) : Prop :=
  0 <= IndexPoint.start_sample ip /\ 0 <= IndexPoint.num_samples ip /\
  IndexPoint.start_sample ip + IndexPoint.num_samples ip <= start.

(** The members set by the base constructor, which no parser changes. *)
Record base_kept (f : file) (this : PCMAudioProvider) : Prop := {
  kept_file : file_mapping this = f;
  kept_size : file_size this = Z.of_nat (List.length f);
  kept_float : float_samples this = false
}.

(** The ranges the widths of the header fields give the format. *)
Record format_ranged (this : PCMAudioProvider) : Prop := {
  ranged_rate : 0 <= sample_rate this < 2 ^ 32;
  ranged_channels : 0 <= channels this < 2 ^ 16;
  ranged_bps : 0 <= bytes_per_sample this <= 8192
}.

(** An index point made of the whole frames of the ['data'] chunk whose
    header is at [pos]. *)
Definition riff_whole_frames (f : file) (this : PCMAudioProvider)
  (ip : IndexPoint.t) : Prop :=
  exists pos size,
    bytes_at f pos 4 = chars "data" /\
    size = le (bytes_at f (pos + 4) 4) /\
    IndexPoint.start_byte ip = uint 32 (pos + 8) /\
    0 < frame_size this /\
    IndexPoint.num_samples ip * frame_size this <= size
    < (IndexPoint.num_samples ip + 1) * frame_size this.





(** The four ways an iteration of the Wave64 walk refuses the chunk at
    [filepos]. *)
Definition wave64_refusal (pf : platform) (f : file) (st : walk) (msg : string) : Prop :=
  let guid := bytes_at f (filepos st) 16 in
  let tag := le (bytes_at f (filepos st + 24) 2) in
  let format_in_file :=
    0 <= sizeof_FormatChunk pf /\
    filepos st + sizeof_FormatChunk pf <= Z.of_nat (List.length f) /\
    filepos st + 26 <= Z.of_nat (List.length f) in
  (guid = Wave64.w64Guidfmt /\ got_fmt_header st = true /\
   msg = "Bad file, found more than one 'fmt' chunk"%string) \/
  (guid = Wave64.w64Guidfmt /\ got_fmt_header st = false /\ format_in_file /\
   tag = 3 /\
   msg = "File is IEEE 32 bit float format which isn't supported. Bug the developers if this matters."%string) \/
  (guid = Wave64.w64Guidfmt /\ got_fmt_header st = false /\ format_in_file /\
   tag <> 3 /\ tag <> 1 /\
   msg = "Can't use file, not PCM encoding"%string) \/
  (guid = Wave64.w64Guiddata /\ got_fmt_header st = false /\
   msg = "Found 'data' chunk before 'fmt ' chunk, file is invalid."%string).


(** A Wave64 file whose format chunk has the tag of IEEE float samples. *)
Definition float_w64 : file :=
  wave64_header 128 ++ wave64_fmt 3 2 44100 32
  ++ wave64_chunk Wave64.w64Guiddata 40 ramp.

(** The state of either walk at the first chunk, the chunk header of RIFF
    WAV being at byte 12 and that of Wave64 at byte 40. *)
Definition at_first_chunk (f : file) (pos left : Z) (seen : bool) : walk :=
  {| data_left := left; filepos := pos; got_fmt_header := seen;
     object := PCMAudioProvider_new f |}.

(** The whole file is mapped. *)
Definition whole_file (fsize : Z) (m : mapper) (r : mapped_region) : Prop :=
  region m = Some r /\ mapping_start m = 0 /\ get_offset r = 0 /\
  get_size r = fsize.

(** A Wave64 file whose format chunk has a tag that is neither PCM nor
    IEEE float. *)
Definition adpcm_w64 : file :=
  wave64_header 128 ++ wave64_fmt 2 2 44100 4
  ++ wave64_chunk Wave64.w64Guiddata 40 ramp.

(** A Wave64 file that starts with a data chunk. *)
Definition data_first_w64 : file :=
  wave64_header 80 ++ wave64_chunk Wave64.w64Guiddata 40 ramp.

(** The mapper of a 64-bit build after its first request. *)
Definition mapped_whole (fsize : Z) : mapper :=
  {| region := Some {| get_offset := 0; get_size := fsize; serial := 1 |};
     mapping_start := 0; regions_created := 1 |}.

(** A RIFF WAV file that is its 12-byte header, and a Wave64 file whose
    header is followed by 80 bytes that the header does not count. *)
Definition bare_wav : file := riff_header 4.

Definition bare_w64 : file := wave64_header 40 ++ zeros 80.

(** The outcome is not a provider. *)
Definition refused {A S : Type} (r : option (outcome A * S)) : Prop :=
  match r with
  | Some (Return _, _) => False
  | _ => True
  end.


(** A Wave64 file with a chunk of another type of 24 + 3 bytes, padded to
    32, before the format chunk. *)
Definition padded_w64 : file :=
  wave64_header 160 ++ wave64_chunk (zeros 16) 27 (zeros 8)
  ++ wave64_fmt 1 2 44100 16 ++ wave64_chunk Wave64.w64Guiddata 40 ramp.


(** An index point made from the Wave64 data chunk whose GUID is at [pos]:
    it records the first byte of the GUID and takes its count from the
    whole chunk size. *)
Definition wave64_point (f : file) (this : PCMAudioProvider)
  (ip : IndexPoint.t) : Prop :=
  exists pos,
    0 <= pos /\ pos + 24 <= Z.of_nat (List.length f) /\
    bytes_at f pos 16 = Wave64.w64Guiddata /\
    IndexPoint.start_byte ip = pos /\
    IndexPoint.num_samples ip
    = Z.quot (sint 64 (Z.quot (le (bytes_at f (pos + 16) 8))
                         (bytes_per_sample this)))
        (channels this).

(** What the Wave64 walk maintains. *)
Record wave64_walk_inv (f : file) (st : walk) (m : mapper) : Prop := {
  w64_sync : mapper_sync m;
  w64_serial : serial_ok m;
  w64_fmt_first : index_points (object st) <> [] -> got_fmt_header st = true;
  w64_points : Forall (wave64_point f (object st)) (index_points (object st));
  w64_cursor : 0 <= filepos st < 2 ^ 64
}.

(** A Wave64 file whose first chunk, of another type, declares 2^63
    bytes. *)
Definition far_w64 : file :=
  wave64_header 128 ++ wave64_chunk (zeros 16) (2 ^ 63) (zeros 64).

(** The undefined behaviours of arithmetic, as opposed to those of memory
    accesses. *)
Definition arithmetic (u : undefined) : Prop :=
  u = DivisionByZero \/ u = SignedOverflow.

(** Run from the mapper [m0], the computation leaves the mapper as it is,
    yields a value in [Q] if it returns, and has no undefined behaviour
    other than that of arithmetic. *)
Definition keeps {A} (m0 : mapper) (c : M mapper A) (Q : A -> Prop) : Prop :=
  forall o m', c m0 = (o, m') ->
    m' = m0 /\
    match o with
    | Return a => Q a
    | Throw _ => True
    | Undefined u => arithmetic u
    end.

(** ** RIFF WAV files made of chunks *)

(** A platform on which the first request maps the whole file: the view is
    granted and, where [size_t] has 32 bits, the file is no longer than one
    window. *)
Definition maps_at_once (pf : platform) (fsize : Z) : Prop :=
  map_view pf 0 fsize = true /\
  (size_t_bits pf = Bits32 -> fsize <= 16777216).

(** The chunks that follow the format chunk: data chunks and chunks of
    other types. *)
Inductive riff_item : Type :=
| data_item (payload : list byte)
| other_item (type payload : list byte).

Definition item_type (c : riff_item) : list byte :=
  match c with
  | data_item _ => chars "data"
  | other_item type _ => type
  end.

Definition item_payload (c : riff_item) : list byte :=
  match c with
  | data_item payload => payload
  | other_item _ payload => payload
  end.

Definition item_size (c : riff_item) : Z :=
  Z.of_nat (List.length (item_payload c)).

(** A chunk as the file holds it: type, size, payload, and a byte of
    padding after a payload of odd size. *)
Definition encode (c : riff_item) : list byte :=
  item_type c ++ le_bytes 4 (item_size c) ++ item_payload c
  ++ zeros (Z.to_nat (item_size c mod 2)).

Definition riff_body (items : list riff_item) : list byte :=
  flat_map encode items.

(** The file: the header, whose size field counts what follows it, a
    format chunk that declares PCM, and the items. *)
Definition riff_file (chans rate bits : Z) (items : list riff_item) : file :=
  riff_header (28 + Z.of_nat (List.length (riff_body items)))
  ++ riff_fmt 1 chans rate bits ++ riff_body items.

Definition well_typed (c : riff_item) : Prop :=
  match c with
  | data_item _ => True
  | other_item type _ =>
      List.length type = 4%nat /\ type <> chars "fmt " /\ type <> chars "data"
  end.

(** The index of the items, the first of which is at byte [pos]: a point
    for each data item, at the byte after its chunk header, with the whole
    frames of [fs] bytes its payload holds. *)
Fixpoint riff_index (fs pos first : Z) (items : list riff_item)
  : list IndexPoint.t :=
  match items with
  | [] => []
  | c :: rest =>
      let next := pos + Z.of_nat (List.length (encode c)) in
      match c with
      | data_item payload =>
          let n := Z.of_nat (List.length payload) / fs in
          {| IndexPoint.start_byte := pos + 8;
             IndexPoint.start_sample := first;
             IndexPoint.num_samples := n |}
          :: riff_index fs next (first + n) rest
      | other_item _ _ => riff_index fs next first rest
      end
  end.

(** The object after the points [ips] have been added to it one by one. *)
Definition push_all (this : PCMAudioProvider) (ips : list IndexPoint.t)
  : PCMAudioProvider :=
  fold_left (fun o ip => push_back o ip (num_samples o + IndexPoint.num_samples ip))
    ips this.

(** The provider of a file made of chunks. *)
Definition riff_provider (chans rate bits : Z) (items : list riff_item)
  : PCMAudioProvider :=
  let f := riff_file chans rate bits items in
  let bps := (bits + 7) / 8 in
  let idx := riff_index (bps * chans) 36 0 items in
  {| file_mapping := f;
     file_size := Z.of_nat (List.length f);
     float_samples := false;
     sample_rate := rate;
     channels := chans;
     bytes_per_sample := bps;
     num_samples := total_samples idx;
     index_points := idx |}.


(** Two data chunks holding the halves of [ramp], with a chunk of 3 bytes
    of another type between them. *)
Definition split_items : list riff_item :=
  [data_item (firstn 8 ramp); other_item (chars "LIST") (zeros 3);
   data_item (skipn 8 ramp)].
(** * Properties *)

(** ** The monad *)

Lemma bind_Return {S A B} (c : M S A) (k : A -> M S B) s b s' :
  bind c k s = (Return b, s') ->
  exists a s1, c s = (Return a, s1) /\ k a s1 = (Return b, s').
Proof.
  unfold bind. destruct (c s) as [[a | e | u] s1]; intro H; try discriminate.
  exists a, s1. split; [reflexivity | exact H].
Qed.

Lemma bind_step {S A B} (c : M S A) (k : A -> M S B) s a s1 :
  c s = (Return a, s1) -> bind c k s = k a s1.
Proof. unfold bind. intros ->. reflexivity. Qed.

Lemma bind_assoc {S A B C} (c : M S A) (k : A -> M S B) (h : B -> M S C) s :
  bind (bind c k) h s = bind c (fun a => bind (k a) h) s.
Proof. unfold bind. destruct (c s) as [[a | e | u] s1]; reflexivity. Qed.

Lemma i64_Return {S} z (s : S) :
  is_int64 z = true -> i64 z s = (Return z, s).
Proof. unfold i64. intros ->. reflexivity. Qed.

Lemma bind_i64 {S B} z (k : Z -> M S B) (s : S) :
  is_int64 z = true -> bind (i64 z) k s = k z s.
Proof. intro H. apply bind_step, i64_Return, H. Qed.

Lemma i64_inv {S} z (s : S) a s' :
  i64 z s = (Return a, s') -> a = z /\ s' = s /\ is_int64 z = true.
Proof.
  unfold i64. destruct (is_int64 z); cbn; intro H; inversion H; auto.
Qed.

Lemma is_int64_true z : INT64_MIN <= z <= INT64_MAX -> is_int64 z = true.
Proof. unfold is_int64. intros. apply andb_true_intro. split; apply Z.leb_le; lia. Qed.


Lemma gtb_true a b : b < a -> (a >? b) = true.
Proof. intro. rewrite Z.gtb_ltb. apply Z.ltb_lt. assumption. Qed.

Lemma gtb_false a b : a <= b -> (a >? b) = false.
Proof. intro. rewrite Z.gtb_ltb. apply Z.ltb_ge. assumption. Qed.

Lemma leb_true a b : a <= b -> (a <=? b) = true.
Proof. apply Z.leb_le. Qed.

Lemma leb_false a b : b < a -> (a <=? b) = false.
Proof. apply Z.leb_gt. Qed.

Ltac invert_run H :=
  repeat
    match type of H with
    | bind _ _ _ = (Return _, _) =>
        let a := fresh "v" in
        let s := fresh "m" in
        let H1 := fresh "Hrun" in
        apply bind_Return in H; destruct H as (a & s & H1 & H)
    end.

Lemma ret_inv {S A} (a b : A) (s s' : S) :
  ret a s = (Return b, s') -> b = a /\ s' = s.
Proof. unfold ret. intro H. inversion H. auto. Qed.

(** ** EnsureRangeAccessible *)

Lemma uint_small w z : 0 <= z < 2 ^ w -> uint w z = z.
Proof. intro H. unfold uint. apply Z.mod_small. exact H. Qed.

(** A range the current window covers is served from it. *)
Lemma EnsureRangeAccessible_reuses pf fsize start length m r :
  is_int64 (start + length) = true ->
  start + length <= fsize ->
  region m = Some r -> window_ok m r -> 0 <= length ->
  covers m r start length ->
  EnsureRangeAccessible pf fsize start length m
  = (Return {| ptr_serial := serial r;
               ptr_offset := start - mapping_start m |}, m).
Proof.
  intros Hsum Hle Hr (Hms & Hsz & Hend) Hlen (Hlo & Hhi).
  unfold EnsureRangeAccessible.
  rewrite (bind_step _ _ _ _ _ (i64_Return _ m Hsum)).
  rewrite gtb_false by lia.
  unfold current_mapping, bind, get_state. rewrite Hr.
  rewrite leb_true by lia.
  unfold INT64_MAX in Hend.
  destruct (size_t_bits pf).
  - rewrite (i64_Return (mapping_start m + get_size r) m)
      by (apply is_int64_true; unfold INT64_MIN, INT64_MAX; lia).
    unfold ret.
    rewrite leb_true by lia.
    reflexivity.
  - unfold ret. rewrite !uint_small by lia.
    rewrite leb_true by lia.
    reflexivity.
Qed.


(** ** Loops and fuel *)

Lemma while_done {S St} fuel (cond : St -> bool) (body : St -> M S St) st s :
  cond st = false -> while fuel cond body st s = Some (Return st, s).
Proof. intro H. destruct fuel; cbn; rewrite H; reflexivity. Qed.

Lemma while_more_fuel {S St} (cond : St -> bool) (body : St -> M S St) :
  forall n st s r, while n cond body st s = Some r ->
  forall n', (n <= n')%nat -> while n' cond body st s = Some r.
Proof.
  induction n as [|n IH]; intros st s r H n' Hle.
  - cbn in H. destruct (cond st) eqn:E; [discriminate|].
    rewrite while_done by assumption. exact H.
  - destruct n' as [|n']; [lia|]. cbn in H |- *.
    destruct (cond st); [|exact H].
    destruct (body st s) as [[st' | e | u] s']; try exact H.
    apply IH with (n' := n') in H; [exact H | lia].
Qed.

Lemma construct_more_fuel {St A} (init : M mapper St) cond body (result : St -> A) :
  forall n r, construct n init cond body result = Some r ->
  forall n', (n <= n')%nat -> construct n' init cond body result = Some r.
Proof.
  intros n r H n' Hle. unfold construct in *.
  destruct (init unmapped) as [[st | e | u] m]; try exact H.
  destruct (while n cond body st m) as [[[st' | e | u] m']|] eqn:E; try discriminate;
    rewrite (while_more_fuel _ _ _ _ _ _ E _ Hle); exact H.
Qed.

(** A state the body maps to itself is never left. *)
Lemma while_fixed_point {S St} (cond : St -> bool) (body : St -> M S St) st s :
  cond st = true -> body st s = (Return st, s) ->
  forall fuel, while fuel cond body st s = None.
Proof.
  intros Hc Hb. induction fuel as [|n IH]; cbn; rewrite Hc; [reflexivity|].
  rewrite Hb. exact IH.
Qed.

(** ** The mapper serves every range of the file *)

Lemma sint_small w z : 0 < w -> 0 <= z < 2 ^ (w - 1) -> sint w z = z.
Proof.
  intros Hw H. unfold sint.
  assert (2 ^ w = 2 * 2 ^ (w - 1)).
  { replace w with (Z.succ (w - 1)) at 1 by lia. apply Z.pow_succ_r. lia. }
  rewrite Z.mod_small by lia.
  cbv zeta. rewrite (proj2 (Z.ltb_lt _ _)) by lia. reflexivity.
Qed.

Lemma align_down a : Z.land a (Z.lnot 1048575) = 1048576 * (a / 1048576).
Proof.
  change 1048575 with (Z.ones 20). rewrite <- Z.ldiff_land.
  rewrite Z.ldiff_ones_r by lia.
  rewrite Z.shiftr_div_pow2, Z.shiftl_mul_pow2 by lia.
  change (2 ^ 20) with 1048576. lia.
Qed.

Lemma align_down_uint64 a :
  0 <= a < 2 ^ 63 ->
  Z.land (uint 64 a) (uint 64 (Z.lnot 1048575)) = 1048576 * (a / 1048576).
Proof.
  intro H. unfold uint.
  rewrite <- !Z.land_ones by lia.
  rewrite (Z.land_comm (Z.lnot 1048575)), Z.land_assoc.
  rewrite <- (Z.land_assoc a), Z.land_diag.
  rewrite (Z.land_comm a), <- Z.land_assoc, align_down.
  rewrite Z.land_comm, Z.land_ones by lia.
  apply Z.mod_small.
  assert (0 <= 1048576 * (a / 1048576) <= a).
  { split; [apply Z.mul_nonneg_nonneg; [lia | apply Z.div_pos; lia]
           | apply Z.mul_div_le; lia]. }
  lia.
Qed.

Lemma bytes_at_length (f : file) off n :
  0 <= off -> 0 <= n -> off + n <= Z.of_nat (List.length f) ->
  Z.of_nat (List.length (bytes_at f off n)) = n.
Proof.
  intros. unfold bytes_at. rewrite length_firstn, length_skipn. lia.
Qed.

Section Serving.

Variable pf : platform.
Variable f : file.

Let fsize : Z := Z.of_nat (List.length f).

Hypothesis Hpf : dependable pf fsize.
Hypothesis Hmax : fsize <= INT64_MAX.

Lemma load_in_window m r p n :
  region m = Some r -> mapper_wf fsize m ->
  ptr_serial p = serial r -> 0 <= ptr_offset p ->
  ptr_offset p + n <= get_size r ->
  load f p n m = (Return (bytes_at f (mapping_start m + ptr_offset p) n), m).
Proof.
  intros Hr Hwf Hs Ho Hn. unfold load. unfold mapper_wf in Hwf.
  rewrite Hr in *. destruct Hwf as (Hoff & H0 & Hsz & Hend).
  rewrite Hs, Nat.eqb_refl. rewrite !leb_true by (fold fsize; lia).
  cbn. rewrite Hoff. reflexivity.
Qed.

Lemma remap_serves m start new_start size length :
  0 <= new_start -> new_start <= start -> 0 <= size ->
  start + length <= new_start + size -> new_start + size <= fsize ->
  exists p m',
    remap pf start new_start size m = (Return p, m') /\
    mapper_wf fsize m' /\
    load f p length m' = (Return (bytes_at f start length), m') /\
    points_to f m' p start length.
Proof.
  intros H0 Hle Hsz Hcov Hend. unfold remap.
  rewrite (proj1 Hpf). eexists _, _. split; [reflexivity|].
  split; [|split].
  - unfold mapper_wf. cbn. lia.
  - erewrite load_in_window; try reflexivity; cbn.
    + f_equal. f_equal. f_equal. lia.
    + unfold mapper_wf. cbn. lia.
    + lia.
    + lia.
  - intros off n Hoff Hn Hfit.
    erewrite load_in_window; try reflexivity; cbn.
    + f_equal. f_equal. f_equal. lia.
    + unfold mapper_wf. cbn. lia.
    + lia.
    + lia.
Qed.

Lemma current_mapping_spec m start sum :
  mapper_wf fsize m -> 0 <= sum <= INT64_MAX ->
  current_mapping pf start sum m =
    (Return match region m with
            | Some r =>
                if (mapping_start m <=? start)
                   && (sum <=? mapping_start m + get_size r)
                then Some r else None
            | None => None
            end, m).
Proof.
  intros Hwf Hsum. unfold current_mapping.
  rewrite (bind_step _ _ _ _ _ (eq_refl : get_state m = (Return m, m))).
  unfold mapper_wf in Hwf.
  destruct (region m) as [r|]; [|reflexivity].
  destruct Hwf as (Hoff & H0 & Hsz & Hend).
  assert (Hb : INT64_MAX = 2 ^ 63 - 1) by reflexivity.
  assert (Hb' : INT64_MIN = - 2 ^ 63) by reflexivity.
  destruct (mapping_start m <=? start); [|reflexivity].
  cbn [andb].
  destruct (size_t_bits pf).
  - rewrite bind_i64 by (apply is_int64_true; lia). reflexivity.
  - rewrite !uint_small by lia. reflexivity.
Qed.

(** The contract of the windowed mapper: a pointer to the requested bytes. *)
Lemma EnsureRangeAccessible_serves m start length :
  mapper_wf fsize m -> 0 <= start -> 0 <= length -> start + length <= fsize ->
  exists p m',
    EnsureRangeAccessible pf fsize start length m = (Return p, m') /\
    mapper_wf fsize m' /\
    load f p length m' = (Return (bytes_at f start length), m') /\
    points_to f m' p start length.
Proof.
  intros Hwf Hs Hl Hin.
  assert (Hb : INT64_MAX = 2 ^ 63 - 1) by reflexivity.
  assert (Hb' : INT64_MIN = - 2 ^ 63) by reflexivity.
  assert (Hremap : exists p m',
             match size_t_bits pf with
             | Bits32 =>
                 let new_start :=
                   sint 64 (Z.land (uint 64 start) (uint 64 (Z.lnot 1048575))) in
                 (d <- i64 (start - new_start) ;;
                  length1 <- i64 (length + uint 32 d) ;;
                  up <- i64 (length1 + 1048575) ;;
                  rest <- i64 (fsize - new_start) ;;
                  let wanted :=
                    Z.max 16777216 (uint 32 (Z.land up (Z.lnot 1048575))) in
                  remap pf start new_start (Z.min wanted (uint 32 rest)))%cxx
             | Bits64 => remap pf start 0 fsize
             end m = (Return p, m') /\
             mapper_wf fsize m' /\
             load f p length m' = (Return (bytes_at f start length), m') /\
             points_to f m' p start length).
  { destruct (size_t_bits pf) eqn:Ew.
    - pose proof (proj2 Hpf Ew) as H32.
      rewrite align_down_uint64 by lia.
      set (A := 1048576 * (start / 1048576)).
      assert (HA : 0 <= A <= start /\ start - A < 1048576).
      { unfold A. pose proof (Z.mul_div_le start 1048576 ltac:(lia)).
        pose proof (Z.mod_pos_bound start 1048576 ltac:(lia)).
        pose proof (Z.div_mod start 1048576 ltac:(lia)).
        pose proof (Z.div_pos start 1048576 Hs ltac:(lia)). lia. }
      rewrite (sint_small 64 A) by (change (64 - 1) with 63; lia).
      cbv zeta.
      rewrite bind_i64 by (apply is_int64_true; lia).
      rewrite (uint_small 32) by lia.
      rewrite bind_i64 by (apply is_int64_true; unfold fsize in *; lia).
      rewrite bind_i64 by (apply is_int64_true; unfold fsize in *; lia).
      rewrite bind_i64 by (apply is_int64_true; unfold fsize in *; lia).
      rewrite align_down.
      set (L := length + (start - A)).
      set (T := 1048576 * ((L + 1048575) / 1048576)).
      assert (HT : L <= T <= L + 1048575).
      { unfold T. pose proof (Z.mod_pos_bound (L + 1048575) 1048576 ltac:(lia)).
        pose proof (Z.div_mod (L + 1048575) 1048576 ltac:(lia)). lia. }
      change (2 ^ 32 - 2 ^ 20) with 4293918720 in H32.
      rewrite !(uint_small 32) by (change (2 ^ 32) with 4294967296; unfold L in *; lia).
      apply remap_serves; unfold L in *; lia.
    - apply remap_serves; lia. }
  unfold EnsureRangeAccessible.
  rewrite bind_i64 by (apply is_int64_true; lia).
  rewrite gtb_false by lia.
  rewrite (bind_step _ _ _ _ _ (current_mapping_spec m start (start + length) Hwf ltac:(lia))).
  destruct (region m) as [r|] eqn:Hr; [|exact Hremap].
  destruct ((mapping_start m <=? start)
            && (start + length <=? mapping_start m + get_size r)) eqn:Hc;
    [|exact Hremap].
  apply andb_prop in Hc. destruct Hc as [Hms Hc].
  apply Z.leb_le in Hms, Hc.
  eexists _, _. split; [reflexivity|]. split; [exact Hwf|].
  pose proof Hwf as Hwf'. unfold mapper_wf in Hwf'. rewrite Hr in Hwf'.
  split.
  - erewrite load_in_window; try eassumption; cbn; try lia.
    f_equal. f_equal. f_equal. lia.
  - intros off n Hoff Hn Hfit.
    erewrite load_in_window; try eassumption; cbn; try lia.
    f_equal. f_equal. f_equal. lia.
Qed.

End Serving.

(** ** What a returned pointer points to *)

Lemma get_state_inv {S} (s a s' : S) :
  get_state s = (Return a, s') -> a = s /\ s' = s.
Proof. unfold get_state. intro H. inversion H. auto. Qed.

Lemma load_inv f p n m bs m' :
  load f p n m = (Return bs, m') ->
  m' = m /\
  exists r, region m = Some r /\ serial r = ptr_serial p /\
            bs = bytes_at f (get_offset r + ptr_offset p) n.
Proof.
  unfold load. destruct (region m) as [r|]; [|discriminate].
  destruct (Nat.eqb (serial r) (ptr_serial p)) eqn:E; cbn [andb]; [|discriminate].
  match goal with |- (if ?b then _ else _) = _ -> _ => destruct b end;
    [|discriminate].
  intro H. inversion H. split; [reflexivity|].
  exists r. apply Nat.eqb_eq in E. auto.
Qed.

Lemma remap_inv pf start new_start size m p m' :
  remap pf start new_start size m = (Return p, m') ->
  mapper_sync m' /\
  exists r, region m' = Some r /\ serial r = ptr_serial p /\
            get_offset r + ptr_offset p = start.
Proof.
  unfold remap. destruct (map_view pf new_start size); [|discriminate].
  intro H. inversion H. split; [reflexivity|].
  eexists. split; [reflexivity|]. cbn. split; [reflexivity | lia].
Qed.

Lemma current_mapping_inv pf start sum m cur m' :
  current_mapping pf start sum m = (Return cur, m') ->
  m' = m /\ forall r, cur = Some r -> region m = Some r.
Proof.
  unfold current_mapping. intro H. invert_run H.
  apply get_state_inv in Hrun. destruct Hrun as [-> ->].
  destruct (region m) as [r|].
  - destruct (mapping_start m <=? start).
    + destruct (size_t_bits pf).
      * invert_run H. apply i64_inv in Hrun. destruct Hrun as (_ & -> & _).
        apply ret_inv in H. destruct H as [-> ->]. split; [reflexivity|].
        intros r0. destruct (sum <=? v); intro E; inversion E; reflexivity.
      * apply ret_inv in H. destruct H as [-> ->]. split; [reflexivity|].
        intros r0.
        match goal with |- (if ?b then _ else _) = _ -> _ => destruct b end;
          intro E; inversion E; reflexivity.
    + apply ret_inv in H. destruct H as [-> ->]. split; [reflexivity|].
      intros r0 E; discriminate E.
  - apply ret_inv in H. destruct H as [-> ->]. split; [reflexivity|].
    intros r0 E; discriminate E.
Qed.

Lemma EnsureRangeAccessible_returns pf fsize start length m p m' :
  mapper_sync m ->
  EnsureRangeAccessible pf fsize start length m = (Return p, m') ->
  mapper_sync m' /\ start + length <= fsize /\
  exists r, region m' = Some r /\ serial r = ptr_serial p /\
            get_offset r + ptr_offset p = start.
Proof.
  intros Hsync H. unfold EnsureRangeAccessible in H. invert_run H.
  apply i64_inv in Hrun. destruct Hrun as (-> & -> & _).
  destruct (start + length >? fsize) eqn:Hgt; [discriminate|].
  rewrite Z.gtb_ltb in Hgt. apply Z.ltb_ge in Hgt.
  invert_run H.
  apply current_mapping_inv in Hrun. destruct Hrun as [-> Hcur].
  destruct v as [r|].
  - invert_run H. apply get_state_inv in Hrun. destruct Hrun as [-> ->].
    apply ret_inv in H. destruct H as [-> ->].
    split; [exact Hsync|]. split; [exact Hgt|].
    exists r. specialize (Hcur r eq_refl). split; [exact Hcur|].
    cbn. unfold mapper_sync in Hsync. rewrite Hcur in Hsync.
    split; [reflexivity | lia].
  - split; [|split; [exact Hgt|]]; destruct (size_t_bits pf).
    + invert_run H. apply remap_inv in H. tauto.
    + apply remap_inv in H. tauto.
    + invert_run H. apply remap_inv in H. tauto.
    + apply remap_inv in H. tauto.
Qed.

(** A field read through a pointer obtained for [start]: the bytes of the
    file at [start + off]. *)
Lemma field_at f p off n m bs m' r start :
  region m = Some r -> serial r = ptr_serial p ->
  get_offset r + ptr_offset p = start ->
  load f (ptr_add p off) n m = (Return bs, m') ->
  m' = m /\ bs = bytes_at f (start + off) n.
Proof.
  intros Hr Hs Hp H. apply load_inv in H.
  destruct H as (-> & r' & Hr' & _ & ->). split; [reflexivity|].
  rewrite Hr in Hr'. inversion Hr'; subst r'. cbn. f_equal. lia.
Qed.

Lemma load_inv_state f p off n m v m' :
  load_uint f p off n m = (Return v, m') -> m' = m.
Proof.
  unfold load_uint. intro H. invert_run H.
  apply load_inv in Hrun. destruct Hrun as [-> _].
  apply ret_inv in H. tauto.
Qed.

(** ** Which exceptions a computation can throw *)

Lemma throws_only_bind {S A B} P (c : M S A) (k : A -> M S B) :
  throws_only P c -> (forall a, throws_only P (k a)) -> throws_only P (bind c k).
Proof.
  intros Hc Hk s e s'. unfold bind.
  destruct (c s) as [[a | e1 | u] s1] eqn:E; intro H.
  - eapply Hk; eassumption.
  - inversion H; subst. eapply Hc; eassumption.
  - discriminate.
Qed.

Lemma throws_only_ret {S A} P (a : A) : throws_only (S := S) P (ret a).
Proof. intros s e s' H. discriminate H. Qed.

Lemma throws_only_throw {S A} (P : exception -> Prop) e :
  P e -> throws_only (S := S) (A := A) P (throw e).
Proof. intros HP s e' s' H. inversion H; subst. exact HP. Qed.

Lemma throws_only_i64 {S} P z : throws_only (S := S) P (i64 z).
Proof. intros s e s'. unfold i64. destruct (is_int64 z); discriminate. Qed.

Lemma throws_only_divide {S} P a b : throws_only (S := S) P (divide a b).
Proof. intros s e s'. unfold divide. destruct (b =? 0); discriminate. Qed.

Lemma throws_only_get_state {S} P : throws_only (S := S) P get_state.
Proof. intros s e s' H. discriminate H. Qed.

Lemma throws_only_load P f p n : throws_only P (load f p n).
Proof.
  intros m e m'. unfold load. destruct (region m); [|discriminate].
  match goal with |- (if ?b then _ else _) = _ -> _ => destruct b end;
    discriminate.
Qed.

Lemma throws_only_load_uint P f p off n : throws_only P (load_uint f p off n).
Proof.
  unfold load_uint. apply throws_only_bind; [apply throws_only_load|].
  intro. apply throws_only_ret.
Qed.

Lemma throws_only_if {S A} P (b : bool) (c1 c2 : M S A) :
  throws_only P c1 -> throws_only P c2 -> throws_only P (if b then c1 else c2).
Proof. destruct b; auto. Qed.

Lemma throws_only_weaken {S A} (P Q : exception -> Prop) (c : M S A) :
  (forall e, P e -> Q e) -> throws_only P c -> throws_only Q c.
Proof. intros HPQ Hc s e s' H. apply HPQ. eapply Hc. exact H. Qed.

Lemma decode_error_intro msg : decode_error (AudioDecodeError msg).
Proof. exists msg. reflexivity. Qed.

Lemma throws_only_remap pf start new_start size :
  throws_only decode_error (remap pf start new_start size).
Proof.
  intros m e m'. unfold remap. destruct (map_view pf new_start size);
    intro H; inversion H. apply decode_error_intro.
Qed.

Ltac throws_with known :=
  repeat first
    [ known
    | apply throws_only_ret
    | apply throws_only_i64
    | apply throws_only_divide
    | apply throws_only_get_state
    | apply throws_only_load
    | apply throws_only_load_uint
    | apply throws_only_remap
    | apply throws_only_throw
    | apply throws_only_if
    | apply throws_only_bind
    | match goal with |- forall _, throws_only _ _ => intro end ].

Ltac throws := throws_with fail.

Lemma throws_only_EnsureRangeAccessible pf fsize start length :
  throws_only decode_error (EnsureRangeAccessible pf fsize start length).
Proof.
  unfold EnsureRangeAccessible, current_mapping.
  throws; try apply decode_error_intro.
  - destruct (region a0); throws.
    destruct (size_t_bits pf); throws.
  - destruct a0; throws.
    destruct (size_t_bits pf); throws.
Qed.

Lemma throws_only_riff_chunk pf f st :
  throws_only open_or_decode_error (RiffWav.chunk pf f st).
Proof.
  unfold RiffWav.chunk, RiffWav.fmt_chunk, RiffWav.data_chunk, RiffWav.CheckFourcc.
  assert (Hera : forall s l,
             throws_only open_or_decode_error
               (EnsureRangeAccessible pf (Z.of_nat (List.length f)) s l)).
  { intros. eapply throws_only_weaken; [|apply throws_only_EnsureRangeAccessible].
    intros e He. right. exact He. }
  throws_with ltac:(apply Hera); left; eexists; reflexivity.
Qed.

Lemma throws_only_wave64_chunk pf f st :
  throws_only open_or_decode_error (Wave64.chunk pf f st).
Proof.
  unfold Wave64.chunk, Wave64.fmt_chunk, Wave64.data_chunk, Wave64.CheckGuid.
  assert (Hera : forall s l,
             throws_only open_or_decode_error
               (EnsureRangeAccessible pf (Z.of_nat (List.length f)) s l)).
  { intros. eapply throws_only_weaken; [|apply throws_only_EnsureRangeAccessible].
    intros e He. right. exact He. }
  throws_with ltac:(apply Hera); left; eexists; reflexivity.
Qed.

Lemma while_throws {S St} (P : exception -> Prop) (cond : St -> bool)
  (body : St -> M S St) :
  (forall st, throws_only P (body st)) ->
  forall fuel st s e s',
    while fuel cond body st s = Some (Throw e, s') -> P e.
Proof.
  intros Hb. induction fuel as [|n IH]; intros st s e s' H; cbn in H.
  - destruct (cond st); discriminate.
  - destruct (cond st); [|discriminate].
    destruct (body st s) as [[st1 | e1 | u] s1] eqn:E.
    + eapply IH; exact H.
    + inversion H; subst. eapply Hb; exact E.
    + discriminate.
Qed.

(** ** Slices of byte lists *)

Lemma bytes_at_nil (l : list byte) off : bytes_at l off 0 = [].
Proof. reflexivity. Qed.

Lemma bytes_at_app_r (a b : list byte) off n :
  Z.of_nat (List.length a) <= off ->
  bytes_at (a ++ b) off n = bytes_at b (off - Z.of_nat (List.length a)) n.
Proof.
  intro H. unfold bytes_at. rewrite skipn_app.
  rewrite skipn_all2 by lia. cbn [app].
  do 2 f_equal. lia.
Qed.

Lemma bytes_at_app_l (a b : list byte) off n :
  0 <= off -> 0 <= n -> off + n <= Z.of_nat (List.length a) ->
  bytes_at (a ++ b) off n = bytes_at a off n.
Proof.
  intros Ho Hn H. unfold bytes_at. rewrite skipn_app, firstn_app.
  rewrite length_skipn.
  replace (Z.to_nat n - (List.length a - Z.to_nat off))%nat with 0%nat by lia.
  cbn [firstn]. apply app_nil_r.
Qed.

Lemma bytes_at_app_split (a b : list byte) off n1 n2 :
  0 <= off -> 0 <= n1 -> 0 <= n2 -> off + n1 = Z.of_nat (List.length a) ->
  bytes_at (a ++ b) off (n1 + n2) = bytes_at a off n1 ++ bytes_at b 0 n2.
Proof.
  intros Ho H1 H2 H. unfold bytes_at. rewrite skipn_app, firstn_app.
  rewrite length_skipn. f_equal.
  - rewrite !firstn_all2; [reflexivity | |]; rewrite length_skipn; lia.
  - replace (Z.to_nat off - List.length a)%nat with 0%nat by lia.
    cbn [skipn Z.to_nat]. f_equal. lia.
Qed.

Lemma bytes_at_bytes_at (f : list byte) o l off n :
  0 <= o -> 0 <= off -> 0 <= n -> off + n <= l ->
  bytes_at (bytes_at f o l) off n = bytes_at f (o + off) n.
Proof.
  intros Ho Hoff Hn H. unfold bytes_at.
  rewrite skipn_firstn_comm, firstn_firstn, skipn_skipn.
  f_equal; [lia | f_equal; lia].
Qed.

(** Overwriting [bs] at [buf] and then [bs'] right after it. *)
Lemma splice_splice (d bs bs' : list byte) buf n n' :
  0 <= buf -> Z.of_nat (List.length bs) = n -> 0 <= n' ->
  buf + n <= Z.of_nat (List.length d) ->
  let d1 := firstn (Z.to_nat buf) d ++ bs ++ skipn (Z.to_nat (buf + n)) d in
  firstn (Z.to_nat (buf + n)) d1 ++ bs' ++ skipn (Z.to_nat (buf + n + n')) d1
  = firstn (Z.to_nat buf) d ++ (bs ++ bs') ++ skipn (Z.to_nat (buf + (n + n'))) d.
Proof.
  intros Hb Hn Hn' Hlen d1. unfold d1.
  set (P := firstn (Z.to_nat buf) d).
  set (R := skipn (Z.to_nat (buf + n)) d).
  assert (Hl : List.length (P ++ bs) = Z.to_nat (buf + n)).
  { unfold P. rewrite length_app, length_firstn. lia. }
  assert (H1 : firstn (Z.to_nat (buf + n)) (P ++ bs ++ R) = P ++ bs).
  { rewrite app_assoc, <- Hl, firstn_app, firstn_all, Nat.sub_diag.
    cbn [firstn]. apply app_nil_r. }
  assert (H2 : skipn (Z.to_nat (buf + n + n')) (P ++ bs ++ R)
               = skipn (Z.to_nat (buf + (n + n'))) d).
  { rewrite app_assoc, skipn_app, Hl.
    rewrite skipn_all2 by lia. cbn [app]. unfold R.
    rewrite skipn_skipn. f_equal. lia. }
  rewrite H1, H2. rewrite <- !app_assoc. reflexivity.
Qed.

Lemma splice_nothing (d : list byte) buf :
  firstn (Z.to_nat buf) d ++ [] ++ skipn (Z.to_nat (buf + 0)) d = d.
Proof. rewrite Z.add_0_r. cbn [app]. apply firstn_skipn. Qed.

(** ** FillBuffer on a well-formed provider *)

Lemma with_mapper_step {A B} (c : M mapper A) (k : A -> M reader B) m d a m' :
  c m = (Return a, m') -> bind (with_mapper c) k (m, d) = k a (m', d).
Proof. intro H. unfold bind, with_mapper. cbn. rewrite H. reflexivity. Qed.

Lemma memcpy_copies (f : file) buf p n m d bs :
  load f p n m = (Return bs, m) ->
  0 <= buf -> buf + n <= Z.of_nat (List.length d) ->
  memcpy f buf p n (m, d)
  = (Return tt,
     (m, firstn (Z.to_nat buf) d ++ bs ++ skipn (Z.to_nat (buf + n)) d)).
Proof.
  intros Hload Hb Hn. unfold memcpy.
  rewrite (with_mapper_step _ _ _ _ _ _ Hload).
  cbn [fst snd]. rewrite !leb_true by lia. reflexivity.
Qed.

Lemma FillBuffer_from_done pf this ips buf start count s :
  count <= 0 -> FillBuffer_from pf this ips buf start count s = (Return tt, s).
Proof.
  intro H. destruct ips; cbn; [reflexivity|].
  rewrite gtb_false by lia. reflexivity.
Qed.

Lemma scaled_bounds a b c :
  0 <= a -> 0 < b -> 0 < c ->
  0 <= a * b /\ 0 <= a * b * c /\ a * b <= a * b * c.
Proof.
  intros Ha Hb Hc.
  assert (H : 0 <= a * b) by (apply Z.mul_nonneg_nonneg; lia).
  split; [exact H|]. split.
  - apply Z.mul_nonneg_nonneg; lia.
  - rewrite <- (Z.mul_1_r (a * b)) at 1. apply Z.mul_le_mono_nonneg_l; lia.
Qed.

Lemma scaled_sum x y n b c :
  0 < b -> 0 < c -> x + y <= n ->
  x * b * c + y * b * c <= n * (b * c).
Proof.
  intros Hb Hc H.
  replace (x * b * c + y * b * c) with ((x + y) * (b * c)) by ring.
  apply Z.mul_le_mono_nonneg_r; [|exact H].
  apply Z.mul_nonneg_nonneg; lia.
Qed.

Section Reading.

Variable pf : platform.
Variable this : PCMAudioProvider.

Let f : file := file_mapping this.
Let fs : Z := frame_size this.

Hypothesis Hsize : file_size this = Z.of_nat (List.length f).
Hypothesis Hmax : file_size this <= INT64_MAX.
Hypothesis Hbps : 0 < bytes_per_sample this.
Hypothesis Hch : 0 < channels this.
Hypothesis Hpf : dependable pf (file_size this).

Lemma size_t_small n : 0 <= n <= file_size this -> size_t pf n = n.
Proof.
  intro H. unfold size_t.
  assert (INT64_MAX = 2 ^ 63 - 1) by reflexivity.
  destruct (size_t_bits pf) eqn:E.
  - pose proof (proj2 Hpf E). apply uint_small. lia.
  - apply uint_small. lia.
Qed.

Lemma chunk_bytes_length ip :
  in_file this ip -> 0 <= IndexPoint.num_samples ip ->
  Z.of_nat (List.length (chunk_bytes this ip)) = IndexPoint.num_samples ip * fs.
Proof.
  intros [H0 H1] Hn. unfold chunk_bytes. apply bytes_at_length.
  - exact H0.
  - apply Z.mul_nonneg_nonneg; [exact Hn |].
    unfold frame_size. apply Z.mul_nonneg_nonneg; lia.
  - fold f. rewrite <- Hsize. exact H1.
Qed.

(** An index point that holds [start]: the frames up to its end, or
    [count] of them, are copied from
    [start_byte + (start - start_sample) * bytes_per_sample * channels]. *)
Lemma FillBuffer_block_found ip buf start count m d :
  in_file this ip ->
  0 <= IndexPoint.start_sample ip <= start ->
  start < IndexPoint.start_sample ip + IndexPoint.num_samples ip <= INT64_MAX ->
  0 < count <= INT64_MAX -> 0 <= buf -> mapper_wf (file_size this) m ->
  let can_do := Z.min count
                  (IndexPoint.start_sample ip + IndexPoint.num_samples ip - start) in
  buf + can_do * fs <= Z.of_nat (List.length d) ->
  exists m',
    mapper_wf (file_size this) m' /\
    FillBuffer_block pf this ip buf start count (m, d)
    = (Return (buf + can_do * fs, start + can_do, count - can_do),
       (m', firstn (Z.to_nat buf) d
            ++ bytes_at f (IndexPoint.start_byte ip
                           + (start - IndexPoint.start_sample ip) * fs)
                 (can_do * fs)
            ++ skipn (Z.to_nat (buf + can_do * fs)) d)).
Proof.
  intros [Hb0 Hb1] Hss Hend Hcount Hbuf Hwf can_do Hdest.
  set (ss := IndexPoint.start_sample ip) in *.
  set (num := IndexPoint.num_samples ip) in *.
  set (sb := IndexPoint.start_byte ip) in *.
  set (bps := bytes_per_sample this) in *.
  set (ch := channels this) in *.
  assert (Hfs : fs = bps * ch) by reflexivity.
  assert (Hmin : INT64_MIN = - 2 ^ 63) by reflexivity.
  assert (Hmx : INT64_MAX = 2 ^ 63 - 1) by reflexivity.
  assert (Hcd : 0 < can_do <= count /\ can_do <= ss + num - start)
    by (unfold can_do; lia).
  assert (Hnum : 0 < num) by lia.
  unfold frame_size in Hb1. fold bps ch in Hb1.
  pose proof (scaled_bounds (start - ss) bps ch ltac:(lia) Hbps Hch) as Hd.
  pose proof (scaled_bounds can_do bps ch ltac:(lia) Hbps Hch) as Hn.
  pose proof (scaled_sum (start - ss) can_do num bps ch Hbps Hch ltac:(lia)) as Hsum.
  unfold FillBuffer_block. fold ss num sb bps ch.
  rewrite leb_true by lia.
  rewrite (bind_step _ _ _ _ _
             (bind_i64 _ _ _ (is_int64_true (ss + num) ltac:(lia)))).
  unfold ret at 1. rewrite gtb_true by lia.
  rewrite bind_i64 by (apply is_int64_true; lia).
  rewrite bind_i64 by (apply is_int64_true; lia).
  replace (if num - start + ss >? count then count else num - start + ss)
    with can_do.
  2:{ unfold can_do. destruct (num - start + ss >? count) eqn:E.
      - rewrite Z.gtb_ltb in E. apply Z.ltb_lt in E. lia.
      - rewrite Z.gtb_ltb in E. apply Z.ltb_ge in E. lia. }
  rewrite bind_i64 by (apply is_int64_true; lia).
  rewrite bind_i64 by (apply is_int64_true; lia).
  rewrite bind_i64 by (apply is_int64_true; lia).
  rewrite bind_i64 by (apply is_int64_true; lia).
  rewrite bind_i64 by (apply is_int64_true; lia).
  rewrite bind_i64 by (apply is_int64_true; lia).
  destruct (EnsureRangeAccessible_serves pf f
              ltac:(fold f in Hsize; rewrite <- Hsize; exact Hpf)
              ltac:(fold f in Hsize; rewrite <- Hsize; exact Hmax)
              m (sb + (start - ss) * bps * ch) (can_do * bps * ch))
    as (p & m' & Hera & Hwf' & Hload & _);
    try (fold f in Hsize; rewrite <- Hsize); try lia; try assumption.
  fold f in Hsize. rewrite <- Hsize in Hera, Hwf'.
  rewrite (with_mapper_step _ _ _ _ _ _ Hera).
  rewrite size_t_small by lia.
  fold f.
  rewrite (bind_step _ _ _ _ _ (memcpy_copies f buf p _ m' d _ Hload Hbuf
                                  ltac:(rewrite Hfs in Hdest; lia))).
  rewrite bind_i64 by (apply is_int64_true; lia).
  rewrite bind_i64 by (apply is_int64_true; lia).
  exists m'. split; [exact Hwf'|].
  unfold ret. rewrite Hfs.
  replace (can_do * (bps * ch)) with (can_do * bps * ch) by ring.
  replace ((start - ss) * (bps * ch)) with ((start - ss) * bps * ch) by ring.
  reflexivity.
Qed.

(** An index point that ends at or before [start] is passed over. *)
Lemma FillBuffer_block_passed ip buf start count s :
  0 <= IndexPoint.start_sample ip ->
  0 <= IndexPoint.num_samples ip ->
  IndexPoint.start_sample ip + IndexPoint.num_samples ip <= start ->
  start <= INT64_MAX ->
  FillBuffer_block pf this ip buf start count s = (Return (buf, start, count), s).
Proof.
  intros Hss Hnum Hend Hstart.
  assert (Hmin : INT64_MIN = - 2 ^ 63) by reflexivity.
  unfold FillBuffer_block.
  rewrite leb_true by lia.
  rewrite (bind_step _ _ _ _ _
             (bind_i64 _ _ _
                (is_int64_true
                   (IndexPoint.start_sample ip + IndexPoint.num_samples ip)
                   ltac:(lia)))).
  unfold ret at 1. rewrite gtb_false by lia. reflexivity.
Qed.


Lemma total_samples_nonneg ips :
  Forall (fun ip => 0 <= IndexPoint.num_samples ip) ips -> 0 <= total_samples ips.
Proof.
  induction 1 as [|ip rest H _ IH]; cbn; lia.
Qed.

Lemma spliced_length (d bs : list byte) buf :
  0 <= buf ->
  buf + Z.of_nat (List.length bs) <= Z.of_nat (List.length d) ->
  List.length (firstn (Z.to_nat buf) d ++ bs
               ++ skipn (Z.to_nat (buf + Z.of_nat (List.length bs))) d)
  = List.length d.
Proof.
  intros. rewrite !length_app, length_firstn, length_skipn. lia.
Qed.

(** The loop over a contiguous run of index points that starts at or
    before [start]: the frames of [start, start + count) that the run
    holds are copied, in order, to [buf] on; the rest of the destination
    is left as it was. *)
Lemma FillBuffer_from_copies :
  forall ips first buf start count m d,
    contiguous_from first ips ->
    Forall (fun ip => 0 <= IndexPoint.num_samples ip) ips ->
    Forall (in_file this) ips ->
    0 <= first <= start -> start <= INT64_MAX ->
    first + total_samples ips <= INT64_MAX ->
    count <= INT64_MAX -> 0 <= buf ->
    mapper_wf (file_size this) m ->
    let k := Z.max 0 (Z.min count (first + total_samples ips - start)) in
    buf + k * fs <= Z.of_nat (List.length d) ->
    exists m',
      mapper_wf (file_size this) m' /\
      FillBuffer_from pf this ips buf start count (m, d)
      = (Return tt,
         (m', firstn (Z.to_nat buf) d
              ++ bytes_at (sample_stream this ips) ((start - first) * fs) (k * fs)
              ++ skipn (Z.to_nat (buf + k * fs)) d)).
Proof.
  assert (Hfs : 0 < fs) by (unfold fs, frame_size; apply Z.mul_pos_pos; assumption).
  induction ips as [|ip rest IH];
    intros first buf start count m d Hcont Hnn Hin Hfirst Hstart Htot Hcount
           Hbuf Hwf k Hdest.
  - exists m. split; [exact Hwf|]. cbn [FillBuffer_from ret].
    assert (k = 0) by (unfold k; cbn [total_samples]; lia).
    subst k. rewrite H. rewrite Z.mul_0_l, bytes_at_nil, splice_nothing.
    reflexivity.
  - cbn [total_samples] in *.
    destruct Hcont as [Hss Hcont].
    pose proof (Forall_inv Hnn) as Hnum. pose proof (Forall_inv_tail Hnn) as Hnn'.
    pose proof (Forall_inv Hin) as Hip. pose proof (Forall_inv_tail Hin) as Hin'.
    cbv beta in Hnum.
    pose proof (total_samples_nonneg rest Hnn') as Hrest.
    set (num := IndexPoint.num_samples ip) in *.
    pose proof (chunk_bytes_length ip Hip Hnum) as Hlen. fold num in Hlen.
    cbn [FillBuffer_from].
    destruct (Z_le_gt_dec count 0) as [Hc0 | Hc0].
    { rewrite gtb_false by lia.
      exists m. split; [exact Hwf|].
      assert (k = 0) by (unfold k; lia).
      rewrite H. rewrite Z.mul_0_l, bytes_at_nil, splice_nothing. reflexivity. }
    rewrite gtb_true by lia.
    destruct (Z_le_gt_dec (first + num) start) as [Hpassed | Hheld].
    + (* the point ends before [start] *)
      rewrite (bind_step _ _ _ _ _
                 (FillBuffer_block_passed ip buf start count (m, d)
                    ltac:(lia) Hnum ltac:(fold num; lia) Hstart)).
      destruct (IH (first + num) buf start count m d Hcont Hnn' Hin'
                  ltac:(lia) Hstart ltac:(lia) Hcount Hbuf Hwf) as (m' & Hwf' & Hrun).
      { replace (first + num + total_samples rest - start)
          with (first + (num + total_samples rest) - start) by ring.
        exact Hdest. }
      exists m'. split; [exact Hwf'|]. rewrite Hrun.
      replace (first + num + total_samples rest - start)
        with (first + (num + total_samples rest) - start) by ring.
      fold k. cbn [sample_stream flat_map].
      rewrite bytes_at_app_r by (rewrite Hlen; nia).
      rewrite Hlen.
      replace ((start - first) * fs - num * fs) with ((start - (first + num)) * fs)
        by ring.
      reflexivity.
    + (* the point holds [start] *)
      set (can_do := Z.min count (first + num - start)).
      assert (Hk : can_do <= k) by (unfold can_do, k; lia).
      assert (Hcd : 0 < can_do) by (unfold can_do; lia).
      destruct (FillBuffer_block_found ip buf start count m d Hip
                  ltac:(lia) ltac:(fold num; lia) ltac:(lia) Hbuf Hwf)
        as (m1 & Hwf1 & Hblock).
      { rewrite Hss. fold num can_do.
        assert (can_do * fs <= k * fs) by (apply Z.mul_le_mono_nonneg_r; lia).
        lia. }
      rewrite Hss in Hblock. fold num can_do in Hblock.
      rewrite (bind_step _ _ _ _ _ Hblock).
      set (bs := bytes_at f (IndexPoint.start_byte ip + (start - first) * fs)
                   (can_do * fs)) in *.
      assert (Hbs : Z.of_nat (List.length bs) = can_do * fs).
      { unfold bs. destruct Hip as [Hip0 Hip1]. apply bytes_at_length.
        - apply Z.add_nonneg_nonneg; [exact Hip0 | nia].
        - nia.
        - fold f in Hsize. rewrite <- Hsize. fold num fs in Hip1.
          unfold can_do. nia. }
      assert (Hchunk : bytes_at (chunk_bytes this ip) ((start - first) * fs)
                         (can_do * fs) = bs).
      { unfold chunk_bytes, bs. fold f num fs.
        destruct Hip as [Hip0 Hip1].
        apply bytes_at_bytes_at; unfold can_do; nia. }
      destruct (Z_le_gt_dec count (first + num - start)) as [Hshort | Hlong].
      * (* [count] is used up inside the point *)
        assert (Hcan : can_do = count) by (unfold can_do; lia).
        rewrite FillBuffer_from_done by lia.
        exists m1. split; [exact Hwf1|].
        assert (Hkc : k = count) by (unfold k; lia).
        rewrite Hkc. rewrite Hcan in *.
        cbn [sample_stream flat_map].
        rewrite bytes_at_app_l by (rewrite ?Hlen; nia).
        rewrite Hchunk. reflexivity.
      * (* the frames up to the end of the point, then the rest *)
        assert (Hcan : can_do = first + num - start) by (unfold can_do; lia).
        set (k' := Z.max 0 (Z.min (count - can_do)
                              (first + num + total_samples rest - (start + can_do)))).
        assert (Hkk : k = can_do + k') by (unfold k, k'; lia).
        set (d1 := firstn (Z.to_nat buf) d ++ bs
                   ++ skipn (Z.to_nat (buf + can_do * fs)) d) in *.
        assert (Hd1 : List.length d1 = List.length d).
        { unfold d1. rewrite <- Hbs. apply spliced_length; [exact Hbuf|].
          rewrite Hbs.
          assert (can_do * fs <= k * fs) by (apply Z.mul_le_mono_nonneg_r; lia).
          lia. }
        destruct (IH (first + num) (buf + can_do * fs) (start + can_do)
                    (count - can_do) m1 d1 Hcont Hnn' Hin'
                    ltac:(lia) ltac:(lia) ltac:(lia) ltac:(lia) ltac:(nia) Hwf1)
          as (m' & Hwf' & Hrun).
        { fold k'. rewrite Hd1. rewrite Hkk in Hdest. lia. }
        exists m'. split; [exact Hwf'|]. rewrite Hrun. fold k'.
        replace (start + can_do - (first + num)) with 0 by lia.
        rewrite Z.mul_0_l.
        unfold d1.
        rewrite (splice_splice d bs _ buf (can_do * fs) (k' * fs) Hbuf Hbs
                   ltac:(unfold k'; nia)
                   ltac:(rewrite Hkk in Hdest; nia)).
        rewrite Hkk.
        replace ((can_do + k') * fs) with (can_do * fs + k' * fs) by ring.
        cbn [sample_stream flat_map].
        rewrite bytes_at_app_split;
          [rewrite Hchunk; reflexivity | nia | nia | unfold k'; nia
          | rewrite Hlen, Hcan; ring].
Qed.

End Reading.

Lemma sample_stream_length this ips :
  0 < bytes_per_sample this -> 0 < channels this ->
  file_size this = Z.of_nat (List.length (file_mapping this)) ->
  Forall (fun ip => 0 <= IndexPoint.num_samples ip) ips ->
  Forall (in_file this) ips ->
  Z.of_nat (List.length (sample_stream this ips))
  = total_samples ips * frame_size this.
Proof.
  intros Hbps Hch Hsize Hnn Hin.
  induction ips as [|ip rest IH]; [reflexivity|].
  cbn [sample_stream flat_map total_samples].
  rewrite length_app, Nat2Z.inj_add.
  unfold sample_stream in IH.
  rewrite (IH (Forall_inv_tail Hnn) (Forall_inv_tail Hin)).
  rewrite (chunk_bytes_length this Hsize Hbps Hch ip
             (Forall_inv Hin) (Forall_inv Hnn)).
  ring.
Qed.


(** ** What a chunk does to the object *)

Lemma while_invariant {S St} (cond : St -> bool) (body : St -> M S St)
  (P : St -> Prop) :
  (forall st s st' s', P st -> cond st = true ->
                       body st s = (Return st', s') -> P st') ->
  forall fuel st s st' s',
    P st -> while fuel cond body st s = Some (Return st', s') ->
    P st' /\ cond st' = false.
Proof.
  intros Hstep. induction fuel as [|n IH]; intros st s st' s' HP H; cbn in H.
  - destruct (cond st) eqn:E; [discriminate|]. inversion H; subst. auto.
  - destruct (cond st) eqn:E.
    + destruct (body st s) as [[st1 | e | u] s1] eqn:Hb; try discriminate.
      eapply IH; [|exact H]. eapply Hstep; eassumption.
    + inversion H; subst. auto.
Qed.

Lemma construct_invariant {St A} (init : M mapper St) cond body (result : St -> A)
  (P : St -> Prop) :
  (forall st m, init unmapped = (Return st, m) -> P st) ->
  (forall st s st' s', P st -> cond st = true ->
                       body st s = (Return st', s') -> P st') ->
  forall fuel a m,
    construct fuel init cond body result = Some (Return a, m) ->
    exists st, a = result st /\ P st /\ cond st = false.
Proof.
  intros Hinit Hstep fuel a m H. unfold construct in H.
  destruct (init unmapped) as [[st0 | e | u] m0]; try discriminate.
  specialize (Hinit st0 m0 eq_refl).
  destruct (while fuel cond body st0 m0) as [[[st1 | e | u] m1]|] eqn:Hw;
    try discriminate.
  inversion H; subst.
  destruct (while_invariant cond body P Hstep _ _ _ _ _ Hinit Hw).
  exists st1. auto.
Qed.

Lemma le_nonneg bs : 0 <= le bs.
Proof.
  induction bs as [|b bs IH]; cbn [le]; [lia|].
  unfold byte_val. lia.
Qed.

Lemma load_uint_nonneg f p off n m v m' :
  load_uint f p off n m = (Return v, m') -> 0 <= v.
Proof.
  unfold load_uint. intro H. apply bind_Return in H.
  destruct H as (bs & m1 & _ & H). inversion H. apply le_nonneg.
Qed.

Lemma divide_inv {S} a b (s : S) q s' :
  divide a b s = (Return q, s') -> q = Z.quot a b /\ b <> 0 /\ s' = s.
Proof.
  unfold divide. destruct (b =? 0) eqn:E; cbn; intro H; inversion H.
  apply Z.eqb_neq in E. auto.
Qed.


Lemma riff_chunk_effect pf f st m st' m' :
  RiffWav.chunk pf f st m = (Return st', m') ->
  chunk_effect riff_frames st st'.
Proof.
  unfold RiffWav.chunk. intro H. invert_run H.
  apply ret_inv in H. destruct H as [-> ->]. cbn [got_fmt_header object].
  destruct v0.
  - (* fmt *)
    unfold RiffWav.fmt_chunk in Hrun1.
    destruct (got_fmt_header st) eqn:Hgot; [discriminate|].
    invert_run Hrun1.
    destruct (negb (v3 =? 1)); [discriminate|].
    invert_run Hrun1. apply ret_inv in Hrun1. destruct Hrun1 as [-> ->].
    eapply format_set; [exact Hgot | reflexivity | | | reflexivity].
    + eapply load_uint_nonneg; eassumption.
    + apply Z.div_pos; [|lia]. apply load_uint_nonneg in Hrun7. lia.
  - invert_run Hrun1. destruct v0.
    + (* data *)
      unfold RiffWav.data_chunk in Hrun1.
      destruct (got_fmt_header st) eqn:Hgot; [|discriminate]. cbn [negb] in Hrun1.
      invert_run Hrun1. apply ret_inv in Hrun1. destruct Hrun1 as [-> ->].
      apply divide_inv in Hrun5, Hrun6.
      destruct Hrun5 as (-> & Hb & ->). destruct Hrun6 as (-> & Hc & ->).
      apply i64_inv in Hrun7. destruct Hrun7 as (-> & -> & Hfit).
      cbn [fst snd].
      match goal with
      | |- context [push_back _ ?ip _] =>
          apply (point_added _ _ _ ip);
          [exact Hgot | reflexivity | | | | reflexivity]
      end;
        cbn [IndexPoint.start_sample IndexPoint.num_samples].
      * reflexivity.
      * exact Hfit.
      * exists v0. cbn [IndexPoint.num_samples]. repeat split; try assumption.
        eapply load_uint_nonneg; eassumption.
    + apply ret_inv in Hrun1. destruct Hrun1 as [-> ->].
      apply skipped; reflexivity.
Qed.

Lemma wave64_chunk_effect pf f st m st' m' :
  Wave64.chunk pf f st m = (Return st', m') ->
  chunk_effect wave64_frames st st'.
Proof.
  unfold Wave64.chunk. intro H. invert_run H.
  apply ret_inv in H. destruct H as [-> ->]. cbn [got_fmt_header object].
  match goal with
  | H : (if ?b then _ else _) _ = (Return ?seen, _) |- _ =>
      destruct b; rename H into Hseen
  end.
  - (* fmt *)
    unfold Wave64.fmt_chunk in Hseen.
    destruct (got_fmt_header st) eqn:Hgot; [discriminate|].
    invert_run Hseen.
    repeat match type of Hseen with
           | (if ?b then _ else _) _ = _ => destruct b; [discriminate|]
           end.
    invert_run Hseen. apply ret_inv in Hseen. destruct Hseen as [-> ->].
    eapply format_set; [exact Hgot | reflexivity | | | reflexivity].
    + eapply load_uint_nonneg; eassumption.
    + apply Z.div_pos; [|lia].
      match goal with
      | H : load_uint _ _ 38 2 _ = _ |- _ => apply load_uint_nonneg in H
      end. lia.
  - invert_run Hseen.
    match type of Hseen with
    | (if ?b then _ else _) _ = _ => destruct b
    end.
    + (* data *)
      unfold Wave64.data_chunk in Hseen.
      destruct (got_fmt_header st) eqn:Hgot; [|discriminate]. cbn [negb] in Hseen.
      invert_run Hseen. apply ret_inv in Hseen. destruct Hseen as [-> ->].
      repeat match goal with
             | H : divide _ _ _ = _ |- _ =>
                 apply divide_inv in H; destruct H as (-> & ? & ->)
             | H : i64 _ _ = _ |- _ =>
                 apply i64_inv in H; destruct H as (-> & -> & ?)
             end.
      cbn [fst snd].
      match goal with
      | |- context [push_back _ ?ip _] =>
          apply (point_added _ _ _ ip);
          [exact Hgot | reflexivity | | | | reflexivity]
      end;
        cbn [IndexPoint.start_sample IndexPoint.num_samples].
      * reflexivity.
      * assumption.
      * match goal with
        | H : load_uint _ _ 0 8 _ = (Return ?size, _) |- _ =>
            exists size; apply load_uint_nonneg in H
        end.
        cbn [IndexPoint.num_samples]. repeat split; assumption.
    + apply ret_inv in Hseen. destruct Hseen as [-> ->].
      apply skipped; reflexivity.
Qed.

(** ** The index the walks build *)

Lemma total_samples_snoc l ip :
  total_samples (l ++ [ip]) = total_samples l + IndexPoint.num_samples ip.
Proof. induction l as [|x l IH]; cbn [app total_samples]; lia. Qed.

Lemma contiguous_from_snoc l : forall first ip,
  contiguous_from first l ->
  IndexPoint.start_sample ip = first + total_samples l ->
  contiguous_from first (l ++ [ip]).
Proof.
  induction l as [|x l IH]; intros first ip Hc Hs; cbn [app contiguous_from total_samples] in *.
  - split; [lia | exact I].
  - destruct Hc as [Hx Hc]. split; [exact Hx|]. apply IH; [exact Hc | lia].
Qed.

Lemma contiguous_nth l : forall first k ip,
  contiguous_from first l -> nth_error l k = Some ip ->
  IndexPoint.start_sample ip = first + total_samples (firstn k l).
Proof.
  induction l as [|x l IH]; intros first k ip Hc Hk.
  - destruct k; discriminate Hk.
  - destruct Hc as [Hx Hc]. destruct k as [|k]; cbn in Hk.
    + inversion Hk; subst. cbn. lia.
    + cbn [firstn total_samples]. rewrite (IH _ _ _ Hc Hk). lia.
Qed.

Lemma ordered_from_weaken l low low' :
  low' <= low -> ordered_from low l -> ordered_from low' l.
Proof. destruct l; cbn; [auto|]. intros ? [? ?]. split; [lia | assumption]. Qed.

Lemma contiguous_ordered l : forall first,
  contiguous_from first l ->
  Forall (fun ip => 0 <= IndexPoint.num_samples ip) l ->
  ordered_from first l.
Proof.
  induction l as [|x l IH]; intros first Hc Hn; cbn in *; [exact I|].
  destruct Hc as [Hx Hc]. split; [lia|].
  apply ordered_from_weaken with (low := first + IndexPoint.num_samples x).
  - pose proof (Forall_inv Hn). cbv beta in *. lia.
  - apply IH; [exact Hc | exact (Forall_inv_tail Hn)].
Qed.

Lemma new_provider_sums f : index_sums (PCMAudioProvider_new f).
Proof. constructor; cbn; [exact I | reflexivity]. Qed.

Lemma new_provider_nonneg f : counts_nonneg (PCMAudioProvider_new f).
Proof. constructor; cbn; [lia | lia | constructor]. Qed.

Lemma effect_keeps_sums frames_of st st' :
  chunk_effect frames_of st st' ->
  index_sums (object st) -> index_sums (object st').
Proof.
  intros [Ho _ | r c b _ _ _ _ Ho | ip _ _ Hs _ _ Ho] [Hc Ht]; rewrite Ho.
  - constructor; assumption.
  - constructor; assumption.
  - constructor; cbn [push_back index_points num_samples].
    + apply contiguous_from_snoc; [exact Hc | lia].
    + rewrite total_samples_snoc. lia.
Qed.

Lemma riff_effect_keeps_nonneg st st' :
  chunk_effect riff_frames st st' ->
  counts_nonneg (object st) -> counts_nonneg (object st').
Proof.
  intros [Ho _ | r c b _ _ Hc0 Hb0 Ho | ip _ _ _ _ Hf Ho] [Hb Hc Hn]; rewrite Ho.
  - constructor; assumption.
  - constructor; cbn; assumption.
  - constructor; cbn [push_back bytes_per_sample channels index_points];
      try assumption.
    apply Forall_app. split; [exact Hn|]. constructor; [|constructor].
    destruct Hf as (size & Hs & Hb' & Hc' & ->).
    apply Z.quot_pos; [|lia]. apply Z.quot_pos; lia.
Qed.

Lemma riff_open_object pf f st m :
  RiffWav.open pf f unmapped = (Return st, m) ->
  object st = PCMAudioProvider_new f.
Proof.
  unfold RiffWav.open. intro H. invert_run H.
  repeat match type of H with
         | (if ?b then _ else _) _ = _ => destruct b; [discriminate|]
         | _ => progress invert_run H
         end.
  apply ret_inv in H. destruct H as [-> _]. reflexivity.
Qed.

Lemma wave64_open_object pf f st m :
  Wave64.open pf f unmapped = (Return st, m) ->
  object st = PCMAudioProvider_new f.
Proof.
  unfold Wave64.open. intro H.
  repeat match type of H with
         | (if ?b then _ else _) _ = _ => destruct b; [discriminate|]
         | _ => progress invert_run H
         end.
  apply ret_inv in H. destruct H as [-> _]. reflexivity.
Qed.

(** Every file the RIFF WAV parser accepts has a gapless index in order of
    start_sample: each point starts at the sum of the counts before it and
    num_samples is the sum of all counts. *)
Lemma riff_index_gapless pf f fuel this m :
  RiffWav.RiffWavPCMAudioProvider pf f fuel = Some (Return this, m) ->
  ordered_from 0 (index_points this) /\
  (forall k ip, nth_error (index_points this) k = Some ip ->
                IndexPoint.start_sample ip
                = total_samples (firstn k (index_points this))) /\
  num_samples this = total_samples (index_points this).
Proof.
  intro H. unfold RiffWav.RiffWavPCMAudioProvider in H.
  apply (construct_invariant _ _ _ _
           (fun st => index_sums (object st) /\ counts_nonneg (object st))) in H.
  - destruct H as (st & -> & ([Hc Ht] & [_ _ Hn]) & _).
    split; [apply contiguous_ordered; assumption|].
    split; [|exact Ht].
    intros k ip Hk. rewrite (contiguous_nth _ _ _ _ Hc Hk). lia.
  - intros st m0 Ho. rewrite (riff_open_object _ _ _ _ Ho).
    split; [apply new_provider_sums | apply new_provider_nonneg].
  - intros st s st' s' [Hs Hn] _ Hb. apply riff_chunk_effect in Hb.
    split; [eapply effect_keeps_sums | eapply riff_effect_keeps_nonneg]; eassumption.
Qed.

(** Every file the Wave64 parser accepts has an index in which each point
    starts at the sum of the counts before it, and num_samples is the sum
    of all counts. *)
Lemma wave64_index_sums pf f fuel this m :
  Wave64.Wave64AudioProvider pf f fuel = Some (Return this, m) ->
  (forall k ip, nth_error (index_points this) k = Some ip ->
                IndexPoint.start_sample ip
                = total_samples (firstn k (index_points this))) /\
  num_samples this = total_samples (index_points this).
Proof.
  intro H. unfold Wave64.Wave64AudioProvider in H.
  apply (construct_invariant _ _ _ _ (fun st => index_sums (object st))) in H.
  - destruct H as (st & -> & [Hc Ht] & _).
    split; [|exact Ht].
    intros k ip Hk. rewrite (contiguous_nth _ _ _ _ Hc Hk). lia.
  - intros st m0 Ho. rewrite (wave64_open_object _ _ _ _ Ho).
    apply new_provider_sums.
  - intros st s st' s' Hs _ Hb. apply wave64_chunk_effect in Hb.
    eapply effect_keeps_sums; eassumption.
Qed.

(** ** Signatures and the errors of the parsers *)

Lemma load_cases f p off n m r start :
  region m = Some r -> serial r = ptr_serial p ->
  get_offset r + ptr_offset p = start ->
  load f (ptr_add p off) n m = (Return (bytes_at f (start + off) n), m) \/
  exists u, load f (ptr_add p off) n m = (Undefined u, m).
Proof.
  intros Hr Hs Hp.
  destruct (load f (ptr_add p off) n m) as [[bs | e | u] m'] eqn:E.
  - destruct (field_at _ _ _ _ _ _ _ _ _ Hr Hs Hp E) as [-> ->]. left. reflexivity.
  - exfalso. exact (throws_only_load (fun _ => False) _ _ _ _ _ _ E).
  - right. exists u. unfold load in *. rewrite Hr in *.
    match type of E with (if ?b then _ else _) = _ => destruct b end;
      inversion E; reflexivity.
Qed.

Lemma riff_open_cases pf f :
  match RiffWav.open pf f unmapped with
  | (Return st, m) => riff_signature f = true /\ mapper_sync m
  | (Throw (AudioDataNotFoundError _), _) => riff_signature f = false
  | (Throw (AudioProviderOpenError _), _) => False
  | (Throw (AudioDecodeError _), _) => True
  | (Undefined _, _) => True
  end.
Proof.
  unfold RiffWav.open. unfold bind at 1.
  destruct (EnsureRangeAccessible pf (Z.of_nat (List.length f)) 0
              RiffWav.sizeof_RIFFChunk unmapped) as [[p | e | u] m] eqn:E.
  2:{ apply throws_only_EnsureRangeAccessible in E. destruct E as [msg ->]. exact I. }
  2:{ exact I. }
  apply EnsureRangeAccessible_returns in E; [|exact I].
  destruct E as (Hsync & _ & r & Hr & Hs & Hp).
  unfold RiffWav.CheckFourcc, load_uint, riff_signature.
  unfold bind at 1. unfold bind at 1.
  destruct (load_cases f p 0 4 m r 0 Hr Hs Hp) as [-> | [u ->]]; [|exact I].
  unfold ret at 1. cbn [Z.add].
  destruct (bytes_eqb (bytes_at f 0 4) (chars "RIFF")); cbn [negb andb];
    [|reflexivity].
  unfold bind at 1. unfold bind at 1.
  destruct (load_cases f p 8 4 m r 0 Hr Hs Hp) as [-> | [u ->]]; [|exact I].
  unfold ret at 1. cbn [Z.add].
  destruct (bytes_eqb (bytes_at f 8 4) (chars "WAVE")); cbn [negb];
    [|reflexivity].
  unfold bind at 1. unfold bind at 1.
  destruct (load_cases f p 4 4 m r 0 Hr Hs Hp) as [-> | [u ->]]; [|exact I].
  unfold ret. split; [reflexivity | exact Hsync].
Qed.

Lemma wave64_open_cases pf f :
  match Wave64.open pf f unmapped with
  | (Return st, m) => wave64_signature f = true /\ mapper_sync m
  | (Throw (AudioDataNotFoundError _), _) =>
      wave64_signature f = false \/
      Z.of_nat (List.length f) < Wave64.smallest_possible_file pf
  | (Throw (AudioProviderOpenError _), _) => False
  | (Throw (AudioDecodeError _), _) => True
  | (Undefined _, _) => True
  end.
Proof.
  unfold Wave64.open.
  destruct (Z.of_nat (List.length f) <? Wave64.smallest_possible_file pf) eqn:Hsmall.
  { right. apply Z.ltb_lt. exact Hsmall. }
  unfold bind at 1.
  destruct (EnsureRangeAccessible pf (Z.of_nat (List.length f)) 0
              Wave64.sizeof_RiffChunk unmapped) as [[p | e | u] m] eqn:E.
  2:{ apply throws_only_EnsureRangeAccessible in E. destruct E as [msg ->]. exact I. }
  2:{ exact I. }
  apply EnsureRangeAccessible_returns in E; [|exact I].
  destruct E as (Hsync & _ & r & Hr & Hs & Hp).
  unfold Wave64.CheckGuid, load_uint, wave64_signature.
  unfold bind at 1. unfold bind at 1.
  pose proof (load_cases f p 0 16 m r 0 Hr Hs Hp) as H0.
  replace (ptr_add p 0) with p in H0
    by (destruct p; unfold ptr_add; cbn; f_equal; lia).
  destruct H0 as [-> | [u ->]]; [|exact I].
  unfold ret at 1. cbn [Z.add].
  destruct (bytes_eqb (bytes_at f 0 16) Wave64.w64GuidRIFF); cbn [negb andb];
    [|left; reflexivity].
  unfold bind at 1. unfold bind at 1.
  destruct (load_cases f p 24 16 m r 0 Hr Hs Hp) as [-> | [u ->]]; [|exact I].
  unfold ret at 1. cbn [Z.add].
  destruct (bytes_eqb (bytes_at f 24 16) Wave64.w64GuidWAVE); cbn [negb];
    [|left; reflexivity].
  unfold bind at 1. unfold bind at 1.
  destruct (load_cases f p 16 8 m r 0 Hr Hs Hp) as [-> | [u ->]]; [|exact I].
  unfold ret. split; [reflexivity | exact Hsync].
Qed.

(** The error of a constructor tells whether the signature matched. *)
Lemma riff_error_signature pf f fuel e m :
  RiffWav.RiffWavPCMAudioProvider pf f fuel = Some (Throw e, m) ->
  match e with
  | AudioDataNotFoundError _ => riff_signature f = false
  | AudioProviderOpenError _ => riff_signature f = true
  | AudioDecodeError _ => True
  end.
Proof.
  unfold RiffWav.RiffWavPCMAudioProvider, construct.
  pose proof (riff_open_cases pf f) as Ho.
  destruct (RiffWav.open pf f unmapped) as [[st | e0 | u] m0].
  - destruct (while fuel more_data (RiffWav.chunk pf f) st m0)
      as [[[st1 | e1 | u] m1]|] eqn:Hw; try discriminate.
    intro H. inversion H; subst.
    apply (while_throws open_or_decode_error) in Hw;
      [|apply throws_only_riff_chunk].
    destruct Hw as [[msg ->] | [msg ->]]; [tauto | exact I].
  - intro H. inversion H; subst. destruct e; tauto.
  - discriminate.
Qed.

Lemma wave64_error_signature pf f fuel e m :
  Wave64.Wave64AudioProvider pf f fuel = Some (Throw e, m) ->
  match e with
  | AudioDataNotFoundError _ =>
      wave64_signature f = false \/
      Z.of_nat (List.length f) < Wave64.smallest_possible_file pf
  | AudioProviderOpenError _ => wave64_signature f = true
  | AudioDecodeError _ => True
  end.
Proof.
  unfold Wave64.Wave64AudioProvider, construct.
  pose proof (wave64_open_cases pf f) as Ho.
  destruct (Wave64.open pf f unmapped) as [[st | e0 | u] m0].
  - destruct (while fuel more_data (Wave64.chunk pf f) st m0)
      as [[[st1 | e1 | u] m1]|] eqn:Hw; try discriminate.
    intro H. inversion H; subst.
    apply (while_throws open_or_decode_error) in Hw;
      [|apply throws_only_wave64_chunk].
    destruct Hw as [[msg ->] | [msg ->]]; [tauto | exact I].
  - intro H. inversion H; subst. destruct e; tauto.
  - discriminate.
Qed.

(** ** RIFF WAV index points *)

Lemma while_invariant_state {S St} (cond : St -> bool) (body : St -> M S St)
  (P : St -> S -> Prop) :
  (forall st s st' s', P st s -> cond st = true ->
                       body st s = (Return st', s') -> P st' s') ->
  forall fuel st s st' s',
    P st s -> while fuel cond body st s = Some (Return st', s') -> P st' s'.
Proof.
  intros Hstep. induction fuel as [|n IH]; intros st s st' s' HP H; cbn in H.
  - destruct (cond st) eqn:E; [discriminate|]. inversion H; subst. exact HP.
  - destruct (cond st) eqn:E.
    + destruct (body st s) as [[st1 | e | u] s1] eqn:Hb; try discriminate.
      eapply IH; [|exact H]. eapply Hstep; eassumption.
    + inversion H; subst. exact HP.
Qed.

Lemma bytes_eqb_eq a b : bytes_eqb a b = true -> a = b.
Proof.
  revert b. induction a as [|x a IH]; intros [|y b] H; cbn in H;
    try discriminate; [reflexivity|].
  apply andb_prop in H. destruct H as [H1 H2].
  apply byte_dec_bl in H1. subst. f_equal. apply IH. exact H2.
Qed.

Lemma riff_point_same_format f this this' ip :
  bytes_per_sample this' = bytes_per_sample this ->
  channels this' = channels this ->
  riff_point f this ip -> riff_point f this' ip.
Proof.
  intros Hb Hc (pos & H1 & H2 & H3). exists pos. rewrite Hb, Hc. auto.
Qed.

Lemma CheckFourcc_inv f p off s m b m' r start :
  region m = Some r -> serial r = ptr_serial p ->
  get_offset r + ptr_offset p = start ->
  RiffWav.CheckFourcc f p off s m = (Return b, m') ->
  m' = m /\ b = bytes_eqb (bytes_at f (start + off) 4) (chars s).
Proof.
  intros Hr Hs Hp H. unfold RiffWav.CheckFourcc in H. invert_run H.
  destruct (field_at _ _ _ _ _ _ _ _ _ Hr Hs Hp Hrun) as [-> ->].
  apply ret_inv in H. destruct H as [-> ->]. auto.
Qed.

Lemma load_uint_inv f p off n m v m' r start :
  region m = Some r -> serial r = ptr_serial p ->
  get_offset r + ptr_offset p = start ->
  load_uint f p off n m = (Return v, m') ->
  m' = m /\ v = le (bytes_at f (start + off) n).
Proof.
  intros Hr Hs Hp H. unfold load_uint in H. invert_run H.
  destruct (field_at _ _ _ _ _ _ _ _ _ Hr Hs Hp Hrun) as [-> ->].
  apply ret_inv in H. destruct H as [-> ->]. auto.
Qed.

Lemma riff_chunk_keeps_points pf f st m st' m' :
  riff_walk_inv f st m ->
  RiffWav.chunk pf f st m = (Return st', m') ->
  riff_walk_inv f st' m'.
Proof.
  intros [Hsync Hfirst Hpoints] H.
  unfold RiffWav.chunk in H. invert_run H.
  apply ret_inv in H. destruct H as [-> ->]. cbn [got_fmt_header object].
  apply EnsureRangeAccessible_returns in Hrun; [|exact Hsync].
  destruct Hrun as (Hsync0 & _ & r & Hr & Hs & Hp).
  destruct (CheckFourcc_inv _ _ _ _ _ _ _ _ _ Hr Hs Hp Hrun0) as [-> ->].
  match goal with
  | H : (if ?b then _ else _) _ = (Return ?seen, _) |- _ =>
      destruct b eqn:Hfmt; rename H into Hseen
  end.
  - (* fmt *)
    unfold RiffWav.fmt_chunk in Hseen.
    destruct (got_fmt_header st) eqn:Hgot; [discriminate|].
    invert_run Hseen.
    match goal with
    | H : EnsureRangeAccessible _ _ _ _ _ = _ |- _ =>
        apply EnsureRangeAccessible_returns in H; [|exact Hsync0];
        destruct H as (Hsync1 & _ & r1 & Hr1 & Hs1 & Hp1)
    end.
    repeat match goal with
           | H : load_uint _ _ _ _ _ = _ |- _ =>
               apply load_inv_state in H; subst
           end.
    match type of Hseen with
    | (if ?b then _ else _) _ = _ => destruct b; [discriminate|]
    end.
    invert_run Hseen.
    repeat match goal with
           | H : load_uint _ _ _ _ _ = _ |- _ =>
               apply load_inv_state in H; subst
           end.
    apply ret_inv in Hseen. destruct Hseen as [-> ->].
    assert (Hnil : index_points (object st) = []).
    { destruct (index_points (object st)) eqn:E; [reflexivity|].
      exfalso. assert (false = true) by (apply Hfirst; discriminate).
      discriminate. }
    constructor; cbn [fst snd got_fmt_header object set_format index_points].
    + exact Hsync1.
    + reflexivity.
    + rewrite Hnil. constructor.
  - invert_run Hseen.
    match goal with
    | H : RiffWav.CheckFourcc _ _ _ "data" _ = _ |- _ =>
        destruct (CheckFourcc_inv _ _ _ _ _ _ _ _ _ Hr Hs Hp H) as [-> ->]
    end.
    match type of Hseen with
    | (if ?b then _ else _) _ = _ => destruct b eqn:Hdata
    end.
    + (* data *)
      unfold RiffWav.data_chunk in Hseen.
      destruct (got_fmt_header st) eqn:Hgot; [|discriminate]. cbn [negb] in Hseen.
      invert_run Hseen. apply ret_inv in Hseen. destruct Hseen as [-> ->].
      match goal with
      | H : load_uint _ _ 4 4 _ = (Return ?size, _) |- _ =>
          destruct (load_uint_inv _ _ _ _ _ _ _ _ _ Hr Hs Hp H) as [-> ->]
      end.
      repeat match goal with
             | H : divide _ _ _ = _ |- _ =>
                 apply divide_inv in H; destruct H as (-> & ? & ->)
             | H : i64 _ _ = _ |- _ =>
                 apply i64_inv in H; destruct H as (-> & -> & ?)
             end.
      repeat match goal with
             | H : load_uint _ _ _ _ _ = _ |- _ =>
                 apply load_inv_state in H; subst
             end.
      constructor; cbn [fst snd got_fmt_header object push_back index_points].
      * exact Hsync0.
      * reflexivity.
      * apply Forall_app. split.
        -- eapply Forall_impl; [|exact Hpoints].
           intros ip. apply riff_point_same_format; reflexivity.
        -- constructor; [|constructor].
           exists (filepos st). cbn [IndexPoint.start_byte IndexPoint.num_samples
                                     bytes_per_sample channels].
           split; [|split; reflexivity].
           rewrite Z.add_0_r in Hdata. apply bytes_eqb_eq. exact Hdata.
    + apply ret_inv in Hseen. destruct Hseen as [-> ->].
      repeat match goal with
             | H : load_uint _ _ _ _ _ = _ |- _ =>
                 apply load_inv_state in H; subst
             end.
      constructor; cbn [fst snd got_fmt_header object]; assumption.
Qed.

(** Every index point of a file the RIFF WAV parser accepts comes from a
    ['data'] chunk: start_byte is the byte after the chunk header and the
    count is the declared size divided by bytes_per_sample, then by
    channels. *)
Lemma riff_index_points_at_payload pf f fuel this m :
  RiffWav.RiffWavPCMAudioProvider pf f fuel = Some (Return this, m) ->
  Forall (riff_point f this) (index_points this).
Proof.
  unfold RiffWav.RiffWavPCMAudioProvider, construct. intro H.
  pose proof (riff_open_cases pf f) as Ho.
  destruct (RiffWav.open pf f unmapped) as [[st0 | e | u] m0] eqn:Hopen;
    try discriminate.
  destruct (while fuel more_data (RiffWav.chunk pf f) st0 m0)
    as [[[st1 | e | u] m1]|] eqn:Hw; try discriminate.
  inversion H; subst.
  apply (while_invariant_state _ _ (riff_walk_inv f)) in Hw.
  - exact (walk_points _ _ _ Hw).
  - intros st s st' s' Hinv _ Hb. eapply riff_chunk_keeps_points; eassumption.
  - pose proof (riff_open_object _ _ _ _ Hopen) as Hobj.
    constructor.
    + tauto.
    + rewrite Hobj. cbn. congruence.
    + rewrite Hobj. constructor.
Qed.

(** ** Chunks of an unknown type *)

Lemma align_down_bits k a :
  0 <= k -> Z.land a (Z.lnot (Z.ones k)) = 2 ^ k * (a / 2 ^ k).
Proof.
  intro Hk. rewrite <- Z.ldiff_land.
  rewrite Z.ldiff_ones_r by lia.
  rewrite Z.shiftr_div_pow2, Z.shiftl_mul_pow2 by lia. lia.
Qed.

Lemma land_uint_mask w k x :
  0 <= k -> 0 <= w -> 0 <= x < 2 ^ w ->
  Z.land x (uint w (Z.lnot (Z.ones k))) = 2 ^ k * (x / 2 ^ k).
Proof.
  intros Hk Hw Hx. unfold uint.
  rewrite <- Z.land_ones by lia.
  rewrite Z.land_assoc, align_down_bits by lia.
  rewrite Z.land_ones by lia.
  apply Z.mod_small.
  assert (0 < 2 ^ k) by (apply Z.pow_pos_nonneg; lia).
  pose proof (Z.mul_div_le x (2 ^ k) ltac:(lia)).
  pose proof (Z.div_pos x (2 ^ k) ltac:(lia) ltac:(lia)).
  nia.
Qed.

(** [(size + 1) & ~1]: the size rounded up to a multiple of 2, modulo 2^32. *)
Lemma word_aligned_rounds size :
  RiffWav.word_aligned size = 2 * (uint 32 (size + 1) / 2).
Proof.
  unfold RiffWav.word_aligned.
  change 1 with (Z.ones 1) at 2.
  rewrite land_uint_mask; try lia.
  - reflexivity.
  - unfold uint. apply Z.mod_pos_bound. lia.
Qed.

(** [(chunk_size + 7) & ~7]: the size rounded up to a multiple of 8, modulo
    2^64. *)
Lemma qword_aligned_rounds size :
  Wave64.qword_aligned size = 8 * (uint 64 (size + 7) / 8).
Proof.
  unfold Wave64.qword_aligned.
  change 7 with (Z.ones 3) at 2.
  rewrite land_uint_mask; try lia.
  - reflexivity.
  - unfold uint. apply Z.mod_pos_bound. lia.
Qed.

Lemma bytes_eqb_neq a b : a <> b -> bytes_eqb a b = false.
Proof.
  intro H. destruct (bytes_eqb a b) eqn:E; [|reflexivity].
  exfalso. apply H. apply bytes_eqb_eq. exact E.
Qed.

Lemma ptr_add_0 p : ptr_add p 0 = p.
Proof. destruct p. unfold ptr_add. cbn. f_equal. lia. Qed.


(** A Wave64 chunk that is neither the format nor the data chunk, read
    through a window that holds its 24-byte header, is skipped without
    error: the object is left as it is and the cursor moves by the chunk
    size rounded up to a multiple of 8. *)
Lemma wave64_unknown_chunk_skipped pf f st m r :
  let fsize := Z.of_nat (List.length f) in
  fsize <= INT64_MAX -> mapper_wf fsize m ->
  region m = Some r -> covers m r (filepos st) 24 ->
  0 <= filepos st ->
  bytes_at f (filepos st) 16 <> Wave64.w64Guidfmt ->
  bytes_at f (filepos st) 16 <> Wave64.w64Guiddata ->
  let chunk_size := le (bytes_at f (filepos st + 16) 8) in
  Wave64.chunk pf f st m
  = (Return {| data_left := uint 64 (data_left st - Wave64.qword_aligned chunk_size);
               filepos := uint 64 (filepos st + Wave64.qword_aligned chunk_size);
               got_fmt_header := got_fmt_header st;
               object := object st |}, m).
Proof.
  intros fsize Hmax Hwf Hr [Hlo Hhi] Hpos Hfmt Hdata chunk_size.
  pose proof Hwf as Hwf'. unfold mapper_wf in Hwf'. rewrite Hr in Hwf'.
  destruct Hwf' as (Hoff & H0 & Hsz & Hend).
  assert (Hmx : INT64_MAX = 2 ^ 63 - 1) by reflexivity.
  assert (Hmn : INT64_MIN = - 2 ^ 63) by reflexivity.
  assert (Hok : window_ok m r) by (unfold window_ok; lia).
  unfold Wave64.chunk. fold fsize.
  rewrite (sint_small 64 (filepos st)) by (change (64 - 1) with 63; lia).
  rewrite (uint_small 64 (filepos st + 16)) by lia.
  rewrite (sint_small 64 (filepos st + 16)) by (change (64 - 1) with 63; lia).
  rewrite (bind_step _ _ _ _ _
             (EnsureRangeAccessible_reuses pf fsize (filepos st) 16 m r
                ltac:(apply is_int64_true; lia) ltac:(lia) Hr Hok ltac:(lia)
                ltac:(unfold covers; lia))).
  rewrite (bind_step _ _ _ _ _
             (EnsureRangeAccessible_reuses pf fsize (filepos st + 16) 8 m r
                ltac:(apply is_int64_true; lia) ltac:(lia) Hr Hok ltac:(lia)
                ltac:(unfold covers; lia))).
  set (pg := {| ptr_serial := serial r;
                ptr_offset := filepos st - mapping_start m |}).
  set (ps := {| ptr_serial := serial r;
                ptr_offset := filepos st + 16 - mapping_start m |}).
  assert (Hsize : load f (ptr_add ps 0) 8 m
                  = (Return (bytes_at f (filepos st + 16) 8), m)).
  { rewrite (load_in_window f m r (ptr_add ps 0) 8 Hr Hwf eq_refl
               ltac:(cbv [ps ptr_add ptr_offset ptr_serial]; lia)
               ltac:(cbv [ps ptr_add ptr_offset ptr_serial]; lia)).
    cbv [ps ptr_add ptr_offset ptr_serial]. do 3 f_equal. lia. }
  assert (Hguid : load f pg 16 m = (Return (bytes_at f (filepos st) 16), m)).
  { rewrite (load_in_window f m r pg 16 Hr Hwf eq_refl
               ltac:(cbv [pg ptr_add ptr_offset ptr_serial]; lia) ltac:(cbv [pg ptr_add ptr_offset ptr_serial]; lia)).
    cbv [pg ptr_add ptr_offset ptr_serial]. do 3 f_equal. lia. }
  unfold load_uint, Wave64.CheckGuid.
  rewrite (bind_step _ _ _ _ _ (bind_step _ _ _ _ _ Hsize)).
  rewrite (bind_step _ _ _ _ _ (bind_step _ _ _ _ _ Hguid)).
  unfold ret at 1. rewrite (bytes_eqb_neq _ _ Hfmt).
  rewrite !bind_assoc.
  rewrite (bind_step _ _ _ _ _ Hguid).
  unfold ret at 1. unfold bind at 1. rewrite (bytes_eqb_neq _ _ Hdata).
  reflexivity.
Qed.

(** ** Providers the RIFF WAV parser builds are well formed *)

Lemma app_not_nil {A} (l : list A) x : l ++ [x] <> [].
Proof. destruct l; discriminate. Qed.

Lemma riff_effect_keeps_built f st st' :
  chunk_effect riff_frames st st' -> built_from f st -> built_from f st'.
Proof.
  intros [Ho Hg | r c b Hg Hg' _ _ Ho | ip Hg Hg' _ Hfit Hf Ho] [Hfile Hsize Htot Hfmt].
  - constructor; rewrite ?Ho, ?Hg; assumption.
  - constructor; rewrite Ho; cbn [set_format file_mapping file_size num_samples
                                    index_points]; try assumption.
    intro Hne. destruct (Hfmt Hne) as [Hgot _]. congruence.
  - constructor; rewrite Ho; cbn [push_back file_mapping file_size num_samples
                                    index_points bytes_per_sample channels];
      try assumption.
    intros _. destruct Hf as (size & _ & Hb & Hc & _). auto.
Qed.

Lemma new_provider_built f st :
  object st = PCMAudioProvider_new f -> built_from f st.
Proof.
  intro Ho. constructor; rewrite Ho; cbn; try reflexivity. congruence.
Qed.


(** ** The factory *)

Lemma riff_magic_is_not_wave64 (f : file) :
  riff_signature f = true ->
  bytes_eqb (bytes_at f 0 16) Wave64.w64GuidRIFF = false.
Proof.
  unfold riff_signature, bytes_at.
  change (Z.to_nat 0) with 0%nat. change (Z.to_nat 4) with 4%nat.
  change (Z.to_nat 16) with 16%nat.
  intro H. apply andb_prop in H. destruct H as [H _].
  destruct f as [|b f]; [discriminate H|].
  cbn [skipn firstn bytes_eqb chars List.map list_ascii_of_string] in H.
  apply andb_prop in H. destruct H as [H _].
  apply byte_dec_bl in H. subst b. reflexivity.
Qed.

(** A file with the RIFF magic is refused by the Wave64 parser with the
    data-not-found error. *)
Lemma wave64_refuses_riff pf f fuel :
  dependable pf (Z.of_nat (List.length f)) ->
  Z.of_nat (List.length f) <= INT64_MAX ->
  0 <= sizeof_FormatChunk pf ->
  riff_signature f = true ->
  exists reason m,
    (reason = "File is too small to be a Wave64 file"%string \/
     reason = "File is not a Wave64 RIFF file"%string) /\
    Wave64.Wave64AudioProvider pf f fuel
      = Some (Throw (AudioDataNotFoundError reason), m).
Proof.
  intros Hpf Hmax Hsz Hsig.
  unfold Wave64.Wave64AudioProvider, construct, Wave64.open.
  destruct (Z.of_nat (List.length f) <? Wave64.smallest_possible_file pf) eqn:Hsmall.
  { eexists _, _. split; [left; reflexivity | reflexivity]. }
  apply Z.ltb_ge in Hsmall.
  unfold Wave64.smallest_possible_file, Wave64.sizeof_RiffChunk,
    Wave64.sizeof_DataChunk in Hsmall.
  destruct (EnsureRangeAccessible_serves pf f Hpf Hmax unmapped 0 40 I
              ltac:(lia) ltac:(lia) ltac:(lia)) as (p & m & Hera & _ & _ & Hp).
  unfold Wave64.sizeof_RiffChunk.
  rewrite (bind_step _ _ _ _ _ Hera).
  unfold Wave64.CheckGuid.
  pose proof (Hp 0 16 ltac:(lia) ltac:(lia) ltac:(lia)) as Hload.
  replace (ptr_add p 0) with p in Hload
    by (destruct p; unfold ptr_add; cbn; f_equal; lia).
  rewrite (bind_step _ _ _ _ _ (bind_step _ _ _ _ _ Hload)).
  unfold ret at 1. cbn [Z.add].
  rewrite (riff_magic_is_not_wave64 f Hsig). cbn [negb].
  eexists _, _. split; [right; reflexivity | reflexivity].
Qed.


(** * The properties of the specification *)

(** ** A 16-bit stereo RIFF WAV file *)

Lemma length_16 {A} (l : list A) :
  List.length l = 16%nat ->
  exists a0 a1 a2 a3 a4 a5 a6 a7 a8 a9 a10 a11 a12 a13 a14 a15,
    l = [a0; a1; a2; a3; a4; a5; a6; a7; a8; a9; a10; a11; a12; a13; a14; a15].
Proof.
  intro H.
  do 16 (destruct l as [|? l]; [discriminate H|]).
  destruct l; [|discriminate H].
  repeat eexists.
Qed.

(** C1: a RIFF WAV file declaring 16-bit PCM, 2 channels, 44100 Hz, with
    one data chunk of 4 frames, yields a provider with bytes_per_sample 2,
    channels 2, sample_rate 44100, num_samples 4 and one index point;
    FillBuffer for an in-range request of [count] frames from [start] fills
    the destination with the bytes [4 * start, 4 * (start + count)) of the
    payload, which are the bytes of the file at
    start_byte + (start - start_sample) * bytes_per_sample * channels;
    for the frames [1,3) these are the bytes [4,12) of the payload. *)
Theorem stereo16_wav_provider :
  forall (w : size_t_width) (fuel : nat) (payload dest : list byte)
         (start count : Z),
    List.length payload = 16%nat ->
    (2 <= fuel)%nat ->
    0 <= start -> 0 < count -> start + count <= 4 ->
    Z.of_nat (List.length dest) = count * 4 ->
    exists this m m',
      RiffWav.RiffWavPCMAudioProvider (granting w) (stereo16_wav payload) fuel
        = Some (Return this, m) /\
      bytes_per_sample this = 2 /\ channels this = 2 /\
      sample_rate this = 44100 /\ num_samples this = 4 /\
      index_points this = [{| IndexPoint.start_byte := 44;
                              IndexPoint.start_sample := 0;
                              IndexPoint.num_samples := 4 |}] /\
      bytes_at (stereo16_wav payload) 44 16 = payload /\
      FillBuffer (granting w) this start count (m, dest)
        = (Return tt, (m', bytes_at payload (4 * start) (4 * count))) /\
      bytes_at payload (4 * start) (4 * count)
        = bytes_at (stereo16_wav payload)
            (44 + (start - 0) * bytes_per_sample this * channels this)
            (4 * count).
Proof.
  intros w fuel payload dest start count Hp Hfuel Hstart Hcount Hend Hdest.
  destruct (length_16 _ Hp) as (a0 & a1 & a2 & a3 & a4 & a5 & a6 & a7 & a8 & a9
                                & a10 & a11 & a12 & a13 & a14 & a15 & Hpayload).
  set (f := stereo16_wav payload).
  set (ip := {| IndexPoint.start_byte := 44;
                IndexPoint.start_sample := 0;
                IndexPoint.num_samples := 4 |}).
  set (this := {| file_mapping := f; file_size := 60; float_samples := false;
                  sample_rate := 44100; channels := 2; bytes_per_sample := 2;
                  num_samples := 4; index_points := [ip] |}).
  set (m := {| region := Some {| get_offset := 0; get_size := 60; serial := 1 |};
               mapping_start := 0; regions_created := 1 |}).
  assert (Hrun : RiffWav.RiffWavPCMAudioProvider (granting w) f 2
                 = Some (Return this, m)).
  { unfold this, m, ip, f. rewrite Hpayload. destruct w; vm_compute; reflexivity. }
  assert (Hfile : f = firstn 44 f ++ payload).
  { unfold f. rewrite Hpayload. reflexivity. }
  assert (Hlen : List.length f = 60%nat).
  { unfold f. rewrite Hpayload. reflexivity. }
  assert (Hslice : forall off n, 0 <= off ->
                     bytes_at f (44 + off) n = bytes_at payload off n).
  { intros off n Hoff.
    assert (Hpre : Z.of_nat (List.length (firstn 44 f)) = 44)
      by (rewrite length_firstn, Hlen; reflexivity).
    rewrite Hfile at 1.
    rewrite bytes_at_app_r by lia.
    rewrite Hpre. f_equal. lia. }
  assert (Hmax : INT64_MAX = 2 ^ 63 - 1) by reflexivity.
  destruct (FillBuffer_from_copies (granting w) this
              ltac:(cbn [file_size file_mapping this]; rewrite Hlen; reflexivity)
              ltac:(cbn; lia) ltac:(cbn; lia) ltac:(cbn; lia)
              ltac:(split; [reflexivity | intros _; cbn; lia])
              [ip] 0 0 start count m dest)
    as (m' & _ & Hfill); cbn [total_samples ip IndexPoint.num_samples file_size this];
    try lia.
  - cbn. auto.
  - repeat constructor. cbn. lia.
  - repeat constructor; cbn; unfold frame_size; cbn; lia.
  - cbn. repeat split; lia.
  - unfold frame_size. cbn [bytes_per_sample channels this]. lia.
  - exists this, m, m'.
    split; [exact (construct_more_fuel _ _ _ _ _ _ Hrun _ Hfuel)|].
    do 5 (split; [reflexivity|]).
    split.
    { change (bytes_at f (44 + 0) 16 = payload).
      rewrite Hslice by lia. rewrite Hpayload. reflexivity. }
    cbn [bytes_per_sample channels this].
    replace (44 + (start - 0) * 2 * 2) with (44 + 4 * start) by lia.
    rewrite Hslice by lia. split; [|reflexivity].
    unfold FillBuffer. cbn [index_points this]. rewrite Hfill.
    do 2 f_equal.
    cbn [total_samples IndexPoint.num_samples ip].
    replace (Z.max 0 (Z.min count (0 + (4 + 0) - start))) with count by lia.
    unfold frame_size. cbn [bytes_per_sample channels this].
    change (Z.to_nat 0) with 0%nat. cbn [firstn app].
    rewrite skipn_all2 by lia. rewrite app_nil_r.
    cbn [sample_stream flat_map]. rewrite app_nil_r.
    unfold chunk_bytes, frame_size.
    cbn [file_mapping IndexPoint.start_byte IndexPoint.num_samples ip
           bytes_per_sample channels this].
    rewrite bytes_at_bytes_at by lia.
    replace (44 + (start - 0) * (2 * 2)) with (44 + 4 * start) by lia.
    rewrite Hslice by lia. f_equal. lia.
Qed.

Lemma stereo16_wav_provider_witness :
  exists this m m',
    RiffWav.RiffWavPCMAudioProvider (granting Bits64) (stereo16_wav ramp) 2
      = Some (Return this, m) /\
    bytes_per_sample this = 2 /\ channels this = 2 /\
    sample_rate this = 44100 /\ num_samples this = 4 /\
    index_points this = [{| IndexPoint.start_byte := 44;
                            IndexPoint.start_sample := 0;
                            IndexPoint.num_samples := 4 |}] /\
    bytes_at (stereo16_wav ramp) 44 16 = ramp /\
    FillBuffer (granting Bits64) this 1 2 (m, zeros 8)
      = (Return tt, (m', bytes_at ramp 4 8)) /\
    bytes_at ramp 4 8
      = bytes_at (stereo16_wav ramp)
          (44 + (1 - 0) * bytes_per_sample this * channels this) 8.
Proof.
  apply (stereo16_wav_provider Bits64 2 ramp (zeros 8) 1 2).
  - reflexivity.
  - lia.
  - lia.
  - lia.
  - lia.
  - reflexivity.
Defined.

(** ** The order of the index *)

(** C2, evaluated on a Wave64 file the parser accepts, in which a data
    chunk declares 2^64 - 32 bytes: its frame count is -32, the next point
    starts at sample -32, before the first, and num_samples is -8. *)
Theorem wave64_index_out_of_order :
  forall (w : size_t_width) (k : nat),
    exists this m,
      Wave64.Wave64AudioProvider (granting w) backward_w64 (4 + k)
        = Some (Return this, m) /\
      index_points this = [{| IndexPoint.start_byte := 144;
                              IndexPoint.start_sample := 0;
                              IndexPoint.num_samples := -32 |};
                           {| IndexPoint.start_byte := 112;
                              IndexPoint.start_sample := -32;
                              IndexPoint.num_samples := 24 |}] /\
      num_samples this = -8 /\
      ~ ordered_from 0 (index_points this).
Proof.
  intros w k.
  assert (H : exists this m,
             Wave64.Wave64AudioProvider (granting w) backward_w64 4
               = Some (Return this, m)
             /\ index_points this = [{| IndexPoint.start_byte := 144;
                              IndexPoint.start_sample := 0;
                              IndexPoint.num_samples := -32 |};
                           {| IndexPoint.start_byte := 112;
                              IndexPoint.start_sample := -32;
                              IndexPoint.num_samples := 24 |}]
             /\ num_samples this = -8).
  { destruct w; vm_compute; do 2 eexists; repeat split. }
  destruct H as (this & m & Hrun & Hix & Hn).
  exists this, m. split.
  { unfold Wave64.Wave64AudioProvider in *.
    apply (construct_more_fuel _ _ _ _ _ _ Hrun). lia. }
  split; [exact Hix|]. split; [exact Hn|].
  rewrite Hix. cbn. lia.
Qed.

(** ** Wave64 data chunks *)

(** C3, evaluated on a Wave64 file with one data chunk whose header is at
    byte 88 and whose 16 bytes of payload (4 frames) start at byte 112: the
    index point records byte 88, the first byte of the chunk's GUID, and
    10 frames, the chunk size 40 divided by 2 and by 2; the first frame
    FillBuffer delivers is the first four bytes of the GUID. *)
Theorem wave64_index_point_at_chunk_header :
  forall (w : size_t_width) (k : nat),
    exists this m m',
      Wave64.Wave64AudioProvider (granting w) stereo16_w64 (S (S k))
        = Some (Return this, m) /\
      bytes_per_sample this = 2 /\ channels this = 2 /\
      index_points this = [{| IndexPoint.start_byte := 88;
                              IndexPoint.start_sample := 0;
                              IndexPoint.num_samples := 10 |}] /\
      bytes_at stereo16_w64 88 16 = Wave64.w64Guiddata /\
      le (bytes_at stereo16_w64 104 8) = 24 + 16 /\
      bytes_at stereo16_w64 112 16 = ramp /\
      FillBuffer (granting w) this 0 1 (m, zeros 4)
        = (Return tt, (m', [x64; x61; x74; x61])).
Proof.
  intros w k.
  assert (H : exists this m,
             Wave64.Wave64AudioProvider (granting w) stereo16_w64 2
               = Some (Return this, m)
             /\ this = {| file_mapping := stereo16_w64; file_size := 128;
                          float_samples := false;
                          sample_rate := 44100; channels := 2; bytes_per_sample := 2;
                          num_samples := 10;
                          index_points := [{| IndexPoint.start_byte := 88;
                                              IndexPoint.start_sample := 0;
                                              IndexPoint.num_samples := 10 |}] |}
             /\ m = {| region := Some {| get_offset := 0; get_size := 128; serial := 1 |};
                       mapping_start := 0; regions_created := 1 |}).
  { do 2 eexists. split; [|split; reflexivity].
    destruct w; vm_compute; reflexivity. }
  destruct H as (this & m & Hrun & -> & ->).
  eexists _, _, _. split.
  { unfold Wave64.Wave64AudioProvider in *.
    apply (construct_more_fuel _ _ _ _ _ _ Hrun). lia. }
  cbn [bytes_per_sample channels index_points].
  repeat (split; [reflexivity|]).
  destruct w; vm_compute; reflexivity.
Qed.

(** ** The factory *)

(** C4, on a 3-byte file: both parsers fail and neither signature
    matches, so the factory should raise the data-not-found error made of
    both diagnostics.  The Wave64 parser refuses the file with that error
    through its test of the file size (lines 325-328); the RIFF WAV parser
    has no such test before it requests the 12-byte header (line 186), and
    the decode error of that request, which no handler of the factory
    catches, is what leaves the factory, the Wave64 parser not being
    run. *)
Lemma factory_decode_error_escapes :
  RiffWav.RiffWavPCMAudioProvider lp64 short_file 1
    = Some (Throw (AudioDecodeError "Attempted to map beyond end of file"), unmapped) /\
  Wave64.Wave64AudioProvider lp64 short_file 1
    = Some (Throw (AudioDataNotFoundError "File is too small to be a Wave64 file"),
            unmapped) /\
  riff_signature short_file = false /\
  wave64_signature short_file = false /\
  CreatePCMAudioProvider lp64 1 short_file
    = Some ([RIFF_WAV],
            Throw (AudioDecodeError "Attempted to map beyond end of file")).
Proof. repeat split; vm_compute; reflexivity. Qed.

(** X29: what leaves the factory, by the outcomes of the two parsers.
    The factory runs the RIFF WAV parser, then the Wave64 parser, and
    returns the first provider constructed.  Its handlers catch the
    data-not-found and the provider-open error only: any other exception
    of a parser leaves the factory as it is, and after one of the RIFF WAV
    parser the Wave64 parser is not run.  When both parsers fail with the
    data-not-found or the provider-open error, the factory raises the
    data-not-found error if both errors are data-not-found, in which case
    the RIFF signature did not match and the Wave64 signature did not
    match or the file is too small for Wave64, and the provider-open error
    if one of them is provider-open, in which case a signature matched;
    the message is made of the diagnostics of both parsers. *)
Theorem factory_outcome :
  forall (pf : platform) (fuel : nat) (f : file)
         (r1 : outcome PCMAudioProvider) (m1 : mapper),
    RiffWav.RiffWavPCMAudioProvider pf f fuel = Some (r1, m1) ->
    (forall p, r1 = Return p ->
       CreatePCMAudioProvider pf fuel f = Some ([RIFF_WAV], Return (p, m1))) /\
    (forall e, r1 = Throw e -> caught e = None ->
       CreatePCMAudioProvider pf fuel f = Some ([RIFF_WAV], Throw e)) /\
    (forall e1 msg1 r2 m2,
       r1 = Throw e1 -> caught e1 = Some msg1 ->
       Wave64.Wave64AudioProvider pf f fuel = Some (r2, m2) ->
       (forall p, r2 = Return p ->
          CreatePCMAudioProvider pf fuel f
            = Some ([RIFF_WAV; WAVE64], Return (p, m2))) /\
       (forall e2, r2 = Throw e2 -> caught e2 = None ->
          CreatePCMAudioProvider pf fuel f = Some ([RIFF_WAV; WAVE64], Throw e2)) /\
       (forall e2 msg2, r2 = Throw e2 -> caught e2 = Some msg2 ->
          if is_open_error e1 || is_open_error e2 then
            CreatePCMAudioProvider pf fuel f
              = Some ([RIFF_WAV; WAVE64],
                      Throw (AudioProviderOpenError (both_failed msg1 msg2))) /\
            (riff_signature f = true \/ wave64_signature f = true)
          else
            CreatePCMAudioProvider pf fuel f
              = Some ([RIFF_WAV; WAVE64],
                      Throw (AudioDataNotFoundError (both_failed msg1 msg2))) /\
            riff_signature f = false /\
            (wave64_signature f = false \/
             Z.of_nat (List.length f) < Wave64.smallest_possible_file pf))).
Proof.
  intros pf fuel f r1 m1 Hriff.
  unfold CreatePCMAudioProvider. rewrite Hriff.
  split; [|split].
  - intros p ->. reflexivity.
  - intros e -> He. destruct e; [discriminate He | discriminate He | reflexivity].
  - intros e1 msg1 r2 m2 -> He1 Hw.
    pose proof (riff_error_signature _ _ _ _ _ Hriff) as Hs1.
    unfold try_wave64.
    split; [|split].
    + intros p ->. destruct e1; try discriminate He1; rewrite Hw; reflexivity.
    + intros e2 -> He2.
      destruct e2; try discriminate He2.
      destruct e1; try discriminate He1; rewrite Hw; reflexivity.
    + intros e2 msg2 -> He2.
      pose proof (wave64_error_signature _ _ _ _ _ Hw) as Hs2.
      destruct e1 as [a1 | a1 | a1]; try discriminate He1;
        destruct e2 as [a2 | a2 | a2]; try discriminate He2;
        cbn in He1, He2; inversion He1; inversion He2; subst;
        cbn [is_open_error orb]; rewrite Hw;
        (split; [reflexivity|]); tauto.
Qed.

Lemma factory_outcome_witness :
  CreatePCMAudioProvider lp64 1 unknown_file
    = Some ([RIFF_WAV; WAVE64],
            Throw (AudioDataNotFoundError
                     (both_failed "File is not a RIFF file"
                        "File is too small to be a Wave64 file"))) /\
  riff_signature unknown_file = false /\
  (wave64_signature unknown_file = false \/
   Z.of_nat (List.length unknown_file) < Wave64.smallest_possible_file lp64).
Proof.
  destruct (factory_outcome lp64 1 unknown_file
              (Throw (AudioDataNotFoundError "File is not a RIFF file"))
              {| region := Some {| get_offset := 0; get_size := 16; serial := 1 |};
                 mapping_start := 0; regions_created := 1 |}
              eq_refl) as (_ & _ & H).
  destruct (H (AudioDataNotFoundError "File is not a RIFF file")
              "File is not a RIFF file"%string
              (Throw (AudioDataNotFoundError "File is too small to be a Wave64 file"))
              unmapped eq_refl eq_refl eq_refl) as (_ & _ & H2).
  exact (H2 (AudioDataNotFoundError "File is too small to be a Wave64 file")
            "File is too small to be a Wave64 file"%string eq_refl eq_refl).
Defined.

(** Against C5 as stated: on a RIFF WAV file that is not PCM the RIFF WAV
    parser fails with the provider-open error, and the factory goes on to
    run the Wave64 parser, whose message is part of the error raised. *)
Lemma factory_runs_wave64_after_open_error :
  (exists m, RiffWav.RiffWavPCMAudioProvider lp64 adpcm_wav 1
             = Some (Throw (AudioProviderOpenError "Can't use file, not PCM encoding"), m)) /\
  CreatePCMAudioProvider lp64 1 adpcm_wav
    = Some ([RIFF_WAV; WAVE64],
            Throw (AudioProviderOpenError
                     ("RIFF PCM WAV audio provider: Can't use file, not PCM encoding"
                      ++ newline
                      ++ "Wave64 audio provider: File is too small to be a Wave64 file"))).
Proof. split; [eexists|]; vm_compute; reflexivity. Qed.

(** C5, amended: when the RIFF WAV parser fails with the provider-open
    error, the factory still runs the Wave64 parser; that parser refuses
    the file, which has the RIFF magic, and the factory raises the
    provider-open error whose message holds the diagnostics of both. *)
Theorem factory_after_open_error :
  forall (pf : platform) (fuel : nat) (f : file) (msg : string) (m : mapper),
    dependable pf (Z.of_nat (List.length f)) ->
    Z.of_nat (List.length f) <= INT64_MAX ->
    0 <= sizeof_FormatChunk pf ->
    RiffWav.RiffWavPCMAudioProvider pf f fuel
      = Some (Throw (AudioProviderOpenError msg), m) ->
    exists reason,
      (reason = "File is too small to be a Wave64 file"%string \/
       reason = "File is not a Wave64 RIFF file"%string) /\
      CreatePCMAudioProvider pf fuel f
        = Some ([RIFF_WAV; WAVE64],
                Throw (AudioProviderOpenError (both_failed msg reason))).
Proof.
  intros pf fuel f msg m Hpf Hmax Hsz Hriff.
  pose proof (riff_error_signature _ _ _ _ _ Hriff) as Hsig. cbv beta iota in Hsig.
  destruct (wave64_refuses_riff pf f fuel Hpf Hmax Hsz Hsig)
    as (reason & m2 & Hreason & Hw).
  exists reason. split; [exact Hreason|].
  unfold CreatePCMAudioProvider. rewrite Hriff.
  unfold try_wave64. rewrite Hw. reflexivity.
Qed.

Lemma factory_after_open_error_witness :
  exists reason,
    (reason = "File is too small to be a Wave64 file"%string \/
     reason = "File is not a Wave64 RIFF file"%string) /\
    CreatePCMAudioProvider lp64 1 adpcm_wav
      = Some ([RIFF_WAV; WAVE64],
              Throw (AudioProviderOpenError
                       (both_failed "Can't use file, not PCM encoding" reason))).
Proof.
  apply (factory_after_open_error lp64 1 adpcm_wav
           "Can't use file, not PCM encoding"
           {| region := Some {| get_offset := 0; get_size := 36; serial := 1 |};
              mapping_start := 0; regions_created := 1 |}).
  - split; [reflexivity | discriminate].
  - vm_compute. discriminate.
  - vm_compute. discriminate.
  - vm_compute. reflexivity.
Defined.

(** ** The contract of EnsureRangeAccessible *)

(** The two tests of the function as the code makes them.  For a call
    whose [start + length] is representable, a range that ends past the end
    of the file is refused with a decode error, the mapper is left as it
    was and whatever the caller sequenced after the call (in FillBuffer,
    the copy and the rest of the loop) is not run; a range inside the file
    that passes the test of line 74 is served by a pointer into the mapped
    region, no region being created.  The test of line 74 places the
    window at [mapping_start], which is where the mapped region is as long
    as no view was refused. *)
Theorem EnsureRangeAccessible_contract :
  forall (pf : platform) (fsize start length : Z) (m : mapper),
    is_int64 (start + length) = true ->
    (fsize < start + length ->
     EnsureRangeAccessible pf fsize start length m
       = (Throw (AudioDecodeError "Attempted to map beyond end of file"), m) /\
     forall (A : Type) (rest : pointer -> M reader A) (dest : list byte),
       bind (with_mapper (EnsureRangeAccessible pf fsize start length)) rest
         (m, dest)
       = (Throw (AudioDecodeError "Attempted to map beyond end of file"),
          (m, dest))) /\
    (start + length <= fsize ->
     forall r, region m = Some r -> window_ok m r -> 0 <= length ->
       covers m r start length ->
       EnsureRangeAccessible pf fsize start length m
         = (Return {| ptr_serial := serial r;
                      ptr_offset := start - mapping_start m |}, m)).
Proof.
  intros pf fsize start length m Hsum. split.
  - intro Hgt.
    assert (H : EnsureRangeAccessible pf fsize start length m
                = (Throw (AudioDecodeError "Attempted to map beyond end of file"), m)).
    { unfold EnsureRangeAccessible.
      rewrite (bind_step _ _ _ _ _ (i64_Return _ m Hsum)).
      rewrite gtb_true by lia. reflexivity. }
    split; [exact H|].
    intros A rest dest. unfold bind, with_mapper. cbn [fst snd].
    rewrite H. reflexivity.
  - intros Hle r Hr Hok Hlen Hcov.
    apply EnsureRangeAccessible_reuses; assumption.
Qed.

Lemma EnsureRangeAccessible_contract_witness :
  let m := {| region := Some {| get_offset := 0; get_size := 60; serial := 1 |};
              mapping_start := 0; regions_created := 1 |} in
  EnsureRangeAccessible lp64 60 56 8 m
    = (Throw (AudioDecodeError "Attempted to map beyond end of file"), m) /\
  EnsureRangeAccessible lp64 60 48 8 m
    = (Return {| ptr_serial := 1; ptr_offset := 48 |}, m).
Proof.
  intro m. split.
  - apply (proj1 (EnsureRangeAccessible_contract lp64 60 56 8 m eq_refl)).
    reflexivity.
  - apply (proj2 (EnsureRangeAccessible_contract lp64 60 48 8 m eq_refl)
             ltac:(discriminate)
             {| get_offset := 0; get_size := 60; serial := 1 |} eq_refl).
    + vm_compute. repeat split; discriminate.
    + discriminate.
    + vm_compute. split; discriminate.
Defined.

(** C6, after a refused view.  On a 32-bit build, with the first 16 MiB of
    a 64 MiB file mapped, a request at byte 20000000 needs a new window,
    whose view is refused: the call throws, the old region is still the
    mapped one, and [mapping_start], assigned before the view was asked
    for (line 78), holds the offset of the window that was refused.  The
    test of line 74 then looks for the mapped window where it is not.  The
    bytes [100, 108) lie in the mapped window, yet the request for them is
    not served from it: a second region is created.  The bytes
    [20000100, 20000108) do not lie in the mapped window, yet the request
    for them is served from it, without a new region, by a pointer that
    stands at byte 77156 of the file. *)
Lemma EnsureRangeAccessible_reuse_after_refused_view :
  let fsize := 67108864 in
  let r := {| get_offset := 0; get_size := 16777216; serial := 1 |} in
  let m1 := {| region := Some r; mapping_start := 0; regions_created := 1 |} in
  let m2 := {| region := Some r; mapping_start := 19922944;
               regions_created := 1 |} in
  EnsureRangeAccessible first_window_only fsize 0 8 unmapped
    = (Return {| ptr_serial := 1; ptr_offset := 0 |}, m1) /\
  EnsureRangeAccessible first_window_only fsize 20000000 8 m1
    = (Throw (AudioDecodeError "Failed mapping a view of the file"), m2) /\
  window_covers r 100 8 /\
  EnsureRangeAccessible first_window_only fsize 100 8 m2
    = (Return {| ptr_serial := 2; ptr_offset := 100 |},
       {| region := Some {| get_offset := 0; get_size := 16777216;
                            serial := 2 |};
          mapping_start := 0; regions_created := 2 |}) /\
  ~ window_covers r 20000100 8 /\
  EnsureRangeAccessible first_window_only fsize 20000100 8 m2
    = (Return {| ptr_serial := 1; ptr_offset := 77156 |}, m2) /\
  denotes m2 {| ptr_serial := 1; ptr_offset := 77156 |} 77156.
Proof.
  intros fsize r m1 m2.
  split; [vm_compute; reflexivity|].
  split; [vm_compute; reflexivity|].
  split; [unfold window_covers, r; cbn [get_offset get_size]; lia|].
  split; [vm_compute; reflexivity|].
  split; [unfold window_covers, r; cbn [get_offset get_size]; lia|].
  split; [vm_compute; reflexivity|].
  exists r. unfold m2, r. cbn [region serial ptr_serial get_offset ptr_offset].
  repeat split; reflexivity.
Qed.

(** ** Zero divisors *)

(** C7, evaluated on files whose format chunk declares no channels or no
    bits per sample and which hold a data chunk: neither parser raises the
    provider-open error; the frame count is computed with a zero divisor. *)
Theorem zero_divisor_reaches_division :
  forall (w : size_t_width) (k : nat),
    (exists m, RiffWav.RiffWavPCMAudioProvider (granting w) zero_channels_wav (S (S k))
               = Some (Undefined DivisionByZero, m)) /\
    (exists m, RiffWav.RiffWavPCMAudioProvider (granting w) zero_bits_wav (S (S k))
               = Some (Undefined DivisionByZero, m)) /\
    (exists m, Wave64.Wave64AudioProvider (granting w) zero_channels_w64 (S (S k))
               = Some (Undefined DivisionByZero, m)).
Proof.
  intros w k.
  assert (Hk : (2 <= S (S k))%nat) by lia.
  unfold RiffWav.RiffWavPCMAudioProvider, Wave64.Wave64AudioProvider.
  repeat split; eexists;
    (eapply construct_more_fuel; [|exact Hk]); destruct w; vm_compute; reflexivity.
Qed.

(** ** Chunk walks that do not end *)

(** C8, evaluated on a RIFF WAV file whose chunk declares 0xFFFFFFF8 bytes
    and on a Wave64 file whose chunk declares 0 bytes: an iteration leaves
    [data_left] and [filepos] as they were, so no number of iterations
    completes either constructor. *)
Theorem chunk_walk_does_not_end :
  forall (w : size_t_width) (fuel : nat),
    RiffWav.RiffWavPCMAudioProvider (granting w) wrapping_wav fuel = None /\
    Wave64.Wave64AudioProvider (granting w) zero_padded_w64 fuel = None.
Proof.
  intros w fuel. split.
  - unfold RiffWav.RiffWavPCMAudioProvider, construct.
    destruct (RiffWav.open (granting w) wrapping_wav unmapped) as [o m] eqn:E.
    destruct w; vm_compute in E; inversion E; subst o m;
      rewrite while_fixed_point; try reflexivity; vm_compute; reflexivity.
  - unfold Wave64.Wave64AudioProvider, construct.
    destruct (Wave64.open (granting w) zero_padded_w64 unmapped) as [o m] eqn:E.
    destruct w; vm_compute in E; inversion E; subst o m;
      rewrite while_fixed_point; try reflexivity; vm_compute; reflexivity.
Qed.

(** ** Reading past the last sample *)

(** C9: on a well-formed provider, a request of [count] frames from
    [start] whose range ends past num_samples returns normally; it copies
    the frames from [start] to num_samples (none when [start] is not below
    num_samples), which are fewer bytes than requested, and leaves the
    rest of the destination as the caller passed it. *)
Theorem FillBuffer_past_the_end :
  forall (pf : platform) (this : PCMAudioProvider) (start count : Z)
         (m : mapper) (dest : list byte),
    well_formed this ->
    dependable pf (file_size this) ->
    mapper_wf (file_size this) m ->
    0 <= start <= INT64_MAX ->
    0 < count <= INT64_MAX ->
    num_samples this < start + count ->
    count * frame_size this <= Z.of_nat (List.length dest) ->
    let n := Z.max 0 (num_samples this - start) * frame_size this in
    exists m' copied,
      FillBuffer pf this start count (m, dest)
        = (Return tt, (m', copied ++ skipn (Z.to_nat n) dest)) /\
      copied = bytes_at (sample_stream this (index_points this))
                 (start * frame_size this) n /\
      Z.of_nat (List.length copied) = n /\
      n < count * frame_size this.
Proof.
  intros pf this start count m dest Hwf Hpf Hm Hstart Hcount Hpast Hdest n.
  destruct Hwf as [Hsize Hmax Hbps Hch Hcont Hnn Htot Htotmax Hin].
  assert (Hfs : 0 < frame_size this)
    by (unfold frame_size; apply Z.mul_pos_pos; assumption).
  set (frames := Z.max 0 (num_samples this - start)) in *.
  assert (Hfr : 0 <= frames < count) by (unfold frames; lia).
  assert (Hn : 0 <= n < count * frame_size this) by (unfold n; nia).
  destruct (FillBuffer_from_copies pf this Hsize Hmax Hbps Hch Hpf
              (index_points this) 0 0 start count m dest Hcont Hnn Hin
              ltac:(lia) ltac:(lia) ltac:(lia) ltac:(lia) ltac:(lia) Hm)
    as (m' & _ & Hrun).
  { rewrite <- Htot. cbn [Z.add].
    replace (Z.max 0 (Z.min count (num_samples this - start))) with frames
      by (unfold frames; lia).
    fold n. lia. }
  rewrite <- Htot in Hrun. cbn [Z.add] in Hrun.
  replace (Z.max 0 (Z.min count (num_samples this - start))) with frames in Hrun
    by (unfold frames; lia).
  fold n in Hrun. rewrite Z.sub_0_r in Hrun. cbn [Z.to_nat firstn app] in Hrun.
  exists m', (bytes_at (sample_stream this (index_points this))
               (start * frame_size this) n).
  split; [exact Hrun|]. split; [reflexivity|]. split; [|lia].
  destruct (Z.eq_dec frames 0) as [H0 | H0].
  - unfold n. rewrite H0. reflexivity.
  - apply bytes_at_length.
    + nia.
    + lia.
    + rewrite sample_stream_length by assumption.
      rewrite <- Htot. unfold n.
      replace frames with (num_samples this - start) by (unfold frames; lia).
      lia.
Qed.

Lemma stereo16_provider_built :
  exists m,
    RiffWav.RiffWavPCMAudioProvider lp64 (stereo16_wav ramp) 2
    = Some (Return stereo16_provider, m).
Proof. eexists. vm_compute. reflexivity. Qed.

Lemma stereo16_provider_well_formed : well_formed stereo16_provider.
Proof.
  constructor.
  - reflexivity.
  - vm_compute. discriminate.
  - reflexivity.
  - reflexivity.
  - cbn. auto.
  - repeat constructor. vm_compute. discriminate.
  - reflexivity.
  - vm_compute. discriminate.
  - repeat constructor; vm_compute; discriminate.
Qed.

Lemma FillBuffer_past_the_end_witness :
  exists m' copied,
    FillBuffer lp64 stereo16_provider 2 4 (unmapped, zeros 16)
      = (Return tt, (m', copied ++ skipn 8 (zeros 16))) /\
    copied = bytes_at (sample_stream stereo16_provider
                         (index_points stereo16_provider)) 8 8 /\
    Z.of_nat (List.length copied) = 8 /\
    8 < 16.
Proof.
  apply (FillBuffer_past_the_end lp64 stereo16_provider 2 4 unmapped (zeros 16)).
  - exact stereo16_provider_well_formed.
  - split; [reflexivity | discriminate].
  - exact I.
  - vm_compute. split; discriminate.
  - vm_compute. split; [reflexivity | discriminate].
  - reflexivity.
  - vm_compute. discriminate.
Defined.

(** ** Files too small for Wave64 *)

(** C10: a file shorter than the Wave64 header, a format chunk and a data
    chunk header together is refused by the Wave64 parser with the
    data-not-found error whatever its bytes are, and no region has been
    mapped when the error is raised; in particular the parser does not
    raise the provider-open error for it. *)
Theorem wave64_too_small :
  forall (pf : platform) (f : file) (fuel : nat),
    Z.of_nat (List.length f) < Wave64.smallest_possible_file pf ->
    Wave64.Wave64AudioProvider pf f fuel
      = Some (Throw (AudioDataNotFoundError "File is too small to be a Wave64 file"),
              unmapped).
Proof.
  intros pf f fuel H.
  unfold Wave64.Wave64AudioProvider, construct, Wave64.open.
  apply Z.ltb_lt in H. rewrite H. reflexivity.
Qed.

Lemma wave64_too_small_witness :
  wave64_signature truncated_w64 = true /\
  Wave64.Wave64AudioProvider lp64 truncated_w64 1
    = Some (Throw (AudioDataNotFoundError "File is too small to be a Wave64 file"),
            unmapped).
Proof.
  split.
  - vm_compute. reflexivity.
  - apply (wave64_too_small lp64 truncated_w64 1). vm_compute. reflexivity.
Defined.

(** * Further properties of the code *)

(** ** Outcomes of sequenced computations *)

Lemma bind_cases {S A B} (c : M S A) (k : A -> M S B) s o s' :
  bind c k s = (o, s') ->
  (exists a s1, c s = (Return a, s1) /\ k a s1 = (o, s')) \/
  (exists e, c s = (Throw e, s') /\ o = Throw e) \/
  (exists u, c s = (Undefined u, s') /\ o = Undefined u).
Proof.
  unfold bind. destruct (c s) as [[a | e | u] s1]; intro H.
  - left. eauto.
  - right. left. inversion H. eauto.
  - right. right. inversion H. eauto.
Qed.

Lemma i64_cases {S} z (s : S) o s' :
  i64 z s = (o, s') ->
  s' = s /\ (o = Return z \/ o = Undefined SignedOverflow).
Proof.
  unfold i64. destruct (is_int64 z); intro H; inversion H; auto.
Qed.

Lemma current_mapping_cases pf start sum m o m' :
  current_mapping pf start sum m = (o, m') ->
  m' = m /\
  ((exists cur, o = Return cur /\ forall r, cur = Some r -> region m = Some r) \/
   exists u, o = Undefined u).
Proof.
  unfold current_mapping.
  rewrite (bind_step _ _ _ _ _ (eq_refl : get_state m = (Return m, m))).
  destruct (region m) as [r|].
  - destruct (mapping_start m <=? start).
    + destruct (size_t_bits pf).
      * unfold bind, i64. destruct (is_int64 (mapping_start m + get_size r)).
        -- intro H. inversion H. split; [reflexivity|]. left. eexists.
           split; [reflexivity|].
           intros r0.
           match goal with |- (if ?b then _ else _) = _ -> _ => destruct b end;
             intro E; inversion E; reflexivity.
        -- intro H. inversion H. split; [reflexivity|]. right. eauto.
      * intro H. inversion H. split; [reflexivity|]. left. eexists.
        split; [reflexivity|].
        intros r0.
        match goal with |- (if ?b then _ else _) = _ -> _ => destruct b end;
          intro E; inversion E; reflexivity.
    + intro H. inversion H. split; [reflexivity|]. left. eexists.
      split; [reflexivity|]. intros r0 E. discriminate E.
  - intro H. inversion H. split; [reflexivity|]. left. eexists.
    split; [reflexivity|]. intros r0 E. discriminate E.
Qed.

Lemma remap_cases pf start new_start size m o m' :
  remap pf start new_start size m = (o, m') ->
  remapped pf start new_start size m o m'.
Proof.
  unfold remap, remapped.
  destruct (map_view pf new_start size); intro H; inversion H; cbn; auto 10.
Qed.

Ltac step_i64 H :=
  apply bind_cases in H;
  let v := fresh "v" in
  let s1 := fresh "s" in
  let Hc := fresh "Hc" in
  let e := fresh "e" in
  let u := fresh "u" in
  destruct H as [(v & s1 & Hc & H) | [(e & Hc & _) | (u & Hc & ->)]];
  [ apply i64_cases in Hc; destruct Hc as [-> [Hc | Hc]];
    [inversion Hc; subst v; clear Hc | discriminate Hc]
  | apply i64_cases in Hc; destruct Hc as [_ [Hc | Hc]]; discriminate Hc
  | apply i64_cases in Hc; destruct Hc as [-> _] ].

(** Every way a call of [EnsureRangeAccessible] can end: with the mapper
    as it was, or after the construction of a region was attempted. *)
Lemma EnsureRangeAccessible_cases pf fsize start length m o m' :
  EnsureRangeAccessible pf fsize start length m = (o, m') ->
  (m' = m /\
   ((o = Throw (AudioDecodeError "Attempted to map beyond end of file") /\
     fsize < start + length) \/
    (exists u, o = Undefined u) \/
    (start + length <= fsize /\
     exists r, region m = Some r /\
               o = Return {| ptr_serial := serial r;
                             ptr_offset := start - mapping_start m |}))) \/
  (start + length <= fsize /\
   exists new_start size, remapped pf start new_start size m o m').
Proof.
  unfold EnsureRangeAccessible. intro H.
  step_i64 H; [|left; split; [reflexivity|]; right; left; eauto].
  destruct (start + length >? fsize) eqn:Hgt.
  { inversion H; subst. left. split; [reflexivity|]. left.
    split; [reflexivity|]. rewrite Z.gtb_ltb in Hgt. apply Z.ltb_lt in Hgt. lia. }
  assert (Hle : start + length <= fsize).
  { rewrite Z.gtb_ltb in Hgt. apply Z.ltb_ge in Hgt. exact Hgt. }
  apply bind_cases in H.
  destruct H as [(cur & s1 & Hc & H) | [(e & Hc & _) | (u & Hc & ->)]];
    apply current_mapping_cases in Hc;
    destruct Hc as [-> [(cur' & Hcur & Hreg) | (u' & Hu)]];
    try discriminate.
  2: { left. split; [reflexivity|]. right. left. eauto. }
  inversion Hcur; subst cur'. clear Hcur.
  destruct cur as [r|].
  - unfold bind, get_state, ret in H. inversion H; subst.
    left. split; [reflexivity|]. right. right. split; [exact Hle|].
    exists r. split; [apply Hreg; reflexivity | reflexivity].
  - destruct (size_t_bits pf).
    + do 4 (step_i64 H; [|left; split; [reflexivity|]; right; left; eauto]).
      right. split; [exact Hle|]. eexists _, _. apply remap_cases. exact H.
    + right. split; [exact Hle|]. eexists _, _. apply remap_cases. exact H.
Qed.

Lemma mapper_wf_sync fsize m : mapper_wf fsize m -> mapper_sync m.
Proof.
  unfold mapper_wf, mapper_sync. destruct (region m); [tauto | auto].
Qed.

Lemma mapper_wf_window_ok fsize m r :
  fsize <= INT64_MAX -> mapper_wf fsize m -> region m = Some r -> window_ok m r.
Proof.
  unfold mapper_wf, window_ok. intros Hmax Hwf Hr. rewrite Hr in Hwf.
  destruct Hwf as (Hoff & H0 & Hsz & Hend). lia.
Qed.

(** ** The mapper: served ranges *)

(** X1: on a platform that grants every view, for a file that, where
    size_t has 32 bits, has at most 2^32 - 2^20 bytes, and from any mapper
    whose window, if there is one, lies in the file where mapping_start
    says: a request for a range inside the file, with start and length not
    negative, returns a pointer through which every part of the requested
    range reads as the bytes of the file at that place; and as long as no
    other range is requested, a request for any part of the range is
    answered from the same window, by the same pointer moved to that part,
    without a new region.  Both widths of size_t, within that bound. *)
Theorem EnsureRangeAccessible_serves_parts :
  forall (pf : platform) (f : file) (m : mapper) (start length : Z),
    let fsize := Z.of_nat (List.length f) in
    dependable pf fsize -> fsize <= INT64_MAX -> mapper_wf fsize m ->
    0 <= start -> 0 <= length -> start + length <= fsize ->
    exists p m',
      EnsureRangeAccessible pf fsize start length m = (Return p, m') /\
      mapper_wf fsize m' /\
      forall off n, 0 <= off -> 0 <= n -> off + n <= length ->
        load f (ptr_add p off) n m'
          = (Return (bytes_at f (start + off) n), m') /\
        EnsureRangeAccessible pf fsize (start + off) n m'
          = (Return (ptr_add p off), m').
Proof.
  intros pf f m start length fsize Hpf Hmax Hwf Hs Hl Hin.
  destruct (EnsureRangeAccessible_serves pf f Hpf Hmax m start length Hwf Hs Hl Hin)
    as (p & m' & Hera & Hwf' & Hload & Hp).
  destruct (EnsureRangeAccessible_returns _ _ _ _ _ _ _ (mapper_wf_sync _ _ Hwf) Hera)
    as (_ & _ & r & Hr & Hser & Hoff).
  pose proof (mapper_wf_window_ok _ _ _ Hmax Hwf' Hr) as Hok.
  pose proof Hwf' as Hw. unfold mapper_wf in Hw. rewrite Hr in Hw.
  destruct Hw as (Hms & H0 & Hsz & Hend).
  assert (Hfit : 0 <= ptr_offset p /\ ptr_offset p + length <= get_size r).
  { unfold load in Hload. rewrite Hr in Hload.
    destruct (0 <=? ptr_offset p) eqn:E1;
      [|rewrite andb_false_r in Hload; discriminate Hload].
    destruct (ptr_offset p + length <=? get_size r) eqn:E2;
      [|rewrite andb_false_r in Hload; discriminate Hload].
    apply Z.leb_le in E1, E2. lia. }
  exists p, m'. split; [exact Hera|]. split; [exact Hwf'|].
  intros off n Hoff0 Hn Hpart. split; [apply Hp; assumption|].
  assert (Hmx : INT64_MAX = 2 ^ 63 - 1) by reflexivity.
  assert (Hmn : INT64_MIN = - 2 ^ 63) by reflexivity.
  rewrite (EnsureRangeAccessible_reuses pf fsize (start + off) n m' r
             ltac:(apply is_int64_true; lia) ltac:(lia) Hr Hok Hn
             ltac:(unfold covers; lia)).
  f_equal. f_equal. unfold ptr_add. f_equal; [exact Hser | lia].
Qed.

Lemma EnsureRangeAccessible_serves_parts_witness :
  exists p m',
    EnsureRangeAccessible ilp32 60 44 16 unmapped = (Return p, m') /\
    mapper_wf 60 m' /\
    forall off n, 0 <= off -> 0 <= n -> off + n <= 16 ->
      load (stereo16_wav ramp) (ptr_add p off) n m'
        = (Return (bytes_at (stereo16_wav ramp) (44 + off) n), m') /\
      EnsureRangeAccessible ilp32 60 (44 + off) n m'
        = (Return (ptr_add p off), m').
Proof.
  apply (EnsureRangeAccessible_serves_parts ilp32 (stereo16_wav ramp) unmapped 44 16).
  - split; [reflexivity | intros _; vm_compute; discriminate].
  - vm_compute. discriminate.
  - exact I.
  - lia.
  - lia.
  - vm_compute. discriminate.
Defined.

(** ** The mapper: failures *)

(** X2: a call of EnsureRangeAccessible throws nothing but the decode
    error, in one of two ways.  Either the range ends past the end of the
    file, and the mapper is as it was; or the range is inside the file, a
    view was asked for and refused, and then the region that was mapped
    before is still the mapped one and no region was created, while
    mapping_start already has the offset of the refused view. *)
Theorem EnsureRangeAccessible_failures :
  forall (pf : platform) (fsize start length : Z) (m m' : mapper) (e : exception),
    EnsureRangeAccessible pf fsize start length m = (Throw e, m') ->
    (e = AudioDecodeError "Attempted to map beyond end of file" /\
     fsize < start + length /\ m' = m) \/
    (e = AudioDecodeError "Failed mapping a view of the file" /\
     start + length <= fsize /\
     region m' = region m /\ regions_created m' = regions_created m /\
     exists size, map_view pf (mapping_start m') size = false).
Proof.
  intros pf fsize start length m m' e H.
  apply EnsureRangeAccessible_cases in H.
  destruct H as [[-> [[He Hpast] | [[u Hu] | (_ & r & _ & Hr)]]]
                | (Hle & new_start & size & Hms & [Hok | Hno])];
    try discriminate.
  - inversion He. left. auto.
  - destruct Hok as (_ & Ho & _). discriminate Ho.
  - destruct Hno as (Hview & Ho & Hreg & Hcount). inversion Ho.
    right. repeat (split; [assumption || reflexivity|]).
    exists size. rewrite Hms. exact Hview.
Qed.

Lemma EnsureRangeAccessible_failures_witness :
  (AudioDecodeError "Failed mapping a view of the file"
     = AudioDecodeError "Attempted to map beyond end of file" /\
   60 < 0 + 12 /\
   {| region := None; mapping_start := 0; regions_created := 0 |} = unmapped) \/
  (AudioDecodeError "Failed mapping a view of the file"
     = AudioDecodeError "Failed mapping a view of the file" /\
   0 + 12 <= 60 /\
   region {| region := None; mapping_start := 0; regions_created := 0 |}
     = region unmapped /\
   regions_created {| region := None; mapping_start := 0; regions_created := 0 |}
     = regions_created unmapped /\
   exists size,
     map_view refusing
       (mapping_start {| region := None; mapping_start := 0; regions_created := 0 |})
       size = false).
Proof.
  apply (EnsureRangeAccessible_failures refusing 60 0 12 unmapped).
  vm_compute. reflexivity.
Defined.

(** ** The mapper: the window that is mapped *)

Lemma current_mapping_uncovered pf fsize m start sum :
  mapper_wf fsize m -> fsize <= INT64_MAX -> 0 <= sum <= INT64_MAX ->
  (forall r, region m = Some r ->
             ~ (mapping_start m <= start /\ sum <= mapping_start m + get_size r)) ->
  current_mapping pf start sum m = (Return None, m).
Proof.
  intros Hwf Hmax Hsum Hno. unfold current_mapping.
  rewrite (bind_step _ _ _ _ _ (eq_refl : get_state m = (Return m, m))).
  unfold mapper_wf in Hwf.
  destruct (region m) as [r|]; [|reflexivity].
  destruct Hwf as (Hoff & H0 & Hsz & Hend).
  specialize (Hno r eq_refl).
  assert (Hb : INT64_MAX = 2 ^ 63 - 1) by reflexivity.
  assert (Hb' : INT64_MIN = - 2 ^ 63) by reflexivity.
  destruct (mapping_start m <=? start) eqn:Hms; [|reflexivity].
  apply Z.leb_le in Hms.
  destruct (size_t_bits pf).
  - rewrite bind_i64 by (apply is_int64_true; lia).
    rewrite leb_false by lia. reflexivity.
  - rewrite !uint_small by lia. rewrite leb_false by lia. reflexivity.
Qed.

Lemma window_start_32_bounds start :
  0 <= start ->
  0 <= window_start_32 start <= start /\
  start - window_start_32 start = start mod 1048576 /\
  0 <= start mod 1048576 < 1048576.
Proof.
  intro Hs. unfold window_start_32.
  pose proof (Z.mod_pos_bound start 1048576 ltac:(lia)).
  pose proof (Z.div_mod start 1048576 ltac:(lia)).
  pose proof (Z.div_pos start 1048576 Hs ltac:(lia)). lia.
Qed.

Lemma window_size_32_bounds fsize start length :
  0 <= start -> 0 <= length -> start + length <= fsize ->
  start + length <= window_start_32 start + window_size_32 fsize start length /\
  window_start_32 start + window_size_32 fsize start length <= fsize /\
  0 <= window_size_32 fsize start length /\
  (16777216 <= window_size_32 fsize start length \/
   window_start_32 start + window_size_32 fsize start length = fsize).
Proof.
  intros Hs Hl Hin. unfold window_size_32.
  destruct (window_start_32_bounds start Hs) as (HA & Hd & Hm).
  set (L := length + start mod 1048576) in *.
  pose proof (Z.mod_pos_bound (L + 1048575) 1048576 ltac:(lia)).
  pose proof (Z.div_mod (L + 1048575) 1048576 ltac:(lia)).
  unfold L in *. lia.
Qed.

(** On a 32-bit build a request the window does not cover asks for the
    view at [window_start_32] of [window_size_32] bytes. *)
Lemma EnsureRangeAccessible_remaps_32 pf fsize m start length :
  size_t_bits pf = Bits32 -> fsize <= 2 ^ 32 - 2 ^ 20 ->
  mapper_wf fsize m -> 0 <= start -> 0 <= length -> start + length <= fsize ->
  (forall r, region m = Some r -> ~ covers m r start length) ->
  EnsureRangeAccessible pf fsize start length m
  = remap pf start (window_start_32 start)
      (window_size_32 fsize start length) m.
Proof.
  intros Hbits H32 Hwf Hs Hl Hin Hno.
  assert (Hb : INT64_MAX = 2 ^ 63 - 1) by reflexivity.
  assert (Hb' : INT64_MIN = - 2 ^ 63) by reflexivity.
  change (2 ^ 32 - 2 ^ 20) with 4293918720 in H32.
  unfold EnsureRangeAccessible.
  rewrite bind_i64 by (apply is_int64_true; lia).
  rewrite gtb_false by lia.
  rewrite (bind_step _ _ _ _ _
             (current_mapping_uncovered pf fsize m start (start + length) Hwf
                ltac:(lia) ltac:(lia) Hno)).
  rewrite Hbits.
  rewrite align_down_uint64 by lia.
  destruct (window_start_32_bounds start Hs) as (HA & Hd & Hm).
  destruct (window_size_32_bounds fsize start length Hs Hl Hin) as (Hc & He & Hz & _).
  unfold window_size_32 in *.
  fold (window_start_32 start).
  set (A := window_start_32 start) in *.
  rewrite (sint_small 64 A) by (change (64 - 1) with 63; lia).
  cbv zeta.
  rewrite bind_i64 by (apply is_int64_true; lia).
  rewrite (uint_small 32) by lia.
  rewrite bind_i64 by (apply is_int64_true; lia).
  rewrite bind_i64 by (apply is_int64_true; lia).
  rewrite bind_i64 by (apply is_int64_true; lia).
  rewrite align_down. rewrite Hd.
  set (L := length + start mod 1048576) in *.
  set (T := 1048576 * ((L + 1048575) / 1048576)) in *.
  assert (HT : L <= T <= L + 1048575).
  { unfold T. pose proof (Z.mod_pos_bound (L + 1048575) 1048576 ltac:(lia)).
    pose proof (Z.div_mod (L + 1048575) 1048576 ltac:(lia)). lia. }
  rewrite !(uint_small 32)
    by (change (2 ^ 32) with 4294967296; unfold L in *; lia).
  reflexivity.
Qed.

(** X3: on a build with a 32-bit size_t, for a file of at most
    2^32 - 2^20 bytes (beyond which the size of the window, computed in
    size_t, is cut to 32 bits), and from a mapper whose window, if there
    is one, lies in the file where mapping_start says: a request inside
    the file, with start and length not negative, that the window in place
    does not cover replaces the window, provided the view of the new
    window is granted.  The new window
    starts at the multiple of 1 MiB at or below [start]; it holds 16 MiB,
    or the request rounded up to whole MiB when that is more, cut at the end
    of the file; so it covers the request, lies inside the file, and is
    shorter than 16 MiB only when it ends with the file.  The pointer
    returned is [start mod 1 MiB] bytes into it. *)
Theorem EnsureRangeAccessible_window_32 :
  forall (pf : platform) (fsize : Z) (m : mapper) (start length : Z),
    size_t_bits pf = Bits32 -> fsize <= 2 ^ 32 - 2 ^ 20 ->
    mapper_wf fsize m -> 0 <= start -> 0 <= length -> start + length <= fsize ->
    (forall r, region m = Some r -> ~ covers m r start length) ->
    map_view pf (window_start_32 start) (window_size_32 fsize start length) = true ->
    exists m' r,
      EnsureRangeAccessible pf fsize start length m
        = (Return {| ptr_serial := serial r;
                     ptr_offset := start mod 1048576 |}, m') /\
      region m' = Some r /\ mapper_wf fsize m' /\
      serial r = S (regions_created m) /\
      get_offset r = window_start_32 start /\
      get_size r = window_size_32 fsize start length /\
      get_offset r mod 1048576 = 0 /\
      get_offset r <= start < get_offset r + 1048576 /\
      covers m' r start length /\
      get_offset r + get_size r <= fsize /\
      (16777216 <= get_size r \/ get_offset r + get_size r = fsize).
Proof.
  intros pf fsize m start length Hbits H32 Hwf Hs Hl Hin Hno Hview.
  rewrite (EnsureRangeAccessible_remaps_32 pf fsize m start length)
    by assumption.
  destruct (window_start_32_bounds start Hs) as (HA & Hd & Hm).
  destruct (window_size_32_bounds fsize start length Hs Hl Hin)
    as (Hc & He & Hz & Hbig).
  unfold remap. rewrite Hview. rewrite Hd.
  eexists _, _. split; [reflexivity|].
  cbn [region mapping_start regions_created get_offset get_size serial].
  split; [reflexivity|].
  split.
  { unfold mapper_wf.
    cbn [region mapping_start regions_created get_offset get_size serial]. lia. }
  split; [reflexivity|]. split; [reflexivity|]. split; [reflexivity|].
  split.
  { unfold window_start_32. rewrite Z.mul_comm. apply Z.mod_mul. lia. }
  split; [lia|].
  split.
  { unfold covers.
    cbn [region mapping_start regions_created get_offset get_size serial]. lia. }
  split; [lia | exact Hbig].
Qed.

Lemma EnsureRangeAccessible_window_32_witness :
  exists m' r,
    EnsureRangeAccessible ilp32 67108864 20000000 8
      {| region := Some {| get_offset := 0; get_size := 16777216; serial := 1 |};
         mapping_start := 0; regions_created := 1 |}
      = (Return {| ptr_serial := serial r;
                   ptr_offset := 20000000 mod 1048576 |}, m') /\
    region m' = Some r /\ mapper_wf 67108864 m' /\
    serial r = 2%nat /\
    get_offset r = window_start_32 20000000 /\
    get_size r = window_size_32 67108864 20000000 8 /\
    get_offset r mod 1048576 = 0 /\
    get_offset r <= 20000000 < get_offset r + 1048576 /\
    covers m' r 20000000 8 /\
    get_offset r + get_size r <= 67108864 /\
    (16777216 <= get_size r \/ get_offset r + get_size r = 67108864).
Proof.
  apply (EnsureRangeAccessible_window_32 ilp32 67108864
           {| region := Some {| get_offset := 0; get_size := 16777216; serial := 1 |};
              mapping_start := 0; regions_created := 1 |} 20000000 8).
  - reflexivity.
  - vm_compute. discriminate.
  - vm_compute. repeat split; discriminate.
  - lia.
  - lia.
  - lia.
  - intros r Hr. inversion Hr; subst r. unfold covers. cbn. lia.
  - reflexivity.
Defined.

(** X30: why files on a 32-bit build are bounded above.  The rest of the
    file after the start of the new window is computed in int64_t and
    handed to std::min<size_t> (line 81), which cuts it to 32 bits.  When
    at least 4 GiB of the file follow the start of the window, what is
    left after the cut can be less than the request needs; the window
    mapped is then that short, the call returns all the same, and the
    pointer it returns, advanced by the length requested, passes the end
    of the region: a read of the requested bytes through it is outside the
    mapping. *)
Theorem EnsureRangeAccessible_window_cut_32 :
  forall (pf : platform) (fsize : Z) (m : mapper) (start length : Z),
    let w := window_start_32 start in
    let left := (fsize - w) mod 2 ^ 32 in
    size_t_bits pf = Bits32 -> fsize <= INT64_MAX ->
    mapper_wf fsize m -> 0 <= start -> 0 <= length < 2 ^ 31 ->
    start + length <= fsize ->
    (forall r, region m = Some r -> ~ covers m r start length) ->
    left < start - w + length ->
    map_view pf w left = true ->
    exists m' r,
      EnsureRangeAccessible pf fsize start length m
        = (Return {| ptr_serial := serial r; ptr_offset := start - w |}, m') /\
      region m' = Some r /\ get_offset r = w /\ get_size r = left /\
      ~ window_covers r start length /\
      forall f : file,
        load f {| ptr_serial := serial r; ptr_offset := start - w |} length m'
        = (Undefined InvalidPointer, m').
Proof.
  intros pf fsize m start length w left Hbits Hmax Hwf Hs Hl Hin Hno Hcut Hview.
  assert (Hb : INT64_MAX = 2 ^ 63 - 1) by reflexivity.
  assert (Hb' : INT64_MIN = - 2 ^ 63) by reflexivity.
  destruct (window_start_32_bounds start Hs) as (HA & Hd & Hm).
  fold w in HA, Hd.
  assert (Hleft : 0 <= left < 2 ^ 32)
    by (apply Z.mod_pos_bound; reflexivity).
  assert (Hera : EnsureRangeAccessible pf fsize start length m
                 = remap pf start w left m).
  { unfold EnsureRangeAccessible.
    rewrite bind_i64 by (apply is_int64_true; lia).
    rewrite gtb_false by lia.
    rewrite (bind_step _ _ _ _ _
               (current_mapping_uncovered pf fsize m start (start + length) Hwf
                  Hmax ltac:(lia) Hno)).
    rewrite Hbits.
    rewrite align_down_uint64 by lia.
    fold (window_start_32 start). fold w.
    rewrite (sint_small 64 w) by (change (64 - 1) with 63; lia).
    cbv zeta.
    rewrite bind_i64 by (apply is_int64_true; lia).
    rewrite (uint_small 32 (start - w))
      by (change (2 ^ 32) with 4294967296; lia).
    rewrite bind_i64 by (apply is_int64_true; lia).
    rewrite bind_i64 by (apply is_int64_true; lia).
    rewrite bind_i64 by (apply is_int64_true; lia).
    rewrite align_down.
    set (L := length + (start - w)) in *.
    set (T := 1048576 * ((L + 1048575) / 1048576)) in *.
    assert (HT : L <= T <= L + 1048575).
    { unfold T. pose proof (Z.mod_pos_bound (L + 1048575) 1048576 ltac:(lia)).
      pose proof (Z.div_mod (L + 1048575) 1048576 ltac:(lia)). lia. }
    rewrite (uint_small 32 T)
      by (change (2 ^ 32) with 4294967296; change (2 ^ 31) with 2147483648 in Hl;
          unfold L in *; lia).
    change (uint 32 (fsize - w)) with left.
    f_equal. unfold L in *. lia. }
  unfold remap in Hera. rewrite Hview in Hera.
  eexists _, _. split; [exact Hera|].
  cbn [region get_offset get_size serial].
  split; [reflexivity|]. split; [reflexivity|]. split; [reflexivity|].
  split.
  - unfold window_covers. cbn [get_offset get_size]. lia.
  - intro f. unfold load. cbn [region serial ptr_serial ptr_offset get_size].
    rewrite Nat.eqb_refl.
    replace (start - w + length <=? left) with false
      by (symmetry; apply Z.leb_gt; lia).
    rewrite !andb_false_r. reflexivity.
Qed.

Lemma EnsureRangeAccessible_window_cut_32_witness :
  exists m' r,
    EnsureRangeAccessible ilp32 (2 ^ 32 + 100) 200 8 unmapped
      = (Return {| ptr_serial := serial r; ptr_offset := 200 |}, m') /\
    region m' = Some r /\ get_offset r = 0 /\ get_size r = 100 /\
    ~ window_covers r 200 8 /\
    forall f : file,
      load f {| ptr_serial := serial r; ptr_offset := 200 |} 8 m'
      = (Undefined InvalidPointer, m').
Proof.
  apply (EnsureRangeAccessible_window_cut_32 ilp32 (2 ^ 32 + 100) unmapped 200 8).
  - reflexivity.
  - vm_compute. discriminate.
  - exact I.
  - lia.
  - lia.
  - lia.
  - intros r Hr. discriminate Hr.
  - vm_compute. reflexivity.
  - reflexivity.
Defined.

(** On a 64-bit build a request inside the file, made when no region is
    mapped, maps the whole file. *)
Lemma EnsureRangeAccessible_maps_whole_file pf fsize m start length :
  size_t_bits pf = Bits64 -> map_view pf 0 fsize = true ->
  fsize <= INT64_MAX -> region m = None ->
  0 <= start -> 0 <= length -> start + length <= fsize ->
  EnsureRangeAccessible pf fsize start length m
  = (Return {| ptr_serial := S (regions_created m); ptr_offset := start |},
     {| region := Some {| get_offset := 0; get_size := fsize;
                          serial := S (regions_created m) |};
        mapping_start := 0;
        regions_created := S (regions_created m) |}).
Proof.
  intros Hbits Hview Hmax Hnone Hs Hl Hin.
  assert (Hb : INT64_MAX = 2 ^ 63 - 1) by reflexivity.
  assert (Hb' : INT64_MIN = - 2 ^ 63) by reflexivity.
  unfold EnsureRangeAccessible.
  rewrite bind_i64 by (apply is_int64_true; lia).
  rewrite gtb_false by lia.
  unfold current_mapping.
  rewrite bind_assoc.
  rewrite (bind_step _ _ _ _ _ (eq_refl : get_state m = (Return m, m))).
  rewrite Hnone.
  rewrite (bind_step _ _ _ _ _ (eq_refl : ret None m = (Return None, m))).
  rewrite Hbits. unfold remap. rewrite Hview. cbn.
  rewrite Z.sub_0_r. reflexivity.
Qed.

(** X4: on a build with a 64-bit size_t, the first request inside the file
    maps the whole file, and from then on every request inside the file is
    answered from that region by the pointer at [start] bytes into it: the
    mapper does not change again and no second region is created. *)
Theorem EnsureRangeAccessible_whole_file_64 :
  forall (pf : platform) (fsize : Z) (m : mapper) (start length : Z),
    size_t_bits pf = Bits64 -> map_view pf 0 fsize = true ->
    fsize <= INT64_MAX -> region m = None ->
    0 <= start -> 0 <= length -> start + length <= fsize ->
    exists m',
      EnsureRangeAccessible pf fsize start length m
        = (Return {| ptr_serial := S (regions_created m);
                     ptr_offset := start |}, m') /\
      m' = {| region := Some {| get_offset := 0; get_size := fsize;
                                serial := S (regions_created m) |};
              mapping_start := 0;
              regions_created := S (regions_created m) |} /\
      forall start2 length2,
        0 <= start2 -> 0 <= length2 -> start2 + length2 <= fsize ->
        EnsureRangeAccessible pf fsize start2 length2 m'
          = (Return {| ptr_serial := S (regions_created m);
                       ptr_offset := start2 |}, m').
Proof.
  intros pf fsize m start length Hbits Hview Hmax Hnone Hs Hl Hin.
  assert (Hb : INT64_MAX = 2 ^ 63 - 1) by reflexivity.
  assert (Hb' : INT64_MIN = - 2 ^ 63) by reflexivity.
  eexists. split; [|split; [reflexivity|]].
  - apply EnsureRangeAccessible_maps_whole_file; assumption.
  - intros start2 length2 Hs2 Hl2 Hin2.
    match goal with
    | |- EnsureRangeAccessible _ _ _ _ ?m1 = _ =>
        rewrite (EnsureRangeAccessible_reuses pf fsize start2 length2 m1
                   {| get_offset := 0; get_size := fsize;
                      serial := S (regions_created m) |}
                   ltac:(apply is_int64_true; lia) Hin2 eq_refl
                   ltac:(unfold window_ok; cbn; lia) Hl2
                   ltac:(unfold covers; cbn; lia))
    end.
    cbn. rewrite Z.sub_0_r. reflexivity.
Qed.

Lemma EnsureRangeAccessible_whole_file_64_witness :
  exists m',
    EnsureRangeAccessible lp64 60 44 16 unmapped
      = (Return {| ptr_serial := 1; ptr_offset := 44 |}, m') /\
    m' = {| region := Some {| get_offset := 0; get_size := 60; serial := 1 |};
            mapping_start := 0; regions_created := 1 |} /\
    forall start2 length2,
      0 <= start2 -> 0 <= length2 -> start2 + length2 <= 60 ->
      EnsureRangeAccessible lp64 60 start2 length2 m'
        = (Return {| ptr_serial := 1; ptr_offset := start2 |}, m').
Proof.
  apply (EnsureRangeAccessible_whole_file_64 lp64 60 unmapped 44 16).
  - reflexivity.
  - reflexivity.
  - vm_compute. discriminate.
  - reflexivity.
  - lia.
  - lia.
  - lia.
Defined.

(** On a 64-bit build a negative [start] passes both tests. *)
Lemma EnsureRangeAccessible_negative_64 pf fsize m start length :
  size_t_bits pf = Bits64 -> map_view pf 0 fsize = true ->
  fsize <= INT64_MAX -> 0 <= mapping_start m ->
  INT64_MIN <= start < 0 -> 0 <= length -> start + length <= fsize ->
  EnsureRangeAccessible pf fsize start length m
  = (Return {| ptr_serial := S (regions_created m); ptr_offset := start |},
     {| region := Some {| get_offset := 0; get_size := fsize;
                          serial := S (regions_created m) |};
        mapping_start := 0;
        regions_created := S (regions_created m) |}).
Proof.
  intros Hbits Hview Hmax Hms Hs Hl Hin.
  assert (Hb : INT64_MAX = 2 ^ 63 - 1) by reflexivity.
  assert (Hb' : INT64_MIN = - 2 ^ 63) by reflexivity.
  assert (Hcur : current_mapping pf start (start + length) m = (Return None, m)).
  { unfold current_mapping.
    rewrite (bind_step _ _ _ _ _ (eq_refl : get_state m = (Return m, m))).
    destruct (region m); [|reflexivity].
    rewrite leb_false by lia. reflexivity. }
  unfold EnsureRangeAccessible.
  rewrite bind_i64 by (apply is_int64_true; lia).
  rewrite gtb_false by lia.
  rewrite (bind_step _ _ _ _ _ Hcur).
  rewrite Hbits. unfold remap. rewrite Hview. cbn.
  rewrite Z.sub_0_r. reflexivity.
Qed.

(** X5: the test against the end of the file is the only test of the
    range.  On a 64-bit build a negative [start] is not refused: the whole
    file is mapped and the pointer returned lies [- start] bytes before the
    region, so that nothing can be read through it. *)
Theorem EnsureRangeAccessible_negative_start :
  forall (pf : platform) (f : file) (m : mapper) (start length : Z),
    let fsize := Z.of_nat (List.length f) in
    size_t_bits pf = Bits64 -> map_view pf 0 fsize = true ->
    fsize <= INT64_MAX -> 0 <= mapping_start m ->
    INT64_MIN <= start < 0 -> 0 <= length -> start + length <= fsize ->
    exists m',
      EnsureRangeAccessible pf fsize start length m
        = (Return {| ptr_serial := S (regions_created m);
                     ptr_offset := start |}, m') /\
      region m' = Some {| get_offset := 0; get_size := fsize;
                          serial := S (regions_created m) |} /\
      forall off n, off < - start ->
        load f (ptr_add {| ptr_serial := S (regions_created m);
                           ptr_offset := start |} off) n m'
          = (Undefined InvalidPointer, m').
Proof.
  intros pf f m start length fsize Hbits Hview Hmax Hms Hs Hl Hin.
  eexists. split; [|split].
  - apply EnsureRangeAccessible_negative_64; assumption.
  - reflexivity.
  - intros off n Hoff. unfold load. cbn.
    rewrite (leb_false 0 (start + off)) by lia.
    rewrite andb_false_r. reflexivity.
Qed.

Lemma EnsureRangeAccessible_negative_start_witness :
  exists m',
    EnsureRangeAccessible lp64 60 (-8) 8 unmapped
      = (Return {| ptr_serial := 1; ptr_offset := -8 |}, m') /\
    region m' = Some {| get_offset := 0; get_size := 60; serial := 1 |} /\
    forall off n, off < - (-8) ->
      load (stereo16_wav ramp) (ptr_add {| ptr_serial := 1; ptr_offset := -8 |} off) n m'
        = (Undefined InvalidPointer, m').
Proof.
  apply (EnsureRangeAccessible_negative_start lp64 (stereo16_wav ramp) unmapped (-8) 8).
  - reflexivity.
  - reflexivity.
  - vm_compute. discriminate.
  - cbn. lia.
  - vm_compute. split; [discriminate | reflexivity].
  - lia.
  - vm_compute. discriminate.
Defined.

(** X6: mapping_start is assigned before the view is asked for.  On a
    32-bit build, when the view for a request outside the window is
    refused, the call throws and leaves the old region mapped under the new
    mapping_start.  A later request that lies between the new
    mapping_start and that offset plus the size of the old region passes
    the test of the current mapping: it is answered, without a new region,
    by a pointer into the old region that stands at another byte of the
    file than the one requested, as far from it as the old region is from
    the new mapping_start. *)
Theorem EnsureRangeAccessible_after_refused_view :
  forall (pf : platform) (fsize : Z) (m : mapper) (r : mapped_region)
         (start length start2 length2 : Z),
    size_t_bits pf = Bits32 -> fsize <= 2 ^ 32 - 2 ^ 20 ->
    mapper_wf fsize m -> region m = Some r ->
    0 <= start -> 0 <= length -> start + length <= fsize ->
    ~ covers m r start length ->
    map_view pf (window_start_32 start) (window_size_32 fsize start length) = false ->
    window_start_32 start <= start2 -> 0 <= length2 ->
    start2 + length2 <= window_start_32 start + get_size r ->
    start2 + length2 <= fsize ->
    exists m1 p,
      EnsureRangeAccessible pf fsize start length m
        = (Throw (AudioDecodeError "Failed mapping a view of the file"), m1) /\
      region m1 = Some r /\ mapping_start m1 = window_start_32 start /\
      EnsureRangeAccessible pf fsize start2 length2 m1 = (Return p, m1) /\
      denotes m1 p (start2 - (window_start_32 start - get_offset r)).
Proof.
  intros pf fsize m r start length start2 length2 Hbits H32 Hwf Hr Hs Hl Hin
    Hno Hview Hs2 Hl2 Hcov2 Hin2.
  assert (Hb : INT64_MAX = 2 ^ 63 - 1) by reflexivity.
  assert (Hb' : INT64_MIN = - 2 ^ 63) by reflexivity.
  change (2 ^ 32 - 2 ^ 20) with 4293918720 in H32.
  destruct (window_start_32_bounds start Hs) as (HA & Hd & Hm).
  pose proof Hwf as Hw. unfold mapper_wf in Hw. rewrite Hr in Hw.
  destruct Hw as (Hoff & H0 & Hsz & Hend).
  eexists _, _. split; [|split; [|split; [|split]]].
  - rewrite (EnsureRangeAccessible_remaps_32 pf fsize m start length)
      by (try assumption;
          intros r' Hr'; rewrite Hr in Hr'; inversion Hr'; subst r'; exact Hno).
    unfold remap. rewrite Hview. reflexivity.
  - exact Hr.
  - reflexivity.
  - apply (EnsureRangeAccessible_reuses pf fsize start2 length2 _ r).
    + apply is_int64_true. lia.
    + exact Hin2.
    + exact Hr.
    + unfold window_ok. cbn [mapping_start]. lia.
    + exact Hl2.
    + unfold covers. cbn [mapping_start]. lia.
  - exists r. cbn [region ptr_serial ptr_offset mapping_start].
    split; [exact Hr|]. split; [reflexivity|]. lia.
Qed.

Lemma EnsureRangeAccessible_after_refused_view_witness :
  exists m1 p,
    EnsureRangeAccessible first_window_only 67108864 20000000 8
      {| region := Some {| get_offset := 0; get_size := 16777216; serial := 1 |};
         mapping_start := 0; regions_created := 1 |}
      = (Throw (AudioDecodeError "Failed mapping a view of the file"), m1) /\
    region m1 = Some {| get_offset := 0; get_size := 16777216; serial := 1 |} /\
    mapping_start m1 = window_start_32 20000000 /\
    EnsureRangeAccessible first_window_only 67108864 21000000 8 m1 = (Return p, m1) /\
    denotes m1 p (21000000 - (window_start_32 20000000 - 0)).
Proof.
  apply (EnsureRangeAccessible_after_refused_view first_window_only 67108864
           {| region := Some {| get_offset := 0; get_size := 16777216; serial := 1 |};
              mapping_start := 0; regions_created := 1 |}
           {| get_offset := 0; get_size := 16777216; serial := 1 |}
           20000000 8 21000000 8).
  - reflexivity.
  - vm_compute. discriminate.
  - vm_compute. repeat split; discriminate.
  - reflexivity.
  - lia.
  - lia.
  - lia.
  - unfold covers. cbn. lia.
  - reflexivity.
  - vm_compute. discriminate.
  - lia.
  - vm_compute. discriminate.
  - lia.
Defined.

(** ** FillBuffer *)

Lemma split_provider_built :
  exists m,
    RiffWav.RiffWavPCMAudioProvider lp64 split_wav 4
    = Some (Return split_provider, m).
Proof. eexists. vm_compute. reflexivity. Qed.

Lemma split_provider_well_formed : well_formed split_provider.
Proof.
  constructor.
  - reflexivity.
  - vm_compute. discriminate.
  - reflexivity.
  - reflexivity.
  - cbn. auto.
  - repeat constructor; vm_compute; discriminate.
  - reflexivity.
  - vm_compute. discriminate.
  - repeat constructor; vm_compute; discriminate.
Qed.

Lemma cut_provider_built :
  exists m,
    RiffWav.RiffWavPCMAudioProvider lp64 cut_wav 2
    = Some (Return cut_provider, m).
Proof. eexists. vm_compute. reflexivity. Qed.

Lemma firstn_plus {A} (l : list A) : forall a b,
  firstn (a + b) l = firstn a l ++ firstn b (skipn a l).
Proof.
  induction l as [|x l IH]; intros a b.
  - rewrite skipn_nil, !firstn_nil. reflexivity.
  - destruct a as [|a]; [reflexivity|]. cbn. f_equal. apply IH.
Qed.

Lemma bytes_at_add (l : list byte) off n1 n2 :
  0 <= off -> 0 <= n1 -> 0 <= n2 ->
  bytes_at l off (n1 + n2) = bytes_at l off n1 ++ bytes_at l (off + n1) n2.
Proof.
  intros Hoff H1 H2. unfold bytes_at.
  rewrite !Z2Nat.inj_add by lia.
  rewrite firstn_plus. f_equal. f_equal.
  rewrite skipn_skipn. f_equal. lia.
Qed.

(** The frames FillBuffer copies from a well-formed provider: those of
    [start, start + count) below num_samples, to the start of the
    destination. *)
Lemma FillBuffer_reads pf this start count m dest :
  well_formed this -> dependable pf (file_size this) ->
  mapper_wf (file_size this) m ->
  0 <= start <= INT64_MAX -> count <= INT64_MAX ->
  let n := Z.max 0 (Z.min count (num_samples this - start)) * frame_size this in
  n <= Z.of_nat (List.length dest) ->
  exists m',
    mapper_wf (file_size this) m' /\
    FillBuffer pf this start count (m, dest)
    = (Return tt,
       (m', bytes_at (sample_stream this (index_points this))
              (start * frame_size this) n
            ++ skipn (Z.to_nat n) dest)).
Proof.
  intros Hwf Hpf Hm Hstart Hcount n Hdest.
  destruct Hwf as [Hsize Hmax Hbps Hch Hcont Hnn Htot Htotmax Hin].
  destruct (FillBuffer_from_copies pf this Hsize Hmax Hbps Hch Hpf
              (index_points this) 0 0 start count m dest Hcont Hnn Hin
              ltac:(lia) ltac:(lia) ltac:(lia) ltac:(lia) ltac:(lia) Hm)
    as (m' & Hm' & Hrun).
  { rewrite <- Htot. cbn [Z.add]. exact Hdest. }
  rewrite <- Htot in Hrun. cbn [Z.add] in Hrun.
  fold n in Hrun. rewrite Z.sub_0_r in Hrun. cbn [Z.to_nat firstn app] in Hrun.
  exists m'. split; [exact Hm' | exact Hrun].
Qed.

Lemma stream_slice_length this off n :
  well_formed this -> 0 <= off -> 0 <= n ->
  off + n <= num_samples this * frame_size this ->
  Z.of_nat (List.length
              (bytes_at (sample_stream this (index_points this)) off n)) = n.
Proof.
  intros Hwf Hoff Hn Hfit.
  destruct Hwf as [Hsize Hmax Hbps Hch Hcont Hnn Htot Htotmax Hin].
  apply bytes_at_length; try assumption.
  rewrite sample_stream_length by assumption. rewrite <- Htot. exact Hfit.
Qed.

(** X7: on a well-formed provider, on a platform that grants every view
    and for a file that, where size_t has 32 bits, has at most 2^32 - 2^20
    bytes, a request for frames that all exist
    returns normally and puts at the start of the destination exactly
    [count] frames: the bytes of the frames [start, start + count) of the
    stream made of the payloads of the index points laid end to end, also
    when the frames lie in several index points.  What follows them in the
    destination is left as it was. *)
Theorem FillBuffer_in_range :
  forall (pf : platform) (this : PCMAudioProvider) (start count : Z)
         (m : mapper) (dest : list byte),
    well_formed this ->
    dependable pf (file_size this) ->
    mapper_wf (file_size this) m ->
    0 <= start -> 0 < count -> start + count <= num_samples this ->
    count * frame_size this <= Z.of_nat (List.length dest) ->
    exists m' frames,
      FillBuffer pf this start count (m, dest)
        = (Return tt,
           (m', frames ++ skipn (Z.to_nat (count * frame_size this)) dest)) /\
      frames = bytes_at (sample_stream this (index_points this))
                 (start * frame_size this) (count * frame_size this) /\
      Z.of_nat (List.length frames) = count * frame_size this /\
      mapper_wf (file_size this) m'.
Proof.
  intros pf this start count m dest Hwf Hpf Hm Hstart Hcount Hin Hdest.
  pose proof (wf_total_max this Hwf) as Htotmax.
  pose proof (wf_bps this Hwf) as Hbps.
  pose proof (wf_channels this Hwf) as Hch.
  assert (Hfs : 0 < frame_size this)
    by (unfold frame_size; apply Z.mul_pos_pos; assumption).
  destruct (FillBuffer_reads pf this start count m dest Hwf Hpf Hm
              ltac:(lia) ltac:(lia)) as (m' & Hm' & Hrun).
  { replace (Z.max 0 (Z.min count (num_samples this - start))) with count by lia.
    exact Hdest. }
  replace (Z.max 0 (Z.min count (num_samples this - start))) with count in Hrun
    by lia.
  eexists m', _. split; [exact Hrun|]. split; [reflexivity|].
  split; [|exact Hm'].
  apply stream_slice_length; try assumption; nia.
Qed.

Lemma FillBuffer_in_range_witness :
  exists m' frames,
    FillBuffer lp64 split_provider 1 2 (unmapped, zeros 12)
      = (Return tt,
         (m', frames ++ skipn (Z.to_nat (2 * frame_size split_provider)) (zeros 12))) /\
    frames = bytes_at (sample_stream split_provider (index_points split_provider))
               (1 * frame_size split_provider) (2 * frame_size split_provider) /\
    Z.of_nat (List.length frames) = 2 * frame_size split_provider /\
    mapper_wf (file_size split_provider) m'.
Proof.
  apply (FillBuffer_in_range lp64 split_provider 1 2 unmapped (zeros 12)).
  - exact split_provider_well_formed.
  - split; [reflexivity | discriminate].
  - exact I.
  - lia.
  - lia.
  - vm_compute. discriminate.
  - vm_compute. discriminate.
Defined.

(** X8: on a well-formed provider, on a platform that grants every view
    and for a file that, where size_t has 32 bits, has at most 2^32 - 2^20
    bytes, reading [c1 + c2] existing frames in one call gives the same
    bytes as reading [c1] frames and then the [c2] frames that follow them
    in a second call, whatever windows the calls leave mapped. *)
Theorem FillBuffer_split :
  forall (pf : platform) (this : PCMAudioProvider) (start c1 c2 : Z)
         (m : mapper) (d1 d2 : list byte),
    well_formed this ->
    dependable pf (file_size this) ->
    mapper_wf (file_size this) m ->
    0 <= start -> 0 < c1 -> 0 < c2 -> start + c1 + c2 <= num_samples this ->
    Z.of_nat (List.length d1) = c1 * frame_size this ->
    Z.of_nat (List.length d2) = c2 * frame_size this ->
    exists m1 m2 m12 o1 o2,
      FillBuffer pf this start c1 (m, d1) = (Return tt, (m1, o1)) /\
      FillBuffer pf this (start + c1) c2 (m1, d2) = (Return tt, (m2, o2)) /\
      FillBuffer pf this start (c1 + c2) (m, d1 ++ d2)
        = (Return tt, (m12, o1 ++ o2)).
Proof.
  intros pf this start c1 c2 m d1 d2 Hwf Hpf Hm Hstart Hc1 Hc2 Hin Hd1 Hd2.
  pose proof (wf_total_max this Hwf) as Htotmax.
  pose proof (wf_bps this Hwf) as Hbps.
  pose proof (wf_channels this Hwf) as Hch.
  assert (Hfs : 0 < frame_size this)
    by (unfold frame_size; apply Z.mul_pos_pos; assumption).
  set (fs := frame_size this) in *.
  assert (Hskip : forall (d : list byte) n,
             Z.of_nat (List.length d) = n -> skipn (Z.to_nat n) d = []).
  { intros d n Hn. apply skipn_all2. lia. }
  destruct (FillBuffer_reads pf this start c1 m d1 Hwf Hpf Hm
              ltac:(lia) ltac:(lia)) as (m1 & Hm1 & Hrun1).
  { replace (Z.max 0 (Z.min c1 (num_samples this - start))) with c1 by lia.
    fold fs. lia. }
  replace (Z.max 0 (Z.min c1 (num_samples this - start))) with c1 in Hrun1 by lia.
  fold fs in Hrun1. rewrite (Hskip d1 (c1 * fs) Hd1), app_nil_r in Hrun1.
  destruct (FillBuffer_reads pf this (start + c1) c2 m1 d2 Hwf Hpf Hm1
              ltac:(lia) ltac:(lia)) as (m2 & Hm2 & Hrun2).
  { replace (Z.max 0 (Z.min c2 (num_samples this - (start + c1)))) with c2 by lia.
    fold fs. lia. }
  replace (Z.max 0 (Z.min c2 (num_samples this - (start + c1)))) with c2 in Hrun2
    by lia.
  fold fs in Hrun2. rewrite (Hskip d2 (c2 * fs) Hd2), app_nil_r in Hrun2.
  destruct (FillBuffer_reads pf this start (c1 + c2) m (d1 ++ d2) Hwf Hpf Hm
              ltac:(lia) ltac:(lia)) as (m12 & Hm12 & Hrun12).
  { replace (Z.max 0 (Z.min (c1 + c2) (num_samples this - start)))
      with (c1 + c2) by lia.
    fold fs. rewrite length_app. lia. }
  replace (Z.max 0 (Z.min (c1 + c2) (num_samples this - start)))
    with (c1 + c2) in Hrun12 by lia.
  fold fs in Hrun12.
  rewrite (Hskip (d1 ++ d2) ((c1 + c2) * fs)) in Hrun12
    by (rewrite length_app; lia).
  rewrite app_nil_r in Hrun12.
  exists m1, m2, m12. eexists _, _.
  split; [exact Hrun1|]. split; [exact Hrun2|].
  rewrite Hrun12. do 3 f_equal.
  replace ((c1 + c2) * fs) with (c1 * fs + c2 * fs) by ring.
  rewrite bytes_at_add by nia.
  do 2 f_equal. ring.
Qed.

Lemma FillBuffer_split_witness :
  exists m1 m2 m12 o1 o2,
    FillBuffer lp64 split_provider 1 1 (unmapped, zeros 4) = (Return tt, (m1, o1)) /\
    FillBuffer lp64 split_provider (1 + 1) 2 (m1, zeros 8) = (Return tt, (m2, o2)) /\
    FillBuffer lp64 split_provider 1 (1 + 2) (unmapped, zeros 4 ++ zeros 8)
      = (Return tt, (m12, o1 ++ o2)).
Proof.
  apply (FillBuffer_split lp64 split_provider 1 1 2 unmapped (zeros 4) (zeros 8)).
  - exact split_provider_well_formed.
  - split; [reflexivity | discriminate].
  - exact I.
  - lia.
  - lia.
  - lia.
  - vm_compute. discriminate.
  - reflexivity.
  - reflexivity.
Defined.

Lemma FillBuffer_block_not_held pf this ip buf start count s :
  is_int64 (IndexPoint.start_sample ip + IndexPoint.num_samples ip) = true ->
  ~ holds ip start ->
  FillBuffer_block pf this ip buf start count s = (Return (buf, start, count), s).
Proof.
  intros Hfit Hno. unfold holds in Hno. unfold FillBuffer_block.
  destruct (IndexPoint.start_sample ip <=? start) eqn:Hss.
  - apply Z.leb_le in Hss.
    rewrite (bind_step _ _ _ _ _ (bind_i64 _ _ _ Hfit)).
    unfold ret at 1. rewrite gtb_false by lia. reflexivity.
  - reflexivity.
Qed.

(** X9: FillBuffer looks only for the index point that holds the frame
    [start].  When [count] is not positive, or when no index point holds
    [start] (a negative [start], a [start] at or past the last frame, an
    empty index), it returns normally and leaves the destination and the
    mapper as they were, also when frames of the requested range
    [start, start + count) exist. *)
Theorem FillBuffer_copies_nothing :
  forall (pf : platform) (this : PCMAudioProvider) (start count : Z)
         (s : reader),
    count <= 0 \/
    Forall (fun ip =>
              is_int64 (IndexPoint.start_sample ip + IndexPoint.num_samples ip)
                = true /\ ~ holds ip start) (index_points this) ->
    FillBuffer pf this start count s = (Return tt, s).
Proof.
  intros pf this start count s [Hcount | Hnone].
  - apply FillBuffer_from_done. exact Hcount.
  - unfold FillBuffer. generalize 0 at 1. 
    induction Hnone as [|ip rest [Hfit Hno] _ IH]; intro buf.
    + reflexivity.
    + cbn [FillBuffer_from]. destruct (count >? 0); [|reflexivity].
      rewrite (bind_step _ _ _ _ _
                 (FillBuffer_block_not_held pf this ip buf start count s Hfit Hno)).
      apply IH.
Qed.

Lemma FillBuffer_copies_nothing_witness :
  FillBuffer lp64 split_provider (-1) 3 (unmapped, zeros 12)
    = (Return tt, (unmapped, zeros 12)).
Proof.
  apply (FillBuffer_copies_nothing lp64 split_provider (-1) 3 (unmapped, zeros 12)).
  right. repeat constructor; unfold holds; cbn; lia.
Defined.

(** An index point that holds [start] and places the frames to copy past
    the end of the file. *)
Lemma FillBuffer_block_beyond pf this ip buf start count m dest :
  0 < bytes_per_sample this -> 0 < channels this ->
  0 <= IndexPoint.start_sample ip -> holds ip start ->
  IndexPoint.start_sample ip + IndexPoint.num_samples ip <= INT64_MAX ->
  0 < count <= INT64_MAX -> 0 <= IndexPoint.start_byte ip ->
  let can_do :=
    Z.min count (IndexPoint.start_sample ip + IndexPoint.num_samples ip - start) in
  let last :=
    IndexPoint.start_byte ip
    + (start - IndexPoint.start_sample ip) * frame_size this
    + can_do * frame_size this in
  file_size this < last <= INT64_MAX ->
  FillBuffer_block pf this ip buf start count (m, dest)
    = (Throw (AudioDecodeError "Attempted to map beyond end of file"),
       (m, dest)).
Proof.
  intros Hbps Hch Hss0 [Hss Hend] Hmaxs Hcount Hsb can_do last Hlast.
  assert (Hmin : INT64_MIN = - 2 ^ 63) by reflexivity.
  assert (Hmx : INT64_MAX = 2 ^ 63 - 1) by reflexivity.
  set (ss := IndexPoint.start_sample ip) in *.
  set (num := IndexPoint.num_samples ip) in *.
  set (sb := IndexPoint.start_byte ip) in *.
  set (bps := bytes_per_sample this) in *.
  set (ch := channels this) in *.
  assert (Hfs : frame_size this = bps * ch) by reflexivity.
  assert (Hcd : 0 < can_do <= count /\ can_do <= ss + num - start)
    by (unfold can_do; lia).
  pose proof (scaled_bounds (start - ss) bps ch ltac:(lia) Hbps Hch) as Hd.
  pose proof (scaled_bounds can_do bps ch ltac:(lia) Hbps Hch) as Hn.
  assert (Hlast' : last = sb + (start - ss) * bps * ch + can_do * bps * ch)
    by (unfold last; rewrite Hfs; ring).
  unfold FillBuffer_block. fold ss num sb bps ch.
  rewrite leb_true by lia.
  rewrite (bind_step _ _ _ _ _
             (bind_i64 _ _ _ (is_int64_true (ss + num) ltac:(lia)))).
  unfold ret at 1. rewrite gtb_true by lia.
  rewrite bind_i64 by (apply is_int64_true; lia).
  rewrite bind_i64 by (apply is_int64_true; lia).
  replace (if num - start + ss >? count then count else num - start + ss)
    with can_do.
  2:{ unfold can_do. destruct (num - start + ss >? count) eqn:E.
      - rewrite Z.gtb_ltb in E. apply Z.ltb_lt in E. lia.
      - rewrite Z.gtb_ltb in E. apply Z.ltb_ge in E. lia. }
  rewrite bind_i64 by (apply is_int64_true; lia).
  rewrite bind_i64 by (apply is_int64_true; lia).
  rewrite bind_i64 by (apply is_int64_true; lia).
  rewrite bind_i64 by (apply is_int64_true; lia).
  rewrite bind_i64 by (apply is_int64_true; lia).
  rewrite bind_i64 by (apply is_int64_true; lia).
  unfold bind at 1. unfold with_mapper, EnsureRangeAccessible.
  cbn [fst snd].
  rewrite bind_i64 by (apply is_int64_true; lia).
  rewrite gtb_true by lia. reflexivity.
Qed.

(** X10: FillBuffer does not compare an index point with the size of the
    file; EnsureRangeAccessible does when the frames are asked for.  When
    the index point that holds [start] places the frames to copy past the
    end of the file, the index points before it ending at or before
    [start], the call throws the decode error, having copied nothing and
    mapped nothing. *)
Theorem FillBuffer_beyond_file :
  forall (pf : platform) (this : PCMAudioProvider)
         (before rest : list IndexPoint.t) (ip : IndexPoint.t)
         (start count : Z) (m : mapper) (dest : list byte),
    index_points this = before ++ ip :: rest ->
    Forall (ends_before start) before ->
    0 < bytes_per_sample this -> 0 < channels this ->
    0 <= IndexPoint.start_sample ip -> holds ip start ->
    IndexPoint.start_sample ip + IndexPoint.num_samples ip <= INT64_MAX ->
    0 < count <= INT64_MAX -> 0 <= IndexPoint.start_byte ip ->
    let can_do :=
      Z.min count (IndexPoint.start_sample ip + IndexPoint.num_samples ip - start) in
    let last :=
      IndexPoint.start_byte ip
      + (start - IndexPoint.start_sample ip) * frame_size this
      + can_do * frame_size this in
    file_size this < last <= INT64_MAX ->
    FillBuffer pf this start count (m, dest)
      = (Throw (AudioDecodeError "Attempted to map beyond end of file"),
         (m, dest)).
Proof.
  intros pf this before rest ip start count m dest Hidx Hbefore Hbps Hch
    Hss0 Hholds Hmaxs Hcount Hsb can_do last Hlast.
  unfold FillBuffer. rewrite Hidx. clear Hidx. generalize 0 at 1.
  induction Hbefore as [|q before' (Hq0 & Hqn & Hqe) _ IH]; intro buf.
  - cbn [app FillBuffer_from]. rewrite gtb_true by lia.
    unfold bind.
    rewrite (FillBuffer_block_beyond pf this ip buf start count m dest)
      by assumption.
    reflexivity.
  - cbn [app FillBuffer_from]. rewrite gtb_true by lia.
    rewrite (bind_step _ _ _ _ _
               (FillBuffer_block_passed pf this q buf start count (m, dest)
                  Hq0 Hqn Hqe ltac:(unfold holds in Hholds; lia))).
    apply IH.
Qed.

Lemma FillBuffer_beyond_file_witness :
  (exists m, RiffWav.RiffWavPCMAudioProvider lp64 cut_wav 2
             = Some (Return cut_provider, m)) /\
  FillBuffer lp64 cut_provider 1 3 (unmapped, zeros 12)
    = (Throw (AudioDecodeError "Attempted to map beyond end of file"),
       (unmapped, zeros 12)).
Proof.
  split; [exact cut_provider_built|].
  apply (FillBuffer_beyond_file lp64 cut_provider []
           [] {| IndexPoint.start_byte := 44;
                 IndexPoint.start_sample := 0;
                 IndexPoint.num_samples := 4 |} 1 3 unmapped (zeros 12)).
  - reflexivity.
  - constructor.
  - reflexivity.
  - reflexivity.
  - cbn. lia.
  - unfold holds. cbn. lia.
  - vm_compute. discriminate.
  - vm_compute. split; [reflexivity | discriminate].
  - cbn. lia.
  - vm_compute. split; [reflexivity | discriminate].
Defined.

(** ** Header fields *)

Lemma byte_val_bound b : 0 <= byte_val b < 256.
Proof.
  unfold byte_val. pose proof (Byte.to_N_bounded b). lia.
Qed.

Lemma le_bound bs : 0 <= le bs < 256 ^ Z.of_nat (List.length bs).
Proof.
  induction bs as [|b bs IH].
  - cbn. lia.
  - cbn [le List.length]. rewrite Nat2Z.inj_succ, Z.pow_succ_r by lia.
    pose proof (byte_val_bound b). lia.
Qed.

Lemma le_field_bound (f : file) off n :
  0 <= n -> 0 <= le (bytes_at f off n) < 256 ^ n.
Proof.
  intro Hn. pose proof (le_bound (bytes_at f off n)) as H.
  assert (Hlen : Z.of_nat (List.length (bytes_at f off n)) <= n).
  { unfold bytes_at. rewrite length_firstn. lia. }
  pose proof (Z.pow_le_mono_r 256 _ n ltac:(lia) Hlen). lia.
Qed.

Lemma load_uint_bound f p off n m v m' :
  0 <= n -> load_uint f p off n m = (Return v, m') -> 0 <= v < 256 ^ n.
Proof.
  intros Hn H. unfold load_uint in H. invert_run H.
  apply load_inv in Hrun. destruct Hrun as (_ & r & _ & _ & ->).
  apply ret_inv in H. destruct H as [-> _]. apply le_field_bound. exact Hn.
Qed.

Lemma quot_bounds s b : 0 <= s -> 0 <= b -> 0 <= Z.quot s b <= s.
Proof.
  intros Hs Hb. destruct (Z.eq_dec b 0) as [-> | Hne].
  - replace (Z.quot s 0) with 0 by (destruct s; reflexivity). lia.
  - rewrite Z.quot_div_nonneg by lia. split.
    + apply Z.div_pos; lia.
    + apply Z.div_le_upper_bound; nia.
Qed.

Lemma whole_frames s b c :
  0 <= s -> 0 < b -> 0 < c ->
  Z.quot (Z.quot s b) c * (b * c) <= s < (Z.quot (Z.quot s b) c + 1) * (b * c).
Proof.
  intros Hs Hb Hc.
  rewrite Z.quot_quot by lia.
  rewrite Z.quot_div_nonneg by nia.
  pose proof (Z.mul_div_le s (b * c) ltac:(nia)).
  pose proof (Z.mul_succ_div_gt s (b * c) ltac:(nia)).
  nia.
Qed.

(** ** What both walks keep of the object *)

Lemma new_provider_base f : base_kept f (PCMAudioProvider_new f).
Proof. constructor; reflexivity. Qed.

Lemma new_provider_ranged f : format_ranged (PCMAudioProvider_new f).
Proof. constructor; cbn; lia. Qed.

Lemma effect_keeps_base frames_of f st st' :
  chunk_effect frames_of st st' ->
  base_kept f (object st) -> base_kept f (object st').
Proof.
  intros [Ho _ | r c b _ _ _ _ Ho | ip _ _ _ _ _ Ho] [Hfile Hsize Hfloat];
    constructor; rewrite Ho; assumption.
Qed.

Lemma bytes_per_sample_bound bits :
  0 <= bits < 256 ^ 2 -> 0 <= (bits + 7) / 8 <= 8192.
Proof.
  intro H. change (256 ^ 2) with 65536 in H. split.
  - apply Z.div_pos; lia.
  - assert ((bits + 7) / 8 < 8193) by (apply Z.div_lt_upper_bound; lia). lia.
Qed.

Lemma riff_chunk_format pf f st m st' m' :
  RiffWav.chunk pf f st m = (Return st', m') ->
  format_ranged (object st) -> format_ranged (object st').
Proof.
  unfold RiffWav.chunk. intros H Hr. invert_run H.
  apply ret_inv in H. destruct H as [-> ->]. cbn [got_fmt_header object].
  match goal with
  | H : (if ?b then _ else _) _ = (Return ?seen, _) |- _ =>
      destruct b; rename H into Hseen
  end.
  - unfold RiffWav.fmt_chunk in Hseen.
    destruct (got_fmt_header st); [discriminate|].
    invert_run Hseen.
    match type of Hseen with
    | (if ?b then _ else _) _ = _ => destruct b; [discriminate|]
    end.
    invert_run Hseen. apply ret_inv in Hseen. destruct Hseen as [-> ->].
    repeat match goal with
           | H : load_uint _ _ _ ?n _ = (Return _, _) |- _ =>
               apply (load_uint_bound _ _ _ n) in H; [|lia]
           end.
    constructor; cbn [snd set_format sample_rate channels bytes_per_sample].
    + change (2 ^ 32) with (256 ^ 4). assumption.
    + change (2 ^ 16) with (256 ^ 2). assumption.
    + apply bytes_per_sample_bound. assumption.
  - invert_run Hseen.
    match type of Hseen with
    | (if ?b then _ else _) _ = _ => destruct b
    end.
    + unfold RiffWav.data_chunk in Hseen.
      destruct (got_fmt_header st); [|discriminate]. cbn [negb] in Hseen.
      invert_run Hseen. apply ret_inv in Hseen. destruct Hseen as [-> ->].
      destruct Hr. constructor; assumption.
    + apply ret_inv in Hseen. destruct Hseen as [-> ->]. exact Hr.
Qed.

Lemma wave64_chunk_format pf f st m st' m' :
  Wave64.chunk pf f st m = (Return st', m') ->
  format_ranged (object st) -> format_ranged (object st').
Proof.
  unfold Wave64.chunk. intros H Hr. invert_run H.
  apply ret_inv in H. destruct H as [-> ->]. cbn [got_fmt_header object].
  match goal with
  | H : (if ?b then _ else _) _ = (Return ?seen, _) |- _ =>
      destruct b; rename H into Hseen
  end.
  - unfold Wave64.fmt_chunk in Hseen.
    destruct (got_fmt_header st); [discriminate|].
    invert_run Hseen.
    repeat match type of Hseen with
           | (if ?b then _ else _) _ = _ => destruct b; [discriminate|]
           end.
    invert_run Hseen. apply ret_inv in Hseen. destruct Hseen as [-> ->].
    repeat match goal with
           | H : load_uint _ _ _ ?n _ = (Return _, _) |- _ =>
               apply (load_uint_bound _ _ _ n) in H; [|lia]
           end.
    constructor; cbn [snd set_format sample_rate channels bytes_per_sample].
    + change (2 ^ 32) with (256 ^ 4). assumption.
    + change (2 ^ 16) with (256 ^ 2). assumption.
    + apply bytes_per_sample_bound. assumption.
  - invert_run Hseen.
    match type of Hseen with
    | (if ?b then _ else _) _ = _ => destruct b
    end.
    + unfold Wave64.data_chunk in Hseen.
      destruct (got_fmt_header st); [|discriminate]. cbn [negb] in Hseen.
      invert_run Hseen. apply ret_inv in Hseen. destruct Hseen as [-> ->].
      destruct Hr. constructor; assumption.
    + apply ret_inv in Hseen. destruct Hseen as [-> ->]. exact Hr.
Qed.

(** What holds of every provider the RIFF WAV parser returns. *)
Lemma riff_provider_facts pf f fuel this m :
  RiffWav.RiffWavPCMAudioProvider pf f fuel = Some (Return this, m) ->
  base_kept f this /\ format_ranged this /\ counts_nonneg this /\
  is_int64 (num_samples this) = true /\
  (index_points this <> [] ->
   bytes_per_sample this <> 0 /\ channels this <> 0).
Proof.
  intro H. unfold RiffWav.RiffWavPCMAudioProvider in H.
  apply (construct_invariant _ _ _ _
           (fun st => base_kept f (object st) /\ format_ranged (object st)
                      /\ counts_nonneg (object st) /\ built_from f st)) in H.
  - destruct H as (st & -> & (Hb & Hr & Hn & [_ _ Htot Hfmt]) & _).
    repeat (split; [assumption|]).
    intro Hne. destruct (Hfmt Hne) as (_ & ? & ?). auto.
  - intros st m0 Ho. pose proof (riff_open_object _ _ _ _ Ho) as Hobj.
    rewrite Hobj.
    split; [apply new_provider_base|]. split; [apply new_provider_ranged|].
    split; [apply new_provider_nonneg | apply new_provider_built; exact Hobj].
  - intros st s st' s' (Hb & Hr & Hn & Hbuilt) _ Hrun.
    pose proof (riff_chunk_effect _ _ _ _ _ _ Hrun) as He.
    split; [eapply effect_keeps_base; eassumption|].
    split; [eapply riff_chunk_format; eassumption|].
    split; [eapply riff_effect_keeps_nonneg; eassumption
           | eapply riff_effect_keeps_built; eassumption].
Qed.

(** ** The index of a RIFF WAV file *)

(** X11: in every provider the RIFF WAV parser returns, the index is in
    order of start_sample and has no gap: each point starts at the sum of
    the counts of the points before it, the first at 0; num_samples is the
    sum of all counts; and every count is that of a 32-bit size, at least 0
    and below 2^32. *)
Theorem riff_index_in_order :
  forall (pf : platform) (f : file) (fuel : nat) (this : PCMAudioProvider)
         (m : mapper),
    RiffWav.RiffWavPCMAudioProvider pf f fuel = Some (Return this, m) ->
    ordered_from 0 (index_points this) /\
    (forall k ip, nth_error (index_points this) k = Some ip ->
                  IndexPoint.start_sample ip
                  = total_samples (firstn k (index_points this))) /\
    num_samples this = total_samples (index_points this) /\
    0 <= num_samples this /\
    Forall (fun ip => 0 <= IndexPoint.num_samples ip < 2 ^ 32)
      (index_points this).
Proof.
  intros pf f fuel this m H.
  destruct (riff_index_gapless _ _ _ _ _ H) as (Hord & Hsum & Htot).
  destruct (riff_provider_facts _ _ _ _ _ H) as (_ & _ & [Hb Hc Hn] & _ & _).
  pose proof (riff_index_points_at_payload _ _ _ _ _ H) as Hpts.
  split; [exact Hord|]. split; [exact Hsum|]. split; [exact Htot|].
  split; [rewrite Htot; apply (total_samples_nonneg this); exact Hn|].
  rewrite Forall_forall in *. intros ip Hip.
  split; [apply Hn; exact Hip|].
  destruct (Hpts ip Hip) as (pos & _ & _ & ->).
  pose proof (le_field_bound f (pos + 4) 4 ltac:(lia)) as Hsz.
  change (256 ^ 4) with (2 ^ 32) in Hsz.
  pose proof (quot_bounds _ _ (proj1 Hsz) Hb) as Hq.
  pose proof (quot_bounds _ _ (proj1 Hq) Hc). lia.
Qed.

Lemma riff_index_in_order_witness :
  ordered_from 0 (index_points split_provider) /\
  (forall k ip, nth_error (index_points split_provider) k = Some ip ->
                IndexPoint.start_sample ip
                = total_samples (firstn k (index_points split_provider))) /\
  num_samples split_provider = total_samples (index_points split_provider) /\
  0 <= num_samples split_provider /\
  Forall (fun ip => 0 <= IndexPoint.num_samples ip < 2 ^ 32)
    (index_points split_provider).
Proof.
  destruct split_provider_built as [m Hm].
  exact (riff_index_in_order lp64 split_wav 4 split_provider m Hm).
Defined.

(** X12: every index point of a provider the RIFF WAV parser returns
    comes from a chunk of type 'data': start_byte is the byte after the
    8-byte chunk header (modulo 2^32) and the count is the number of whole
    frames in the size the chunk declares, a last partial frame being
    dropped.  The frame size is positive as soon as there is an index
    point. *)
Theorem riff_index_points_whole_frames :
  forall (pf : platform) (f : file) (fuel : nat) (this : PCMAudioProvider)
         (m : mapper),
    RiffWav.RiffWavPCMAudioProvider pf f fuel = Some (Return this, m) ->
    Forall (riff_whole_frames f this) (index_points this).
Proof.
  intros pf f fuel this m H.
  destruct (riff_provider_facts _ _ _ _ _ H) as (_ & _ & [Hb Hc Hn] & _ & Hne).
  pose proof (riff_index_points_at_payload _ _ _ _ _ H) as Hpts.
  rewrite Forall_forall in *. intros ip Hip.
  destruct Hne as [Hb0 Hc0].
  { intro E. rewrite E in Hip. exact Hip. }
  destruct (Hpts ip Hip) as (pos & Hdata & Hsb & Hnum).
  exists pos, (le (bytes_at f (pos + 4) 4)).
  split; [exact Hdata|]. split; [reflexivity|]. split; [exact Hsb|].
  unfold frame_size. split; [apply Z.mul_pos_pos; lia|].
  rewrite Hnum. apply whole_frames; try lia.
  apply le_field_bound. lia.
Qed.

Lemma riff_index_points_whole_frames_witness :
  Forall (riff_whole_frames split_wav split_provider)
    (index_points split_provider).
Proof.
  destruct split_provider_built as [m Hm].
  exact (riff_index_points_whole_frames lp64 split_wav 4 split_provider m Hm).
Defined.

(** ** The members every provider has *)

(** Once a point is in the index the format chunk was read and both
    divisors of the frame count were non-zero. *)
Lemma wave64_effect_keeps_divisors st st' :
  chunk_effect wave64_frames st st' ->
  (index_points (object st) <> [] ->
   got_fmt_header st = true /\
   bytes_per_sample (object st) <> 0 /\ channels (object st) <> 0) ->
  index_points (object st') <> [] ->
  got_fmt_header st' = true /\
  bytes_per_sample (object st') <> 0 /\ channels (object st') <> 0.
Proof.
  intros [Ho Hg | r c b Hg Hg' _ _ Ho | ip Hg Hg' _ Hfit Hf Ho] Hfmt.
  - rewrite Ho, Hg. exact Hfmt.
  - rewrite Ho. cbn [set_format index_points].
    intro Hne. destruct (Hfmt Hne) as [Hgot _]. congruence.
  - rewrite Ho. cbn [push_back index_points bytes_per_sample channels].
    intros _. destruct Hf as (size & _ & Hb & Hc & _). auto.
Qed.

Lemma wave64_provider_facts pf f fuel this m :
  Wave64.Wave64AudioProvider pf f fuel = Some (Return this, m) ->
  base_kept f this /\ format_ranged this /\
  (index_points this <> [] ->
   bytes_per_sample this <> 0 /\ channels this <> 0).
Proof.
  intro H. unfold Wave64.Wave64AudioProvider in H.
  apply (construct_invariant _ _ _ _
           (fun st => base_kept f (object st) /\ format_ranged (object st) /\
                      (index_points (object st) <> [] ->
                       got_fmt_header st = true /\
                       bytes_per_sample (object st) <> 0 /\
                       channels (object st) <> 0))) in H.
  - destruct H as (st & -> & (Hb & Hr & Hd) & _).
    split; [exact Hb|]. split; [exact Hr|].
    intro Hne. destruct (Hd Hne) as (_ & ? & ?). auto.
  - intros st m0 Ho. rewrite (wave64_open_object _ _ _ _ Ho).
    split; [apply new_provider_base|]. split; [apply new_provider_ranged|].
    cbn [PCMAudioProvider_new index_points]. congruence.
  - intros st s st' s' (Hb & Hr & Hd) _ Hrun.
    pose proof (wave64_chunk_effect _ _ _ _ _ _ Hrun) as He.
    split; [eapply effect_keeps_base; eassumption|].
    split; [eapply wave64_chunk_format; eassumption|].
    eapply wave64_effect_keeps_divisors; eassumption.
Qed.

(** X13: whichever parser returns it, a provider has the members the base
    constructor set: the file the parser was given, its size, and
    float_samples false.  If it has an index point, a format chunk was read
    before the first data chunk and both divisions of the frame count were
    made with a non-zero divisor: channels is the 16-bit channel count of
    the format chunk and is not 0, and bytes_per_sample is its 16-bit count
    of bits rounded up to bytes, between 1 and 8192.  Nothing is said of
    the format of a provider without index points, nor of sample_rate. *)
Theorem provider_base_and_format :
  forall (pf : platform) (f : file) (fuel : nat) (this : PCMAudioProvider)
         (m : mapper),
    RiffWav.RiffWavPCMAudioProvider pf f fuel = Some (Return this, m) \/
    Wave64.Wave64AudioProvider pf f fuel = Some (Return this, m) ->
    file_mapping this = f /\
    file_size this = Z.of_nat (List.length f) /\
    float_samples this = false /\
    (index_points this <> [] ->
     1 <= channels this < 2 ^ 16 /\
     1 <= bytes_per_sample this <= 8192).
Proof.
  intros pf f fuel this m [H | H].
  - destruct (riff_provider_facts _ _ _ _ _ H)
      as ([? ? ?] & [_ ? ?] & _ & _ & Hd).
    repeat (split; [assumption|]).
    intro Hne. destruct (Hd Hne). lia.
  - destruct (wave64_provider_facts _ _ _ _ _ H) as ([? ? ?] & [_ ? ?] & Hd).
    repeat (split; [assumption|]).
    intro Hne. destruct (Hd Hne). lia.
Qed.

Lemma provider_base_and_format_witness :
  file_mapping split_provider = split_wav /\
  file_size split_provider = Z.of_nat (List.length split_wav) /\
  float_samples split_provider = false /\
  1 <= channels split_provider < 2 ^ 16 /\
  1 <= bytes_per_sample split_provider <= 8192.
Proof.
  destruct split_provider_built as [m Hm].
  destruct (provider_base_and_format lp64 split_wav 4 split_provider m
              (or_introl Hm)) as (Hfile & Hsize & Hfloat & Hformat).
  repeat (split; [assumption|]).
  apply Hformat. discriminate.
Defined.

(** ** The exceptions of the constructors *)






(** ** Chunks that are refused *)

Lemma negb_eqb_true a b : a <> b -> negb (a =? b) = true.
Proof. intro H. apply Z.eqb_neq in H. rewrite H. reflexivity. Qed.



Lemma whole_file_wf fsize m r :
  0 <= fsize -> whole_file fsize m r -> mapper_wf fsize m.
Proof.
  intros H0 (Hr & Hms & Hoff & Hsz). unfold mapper_wf. rewrite Hr. lia.
Qed.

(** A request inside the file when the whole file is mapped. *)
Lemma EnsureRangeAccessible_whole_file pf fsize m r start length :
  fsize <= INT64_MAX -> whole_file fsize m r ->
  0 <= start -> 0 <= length -> start + length <= fsize ->
  EnsureRangeAccessible pf fsize start length m
  = (Return {| ptr_serial := serial r; ptr_offset := start |}, m).
Proof.
  intros Hmax (Hr & Hms & Hoff & Hsz) Hs Hl Hin.
  assert (Hmx : INT64_MAX = 2 ^ 63 - 1) by reflexivity.
  assert (Hmn : INT64_MIN = - 2 ^ 63) by reflexivity.
  rewrite (EnsureRangeAccessible_reuses pf fsize start length m r
             ltac:(apply is_int64_true; lia) Hin Hr
             ltac:(unfold window_ok; lia) Hl ltac:(unfold covers; lia)).
  rewrite Hms, Z.sub_0_r. reflexivity.
Qed.

(** A read inside the file through a pointer into the whole-file region. *)
Lemma load_whole_file (f : file) m r pos off n :
  whole_file (Z.of_nat (List.length f)) m r ->
  0 <= pos + off -> 0 <= n -> pos + off + n <= Z.of_nat (List.length f) ->
  load f (ptr_add {| ptr_serial := serial r; ptr_offset := pos |} off) n m
  = (Return (bytes_at f (pos + off) n), m).
Proof.
  intros (Hr & Hms & Hoff & Hsz) H0 Hn Hin. unfold load. rewrite Hr.
  cbn [ptr_add ptr_serial ptr_offset]. rewrite Nat.eqb_refl, Hoff, Hsz.
  rewrite !leb_true by lia. reflexivity.
Qed.

(** X16: the four ways an iteration of the Wave64 walk refuses a file with
    the provider-open error, the whole file being mapped and the 24-byte
    chunk header in the file: a format chunk when one has been seen ("Bad
    file, found more than one 'fmt' chunk"); a first format chunk with
    format tag 3 (the message about IEEE float); a first format chunk
    with a tag that is neither 3 nor 1 ("Can't use file, not PCM
    encoding"); a data chunk when no format chunk has been seen.  The
    mapper is left as it was. *)
Theorem wave64_chunk_refuses :
  forall (pf : platform) (f : file) (st : walk) (m : mapper)
         (r : mapped_region) (msg : string),
    let fsize := Z.of_nat (List.length f) in
    fsize <= INT64_MAX -> whole_file fsize m r ->
    0 <= filepos st -> filepos st + 24 <= fsize ->
    wave64_refusal pf f st msg ->
    Wave64.chunk pf f st m = (Throw (AudioProviderOpenError msg), m).
Proof.
  intros pf f st m r msg fsize Hmax Hwhole Hpos Hfit Href.
  assert (Hmx : INT64_MAX = 2 ^ 63 - 1) by reflexivity.
  unfold Wave64.chunk. fold fsize.
  rewrite (sint_small 64 (filepos st)) by (change (64 - 1) with 63; lia).
  rewrite (uint_small 64 (filepos st + 16)) by lia.
  rewrite (sint_small 64 (filepos st + 16)) by (change (64 - 1) with 63; lia).
  rewrite (bind_step _ _ _ _ _
             (EnsureRangeAccessible_whole_file pf fsize m r (filepos st) 16
                Hmax Hwhole Hpos ltac:(lia) ltac:(lia))).
  rewrite (bind_step _ _ _ _ _
             (EnsureRangeAccessible_whole_file pf fsize m r (filepos st + 16) 8
                Hmax Hwhole ltac:(lia) ltac:(lia) ltac:(lia))).
  set (pg := {| ptr_serial := serial r; ptr_offset := filepos st |}).
  assert (Hsize : load f (ptr_add {| ptr_serial := serial r;
                                     ptr_offset := filepos st + 16 |} 0) 8 m
                  = (Return (bytes_at f (filepos st + 16 + 0) 8), m))
    by (apply load_whole_file; [exact Hwhole | fold fsize; lia ..]).
  assert (Hguid : load f pg 16 m = (Return (bytes_at f (filepos st) 16), m)).
  { pose proof (load_whole_file f m r (filepos st) 0 16 Hwhole
                  ltac:(lia) ltac:(lia) ltac:(fold fsize; lia)) as H.
    rewrite Z.add_0_r in H. unfold ptr_add in H. cbn [ptr_serial ptr_offset] in H.
    rewrite Z.add_0_r in H. exact H. }
  unfold load_uint, Wave64.CheckGuid.
  rewrite (bind_step _ _ _ _ _ (bind_step _ _ _ _ _ Hsize)).
  rewrite (bind_step _ _ _ _ _ (bind_step _ _ _ _ _ Hguid)).
  unfold ret at 1.
  destruct Href as [(Hg & Hgot & ->)
                   | [(Hg & Hgot & (Hfc0 & Hfc & H26) & Htag & ->)
                     | [(Hg & Hgot & (Hfc0 & Hfc & H26) & Hn3 & Hn1 & ->)
                       | (Hg & Hgot & ->)]]];
    rewrite Hg.
  - change (bytes_eqb Wave64.w64Guidfmt Wave64.w64Guidfmt) with true.
    unfold Wave64.fmt_chunk. rewrite Hgot. reflexivity.
  - change (bytes_eqb Wave64.w64Guidfmt Wave64.w64Guidfmt) with true.
    unfold Wave64.fmt_chunk. rewrite Hgot. cbv iota. fold fsize.
    rewrite (sint_small 64 (filepos st)) by (change (64 - 1) with 63; lia).
    rewrite !bind_assoc.
    rewrite (bind_step _ _ _ _ _
               (EnsureRangeAccessible_whole_file pf fsize m r (filepos st)
                  (sizeof_FormatChunk pf) Hmax Hwhole Hpos Hfc0 Hfc)).
    unfold load_uint. rewrite !bind_assoc.
    rewrite (bind_step _ _ _ _ _
               (load_whole_file f m r (filepos st) 24 2 Hwhole
                  ltac:(lia) ltac:(lia) ltac:(lia))).
    rewrite (bind_step _ _ _ _ _
               (eq_refl : ret (le (bytes_at f (filepos st + 24) 2)) m = (_, m))).
    rewrite Htag. reflexivity.
  - change (bytes_eqb Wave64.w64Guidfmt Wave64.w64Guidfmt) with true.
    unfold Wave64.fmt_chunk. rewrite Hgot. cbv iota. fold fsize.
    rewrite (sint_small 64 (filepos st)) by (change (64 - 1) with 63; lia).
    rewrite !bind_assoc.
    rewrite (bind_step _ _ _ _ _
               (EnsureRangeAccessible_whole_file pf fsize m r (filepos st)
                  (sizeof_FormatChunk pf) Hmax Hwhole Hpos Hfc0 Hfc)).
    unfold load_uint. rewrite !bind_assoc.
    rewrite (bind_step _ _ _ _ _
               (load_whole_file f m r (filepos st) 24 2 Hwhole
                  ltac:(lia) ltac:(lia) ltac:(lia))).
    rewrite (bind_step _ _ _ _ _
               (eq_refl : ret (le (bytes_at f (filepos st + 24) 2)) m = (_, m))).
    apply Z.eqb_neq in Hn3. rewrite Hn3.
    rewrite (negb_eqb_true _ _ Hn1). reflexivity.
  - change (bytes_eqb Wave64.w64Guiddata Wave64.w64Guidfmt) with false.
    cbv iota. rewrite !bind_assoc.
    rewrite (bind_step _ _ _ _ _ Hguid).
    unfold ret at 1. unfold bind at 1. rewrite Hg.
    change (bytes_eqb Wave64.w64Guiddata Wave64.w64Guiddata) with true.
    unfold Wave64.data_chunk. rewrite Hgot. reflexivity.
Qed.

Lemma mapped_whole_file fsize :
  whole_file fsize (mapped_whole fsize)
    {| get_offset := 0; get_size := fsize; serial := 1 |}.
Proof. repeat split. Qed.

Lemma wave64_chunk_refuses_witness :
  Wave64.chunk lp64 stereo16_w64 (at_first_chunk stereo16_w64 40 88 true)
    (mapped_whole 128)
  = (Throw (AudioProviderOpenError "Bad file, found more than one 'fmt' chunk"),
     mapped_whole 128) /\
  Wave64.chunk lp64 float_w64 (at_first_chunk float_w64 40 88 false)
    (mapped_whole 128)
  = (Throw (AudioProviderOpenError
              "File is IEEE 32 bit float format which isn't supported. Bug the developers if this matters."),
     mapped_whole 128) /\
  Wave64.chunk lp64 adpcm_w64 (at_first_chunk adpcm_w64 40 88 false)
    (mapped_whole 128)
  = (Throw (AudioProviderOpenError "Can't use file, not PCM encoding"),
     mapped_whole 128) /\
  Wave64.chunk lp64 data_first_w64 (at_first_chunk data_first_w64 40 40 false)
    (mapped_whole 80)
  = (Throw (AudioProviderOpenError
              "Found 'data' chunk before 'fmt ' chunk, file is invalid."),
     mapped_whole 80).
Proof.
  split; [|split; [|split]].
  - apply (wave64_chunk_refuses lp64 stereo16_w64
             (at_first_chunk stereo16_w64 40 88 true) (mapped_whole 128)
             {| get_offset := 0; get_size := 128; serial := 1 |}).
    + vm_compute. discriminate.
    + exact (mapped_whole_file 128).
    + cbn. lia.
    + vm_compute. discriminate.
    + left. repeat split; reflexivity.
  - apply (wave64_chunk_refuses lp64 float_w64
             (at_first_chunk float_w64 40 88 false) (mapped_whole 128)
             {| get_offset := 0; get_size := 128; serial := 1 |}).
    + vm_compute. discriminate.
    + exact (mapped_whole_file 128).
    + cbn. lia.
    + vm_compute. discriminate.
    + right. left. repeat split; try reflexivity; vm_compute; discriminate.
  - apply (wave64_chunk_refuses lp64 adpcm_w64
             (at_first_chunk adpcm_w64 40 88 false) (mapped_whole 128)
             {| get_offset := 0; get_size := 128; serial := 1 |}).
    + vm_compute. discriminate.
    + exact (mapped_whole_file 128).
    + cbn. lia.
    + vm_compute. discriminate.
    + right. right. left.
      repeat split; try reflexivity; vm_compute; discriminate.
  - apply (wave64_chunk_refuses lp64 data_first_w64
             (at_first_chunk data_first_w64 40 40 false) (mapped_whole 80)
             {| get_offset := 0; get_size := 80; serial := 1 |}).
    + vm_compute. discriminate.
    + exact (mapped_whole_file 80).
    + cbn. lia.
    + vm_compute. discriminate.
    + right. right. right. repeat split; reflexivity.
Defined.

(** ** Accepted files *)

Lemma construct_returns_init {St A} (init : M mapper St) cond body
  (result : St -> A) fuel a m :
  construct fuel init cond body result = Some (Return a, m) ->
  exists st m0, init unmapped = (Return st, m0).
Proof.
  unfold construct. destruct (init unmapped) as [[st | e | u] m0];
    try discriminate.
  eauto.
Qed.

Lemma riff_signature_length f :
  riff_signature f = true -> 12 <= Z.of_nat (List.length f).
Proof.
  unfold riff_signature. intro H. apply andb_prop in H. destruct H as [_ H].
  apply bytes_eqb_eq in H.
  assert (Hl : List.length (bytes_at f 8 4) = 4%nat) by (rewrite H; reflexivity).
  unfold bytes_at in Hl. rewrite length_firstn, length_skipn in Hl. lia.
Qed.

Lemma wave64_signature_length f :
  wave64_signature f = true -> 40 <= Z.of_nat (List.length f).
Proof.
  unfold wave64_signature. intro H. apply andb_prop in H. destruct H as [_ H].
  apply bytes_eqb_eq in H.
  assert (Hl : List.length (bytes_at f 24 16) = 16%nat) by (rewrite H; reflexivity).
  unfold bytes_at in Hl. rewrite length_firstn, length_skipn in Hl. lia.
Qed.

Lemma signatures_exclusive f :
  riff_signature f = true -> wave64_signature f = false.
Proof.
  intro H. unfold wave64_signature.
  rewrite (riff_magic_is_not_wave64 f H). reflexivity.
Qed.

Lemma riff_accepts_signed pf f fuel this m :
  RiffWav.RiffWavPCMAudioProvider pf f fuel = Some (Return this, m) ->
  riff_signature f = true.
Proof.
  intro H. apply construct_returns_init in H. destruct H as (st & m0 & Ho).
  pose proof (riff_open_cases pf f) as Hc. rewrite Ho in Hc. tauto.
Qed.

Lemma wave64_accepts_signed pf f fuel this m :
  Wave64.Wave64AudioProvider pf f fuel = Some (Return this, m) ->
  wave64_signature f = true /\
  Wave64.smallest_possible_file pf <= Z.of_nat (List.length f).
Proof.
  intro H. apply construct_returns_init in H. destruct H as (st & m0 & Ho).
  pose proof (wave64_open_cases pf f) as Hc. rewrite Ho in Hc.
  split; [tauto|].
  unfold Wave64.open in Ho.
  destruct (Z.of_nat (List.length f) <? Wave64.smallest_possible_file pf) eqn:E;
    [discriminate Ho|].
  apply Z.ltb_ge in E. exact E.
Qed.

(** X17: a parser returns a provider only for a file that carries its
    magic values: 'RIFF' at byte 0 and 'WAVE' at byte 8 for RIFF WAV, hence
    at least 12 bytes; the two GUIDs at bytes 0 and 24 for Wave64, in a
    file at least as long as the smallest possible Wave64 file.  The two
    magic values exclude each other, so no file is accepted by both
    parsers, on whatever platform and after however many iterations. *)
Theorem accepted_files_are_signed :
  forall (pf : platform) (f : file) (fuel : nat) (this : PCMAudioProvider)
         (m : mapper),
    (RiffWav.RiffWavPCMAudioProvider pf f fuel = Some (Return this, m) ->
     riff_signature f = true /\ 12 <= Z.of_nat (List.length f) /\
     wave64_signature f = false /\
     forall pf' fuel', refused (Wave64.Wave64AudioProvider pf' f fuel')) /\
    (Wave64.Wave64AudioProvider pf f fuel = Some (Return this, m) ->
     wave64_signature f = true /\
     40 <= Z.of_nat (List.length f) /\
     Wave64.smallest_possible_file pf <= Z.of_nat (List.length f) /\
     riff_signature f = false /\
     forall pf' fuel', refused (RiffWav.RiffWavPCMAudioProvider pf' f fuel')).
Proof.
  intros pf f fuel this m. split; intro H.
  - pose proof (riff_accepts_signed _ _ _ _ _ H) as Hsig.
    split; [exact Hsig|]. split; [apply riff_signature_length; exact Hsig|].
    split; [apply signatures_exclusive; exact Hsig|].
    intros pf' fuel'. unfold refused.
    destruct (Wave64.Wave64AudioProvider pf' f fuel')
      as [[[a | e | u] m']|] eqn:E; try exact I.
    apply wave64_accepts_signed in E. destruct E as [E _].
    rewrite (signatures_exclusive f Hsig) in E. discriminate E.
  - destruct (wave64_accepts_signed _ _ _ _ _ H) as [Hsig Hsize].
    assert (Hriff : riff_signature f = false).
    { destruct (riff_signature f) eqn:E; [|reflexivity].
      rewrite (signatures_exclusive f E) in Hsig. discriminate Hsig. }
    split; [exact Hsig|]. split; [apply wave64_signature_length; exact Hsig|].
    split; [exact Hsize|]. split; [exact Hriff|].
    intros pf' fuel'. unfold refused.
    destruct (RiffWav.RiffWavPCMAudioProvider pf' f fuel')
      as [[[a | e | u] m']|] eqn:E; try exact I.
    apply riff_accepts_signed in E. rewrite Hriff in E. discriminate E.
Qed.

Lemma accepted_files_are_signed_witness :
  (riff_signature split_wav = true /\ 12 <= Z.of_nat (List.length split_wav) /\
   wave64_signature split_wav = false /\
   forall pf' fuel', refused (Wave64.Wave64AudioProvider pf' split_wav fuel')) /\
  (wave64_signature bare_w64 = true /\
   40 <= Z.of_nat (List.length bare_w64) /\
   Wave64.smallest_possible_file lp64 <= Z.of_nat (List.length bare_w64) /\
   riff_signature bare_w64 = false /\
   forall pf' fuel', refused (RiffWav.RiffWavPCMAudioProvider pf' bare_w64 fuel')).
Proof.
  split.
  - destruct split_provider_built as [m Hm].
    exact (proj1 (accepted_files_are_signed lp64 split_wav 4 split_provider m) Hm).
  - apply (proj2 (accepted_files_are_signed lp64 bare_w64 0
                    (PCMAudioProvider_new bare_w64) (mapped_whole 120))).
    vm_compute. reflexivity.
Defined.

(** X18: the chunk walks do not require any chunk.  A file with the RIFF
    WAV magic whose size field is 4 is accepted after no iteration, and so
    is a file with the Wave64 magic, long enough for Wave64, whose size
    field is 40, whatever follows the header: the provider returned has an
    empty index and no samples, and holds the file.  No format was read:
    nothing is said of sample_rate, channels and bytes_per_sample, which
    no line has assigned.  The views are granted and, with a 32-bit size_t,
    the file has at most 2^32 - 2^20 bytes. *)
Theorem container_without_chunks :
  forall (pf : platform) (f : file) (fuel : nat),
    let fsize := Z.of_nat (List.length f) in
    dependable pf fsize -> fsize <= INT64_MAX ->
    (riff_signature f = true -> le (bytes_at f 4 4) = 4 ->
     exists this m,
       RiffWav.RiffWavPCMAudioProvider pf f fuel = Some (Return this, m) /\
       index_points this = [] /\ num_samples this = 0 /\
       file_mapping this = f /\ file_size this = fsize /\
       float_samples this = false) /\
    (wave64_signature f = true -> Wave64.smallest_possible_file pf <= fsize ->
     le (bytes_at f 16 8) = 40 ->
     exists this m,
       Wave64.Wave64AudioProvider pf f fuel = Some (Return this, m) /\
       index_points this = [] /\ num_samples this = 0 /\
       file_mapping this = f /\ file_size this = fsize /\
       float_samples this = false).
Proof.
  intros pf f fuel fsize Hpf Hmax. split.
  - intros Hsig Hsize.
    pose proof (riff_signature_length f Hsig) as Hlen.
    unfold riff_signature in Hsig. apply andb_prop in Hsig.
    destruct Hsig as [Hriff Hwave].
    destruct (EnsureRangeAccessible_serves pf f Hpf Hmax unmapped 0 12 I
                ltac:(lia) ltac:(lia) Hlen) as (p & m & Hera & _ & _ & Hp).
    exists (PCMAudioProvider_new f), m.
    assert (Hopen : RiffWav.open pf f unmapped
                    = (Return {| data_left := 0; filepos := 12;
                                 got_fmt_header := false;
                                 object := PCMAudioProvider_new f |}, m)).
    { unfold RiffWav.open, RiffWav.sizeof_RIFFChunk, RiffWav.CheckFourcc.
      rewrite (bind_step _ _ _ _ _ Hera).
      rewrite (bind_step _ _ _ _ _
                 (bind_step _ _ _ _ _ (Hp 0 4 ltac:(lia) ltac:(lia) ltac:(lia)))).
      cbv beta. cbn [Z.add]. rewrite Hriff. cbn [negb].
      rewrite (bind_step _ _ _ _ _
                 (bind_step _ _ _ _ _ (Hp 8 4 ltac:(lia) ltac:(lia) ltac:(lia)))).
      cbv beta. cbn [Z.add]. rewrite Hwave. cbn [negb].
      unfold load_uint.
      rewrite (bind_step _ _ _ _ _
                 (bind_step _ _ _ _ _ (Hp 4 4 ltac:(lia) ltac:(lia) ltac:(lia)))).
      cbv beta. cbn [Z.add]. rewrite Hsize. reflexivity. }
    unfold RiffWav.RiffWavPCMAudioProvider, construct. rewrite Hopen.
    rewrite while_done by reflexivity.
    cbn [object PCMAudioProvider_new index_points num_samples file_mapping
         file_size float_samples].
    repeat split; reflexivity.
  - intros Hsig Hsmall Hsize.
    pose proof (wave64_signature_length f Hsig) as Hlen.
    unfold wave64_signature in Hsig. apply andb_prop in Hsig.
    destruct Hsig as [Hriff Hwave].
    destruct (EnsureRangeAccessible_serves pf f Hpf Hmax unmapped 0 40 I
                ltac:(lia) ltac:(lia) Hlen) as (p & m & Hera & _ & _ & Hp).
    exists (PCMAudioProvider_new f), m.
    assert (Hopen : Wave64.open pf f unmapped
                    = (Return {| data_left := 0; filepos := 40;
                                 got_fmt_header := false;
                                 object := PCMAudioProvider_new f |}, m)).
    { unfold Wave64.open, Wave64.sizeof_RiffChunk, Wave64.CheckGuid.
      fold fsize. apply Z.ltb_ge in Hsmall. rewrite Hsmall.
      rewrite (bind_step _ _ _ _ _ Hera).
      pose proof (Hp 0 16 ltac:(lia) ltac:(lia) ltac:(lia)) as Hload.
      rewrite ptr_add_0 in Hload.
      rewrite (bind_step _ _ _ _ _ (bind_step _ _ _ _ _ Hload)).
      cbv beta. cbn [Z.add]. rewrite Hriff. cbn [negb].
      rewrite (bind_step _ _ _ _ _
                 (bind_step _ _ _ _ _ (Hp 24 16 ltac:(lia) ltac:(lia) ltac:(lia)))).
      cbv beta. cbn [Z.add]. rewrite Hwave. cbn [negb].
      unfold load_uint.
      rewrite (bind_step _ _ _ _ _
                 (bind_step _ _ _ _ _ (Hp 16 8 ltac:(lia) ltac:(lia) ltac:(lia)))).
      cbv beta. cbn [Z.add]. rewrite Hsize. reflexivity. }
    unfold Wave64.Wave64AudioProvider, construct. rewrite Hopen.
    rewrite while_done by reflexivity.
    cbn [object PCMAudioProvider_new index_points num_samples file_mapping
         file_size float_samples].
    repeat split; reflexivity.
Qed.

Lemma container_without_chunks_witness :
  (exists this m,
     RiffWav.RiffWavPCMAudioProvider lp64 bare_wav 0 = Some (Return this, m) /\
     index_points this = [] /\ num_samples this = 0 /\
     file_mapping this = bare_wav /\
     file_size this = Z.of_nat (List.length bare_wav) /\
     float_samples this = false) /\
  (exists this m,
     Wave64.Wave64AudioProvider lp64 bare_w64 0 = Some (Return this, m) /\
     index_points this = [] /\ num_samples this = 0 /\
     file_mapping this = bare_w64 /\
     file_size this = Z.of_nat (List.length bare_w64) /\
     float_samples this = false).
Proof.
  split.
  - apply (proj1 (container_without_chunks lp64 bare_wav 0
                    ltac:(split; [reflexivity | discriminate])
                    ltac:(vm_compute; discriminate))).
    + reflexivity.
    + reflexivity.
  - apply (proj2 (container_without_chunks lp64 bare_w64 0
                    ltac:(split; [reflexivity | discriminate])
                    ltac:(vm_compute; discriminate))).
    + reflexivity.
    + vm_compute. discriminate.
    + reflexivity.
Defined.

(** ** Chunks of other types *)

Lemma word_aligned_pads size :
  0 <= size < 2 ^ 32 ->
  RiffWav.word_aligned size = (size + size mod 2) mod 2 ^ 32.
Proof.
  intro H. rewrite word_aligned_rounds. unfold uint.
  change (2 ^ 32) with 4294967296 in *.
  destruct (Z.eq_dec size 4294967295) as [-> | Hne].
  - reflexivity.
  - rewrite (Z.mod_small (size + 1)) by lia.
    rewrite Z.mod_small by (Z.div_mod_to_equations; lia).
    Z.div_mod_to_equations. lia.
Qed.

Lemma qword_aligned_pads size :
  0 <= size < 2 ^ 64 ->
  Wave64.qword_aligned size = (size + (- size) mod 8) mod 2 ^ 64.
Proof.
  intro H. rewrite qword_aligned_rounds. unfold uint.
  change (2 ^ 64) with 18446744073709551616 in *.
  destruct (Z_lt_ge_dec (size + 7) 18446744073709551616) as [Hlt | Hge].
  - rewrite (Z.mod_small (size + 7)) by lia.
    Z.div_mod_to_equations. lia.
  - Z.div_mod_to_equations. lia.
Qed.





(** X20: a Wave64 chunk whose GUID is neither the format nor the data
    GUID, read through a window that holds its 24-byte header, is passed
    over without a look at its payload: the object, got_fmt_header and
    the mapper are unchanged, and both counters move by the declared size,
    which counts the header, rounded up to a multiple of 8, modulo 2^64. *)
Theorem wave64_other_chunk_skipped :
  forall (pf : platform) (f : file) (st : walk) (m : mapper)
         (r : mapped_region),
    let fsize := Z.of_nat (List.length f) in
    fsize <= INT64_MAX -> mapper_wf fsize m ->
    region m = Some r -> covers m r (filepos st) 24 ->
    0 <= filepos st ->
    bytes_at f (filepos st) 16 <> Wave64.w64Guidfmt ->
    bytes_at f (filepos st) 16 <> Wave64.w64Guiddata ->
    let size := le (bytes_at f (filepos st + 16) 8) in
    let step := size + (- size) mod 8 in
    exists st',
      Wave64.chunk pf f st m = (Return st', m) /\
      object st' = object st /\
      got_fmt_header st' = got_fmt_header st /\
      filepos st' = (filepos st + step) mod 2 ^ 64 /\
      data_left st' = (data_left st - step) mod 2 ^ 64.
Proof.
  intros pf f st m r fsize Hmax Hwf Hr Hcov Hpos Hfmt Hdata size step.
  pose proof (wave64_unknown_chunk_skipped pf f st m r Hmax Hwf Hr Hcov Hpos
                Hfmt Hdata) as Hrun.
  pose proof (le_field_bound f (filepos st + 16) 8 ltac:(lia)) as Hsz.
  change (256 ^ 8) with (2 ^ 64) in Hsz. fold size in Hsz, Hrun.
  eexists. split; [exact Hrun|].
  cbn [object got_fmt_header filepos data_left].
  split; [reflexivity|]. split; [reflexivity|].
  rewrite (qword_aligned_pads size Hsz).
  unfold uint. rewrite Zplus_mod_idemp_r, Zminus_mod_idemp_r.
  unfold step. split; reflexivity.
Qed.

Lemma wave64_other_chunk_skipped_witness :
  exists st',
    Wave64.chunk lp64 padded_w64 (at_first_chunk padded_w64 40 120 false)
      (mapped_whole 160)
      = (Return st', mapped_whole 160) /\
    object st' = PCMAudioProvider_new padded_w64 /\
    got_fmt_header st' = false /\
    filepos st' = (40 + (le (bytes_at padded_w64 (40 + 16) 8)
                         + (- le (bytes_at padded_w64 (40 + 16) 8)) mod 8))
                  mod 2 ^ 64 /\
    data_left st' = (120 - (le (bytes_at padded_w64 (40 + 16) 8)
                            + (- le (bytes_at padded_w64 (40 + 16) 8)) mod 8))
                    mod 2 ^ 64.
Proof.
  apply (wave64_other_chunk_skipped lp64 padded_w64
           (at_first_chunk padded_w64 40 120 false) (mapped_whole 160)
           {| get_offset := 0; get_size := 160; serial := 1 |}).
  - vm_compute. discriminate.
  - vm_compute. repeat split; discriminate.
  - reflexivity.
  - unfold covers. cbn. lia.
  - cbn. lia.
  - vm_compute. discriminate.
  - vm_compute. discriminate.
Defined.

(** ** From the parser to the reader *)


Lemma uint_nonneg w z : 0 <= w -> 0 <= uint w z.
Proof.
  intro Hw. unfold uint. apply Z.mod_pos_bound. apply Z.pow_pos_nonneg; lia.
Qed.





(** ** Wave64 index points *)

Lemma load_inv_bounds f p n m bs m' :
  load f p n m = (Return bs, m') ->
  m' = m /\
  exists r, region m = Some r /\ serial r = ptr_serial p /\
            0 <= ptr_offset p /\ ptr_offset p + n <= get_size r /\
            0 <= get_offset r /\
            get_offset r + get_size r <= Z.of_nat (List.length f) /\
            bs = bytes_at f (get_offset r + ptr_offset p) n.
Proof.
  unfold load. destruct (region m) as [r|]; [|discriminate].
  destruct (Nat.eqb (serial r) (ptr_serial p)) eqn:E1; cbn [andb]; [|discriminate].
  destruct (0 <=? ptr_offset p) eqn:E2; cbn [andb]; [|discriminate].
  destruct (ptr_offset p + n <=? get_size r) eqn:E3; cbn [andb]; [|discriminate].
  destruct (0 <=? get_offset r) eqn:E4; cbn [andb]; [|discriminate].
  destruct (get_offset r + get_size r <=? Z.of_nat (List.length f)) eqn:E5;
    [|discriminate].
  intro H. inversion H. split; [reflexivity|]. exists r.
  apply Nat.eqb_eq in E1. apply Z.leb_le in E2, E3, E4, E5. auto 10.
Qed.

(** A call that returns leaves the region as it was or maps a region with
    a serial number that no earlier region has. *)
Lemma EnsureRangeAccessible_fresh pf fsize start length m p m' :
  EnsureRangeAccessible pf fsize start length m = (Return p, m') ->
  serial_ok m ->
  serial_ok m' /\
  (m' = m \/
   exists r', region m' = Some r' /\ serial r' = S (regions_created m)).
Proof.
  intros H Hok. apply EnsureRangeAccessible_cases in H.
  destruct H as [[-> _] | (_ & new_start & size & _ & [Hmap | Hno])].
  - auto.
  - destruct Hmap as (_ & _ & Hr & Hc). split.
    + unfold serial_ok. rewrite Hr, Hc. cbn. lia.
    + right. eexists. split; [exact Hr | reflexivity].
  - destruct Hno as (_ & Ho & _). discriminate Ho.
Qed.

(** A pointer into the region mapped before a call that returns is a
    pointer into the region mapped after it only if the call mapped no
    region. *)
Lemma same_serial_same_mapper pf fsize start length m p m' r r' :
  EnsureRangeAccessible pf fsize start length m = (Return p, m') ->
  serial_ok m -> region m = Some r -> region m' = Some r' ->
  serial r' = serial r -> m' = m.
Proof.
  intros H Hok Hr Hr' Hs.
  destruct (EnsureRangeAccessible_fresh _ _ _ _ _ _ _ H Hok)
    as (_ & [-> | (r2 & Hr2 & Hs2)]); [reflexivity|].
  rewrite Hr' in Hr2. inversion Hr2; subst r2.
  unfold serial_ok in Hok. rewrite Hr in Hok. lia.
Qed.

Lemma wave64_point_same_format f this this' ip :
  bytes_per_sample this' = bytes_per_sample this ->
  channels this' = channels this ->
  wave64_point f this ip -> wave64_point f this' ip.
Proof.
  intros Hb Hc (pos & H1 & H2 & H3 & H4 & H5). exists pos. rewrite Hb, Hc. auto.
Qed.

Lemma sint_nonneg_small z :
  0 <= z < 2 ^ 64 -> 0 <= sint 64 z -> sint 64 z = z /\ z < 2 ^ 63.
Proof.
  intros Hz. unfold sint. rewrite Z.mod_small by lia. cbv zeta.
  change (64 - 1) with 63.
  destruct (z <? 2 ^ 63) eqn:E.
  - apply Z.ltb_lt in E. auto.
  - apply Z.ltb_ge in E. lia.
Qed.

Lemma wave64_chunk_keeps_points pf f st m st' m' :
  wave64_walk_inv f st m ->
  Wave64.chunk pf f st m = (Return st', m') ->
  wave64_walk_inv f st' m'.
Proof.
  intros [Hsync Hserial Hfirst Hpoints Hcur] H.
  unfold Wave64.chunk in H. invert_run H.
  apply ret_inv in H. destruct H as [-> ->]. cbn [got_fmt_header object].
  pose proof Hrun as Hg.
  apply EnsureRangeAccessible_returns in Hg; [|exact Hsync].
  destruct Hg as (Hsync1 & _ & r1 & Hr1 & Hs1 & Hp1).
  destruct (EnsureRangeAccessible_fresh _ _ _ _ _ _ _ Hrun Hserial) as [Hserial1 _].
  pose proof Hrun0 as Hsz.
  apply EnsureRangeAccessible_returns in Hsz; [|exact Hsync1].
  destruct Hsz as (Hsync2 & _ & r2 & Hr2 & Hs2 & Hp2).
  destruct (EnsureRangeAccessible_fresh _ _ _ _ _ _ _ Hrun0 Hserial1)
    as [Hserial2 _].
  match goal with
  | H : load_uint _ _ 0 8 _ = (Return ?size, _) |- _ =>
      pose proof H as Hsize; unfold load_uint in H; invert_run H;
      match goal with
      | Hl : load _ _ 8 _ = _ |- _ =>
          apply load_inv_bounds in Hl;
          destruct Hl as (-> & r2' & Hr2' & _ & Hb1 & Hb2 & Hb3 & Hb4 & _)
      end;
      apply ret_inv in H; destruct H as [_ ->];
      destruct (load_uint_inv _ _ _ _ _ _ _ _ _ Hr2 Hs2 Hp2 Hsize) as [_ ->]
  end.
  rewrite Hr2 in Hr2'. inversion Hr2'; subst r2'. clear Hr2'.
  cbn [ptr_add ptr_offset] in Hb1, Hb2.
  match goal with
  | H : Wave64.CheckGuid _ _ Wave64.w64Guidfmt _ = (Return ?b, _) |- _ =>
      unfold Wave64.CheckGuid in H; invert_run H;
      match goal with
      | Hl : load _ _ 16 _ = _ |- _ =>
          apply load_inv_bounds in Hl;
          destruct Hl as (-> & rg & Hrg & Hsg & Hg1 & Hg2 & Hg3 & Hg4 & ->)
      end;
      apply ret_inv in H; destruct H as [-> ->]
  end.
  rewrite Hr2 in Hrg. inversion Hrg; subst rg. clear Hrg.
  assert (Hsame : m1 = m0).
  { eapply same_serial_same_mapper; try eassumption. congruence. }
  subst m1. rewrite Hr1 in Hr2. inversion Hr2; subst r2.
  assert (Hpos : sint 64 (filepos st) = filepos st /\ filepos st < 2 ^ 63)
    by (apply sint_nonneg_small; [exact Hcur | lia]).
  destruct Hpos as [Hpos Hlt].
  rewrite Hpos in *.
  assert (Hpos2 : sint 64 (uint 64 (filepos st + 16)) = filepos st + 16).
  { rewrite (uint_small 64 (filepos st + 16)) in * by lia.
    apply sint_nonneg_small; lia. }
  rewrite Hpos2 in *.
  match goal with
  | H : (if ?b then _ else _) _ = (Return ?seen, _) |- _ =>
      destruct b eqn:Hfmt; rename H into Hseen
  end.
  - unfold Wave64.fmt_chunk in Hseen.
    destruct (got_fmt_header st) eqn:Hgot; [discriminate|].
    invert_run Hseen.
    match goal with
    | H : EnsureRangeAccessible _ _ _ _ _ = _ |- _ =>
        pose proof (EnsureRangeAccessible_fresh _ _ _ _ _ _ _ H Hserial2)
          as [Hserial3 _];
        apply EnsureRangeAccessible_returns in H; [|exact Hsync2];
        destruct H as (Hsync3 & _ & _)
    end.
    repeat match goal with
           | H : load_uint _ _ _ _ _ = _ |- _ =>
               apply load_inv_state in H; subst
           end.
    repeat match type of Hseen with
           | (if ?b then _ else _) _ = _ => destruct b; [discriminate|]
           end.
    invert_run Hseen.
    repeat match goal with
           | H : load_uint _ _ _ _ _ = _ |- _ =>
               apply load_inv_state in H; subst
           end.
    apply ret_inv in Hseen. destruct Hseen as [-> ->].
    assert (Hnil : index_points (object st) = []).
    { destruct (index_points (object st)) eqn:E; [reflexivity|].
      exfalso. assert (false = true) by (apply Hfirst; discriminate).
      discriminate. }
    constructor; cbn [fst snd got_fmt_header object set_format index_points filepos].
    + exact Hsync3.
    + exact Hserial3.
    + reflexivity.
    + rewrite Hnil. constructor.
    + apply Z.mod_pos_bound. lia.
  - invert_run Hseen.
    match goal with
    | H : Wave64.CheckGuid _ _ Wave64.w64Guiddata _ = (Return ?b, _) |- _ =>
        unfold Wave64.CheckGuid in H; invert_run H;
        match goal with
        | Hl : load _ _ 16 _ = _ |- _ =>
            apply load_inv in Hl; destruct Hl as (-> & rd & Hrd & _ & ->)
        end;
        apply ret_inv in H; destruct H as [-> ->]
    end.
    rewrite Hr1 in Hrd. inversion Hrd; subst rd. clear Hrd.
    rewrite Hp1 in *.
    match type of Hseen with
    | (if ?b then _ else _) _ = _ => destruct b eqn:Hdata
    end.
    + unfold Wave64.data_chunk in Hseen.
      destruct (got_fmt_header st) eqn:Hgot; [|discriminate]. cbn [negb] in Hseen.
      invert_run Hseen. apply ret_inv in Hseen. destruct Hseen as [-> ->].
      repeat match goal with
             | H : divide _ _ _ = _ |- _ =>
                 apply divide_inv in H; destruct H as (-> & ? & ->)
             | H : i64 _ _ = _ |- _ =>
                 apply i64_inv in H; destruct H as (-> & -> & ?)
             end.
      constructor;
        cbn [fst snd got_fmt_header object push_back index_points filepos].
      * exact Hsync2.
      * exact Hserial2.
      * reflexivity.
      * apply Forall_app. split.
        -- eapply Forall_impl; [|exact Hpoints].
           intros ip. apply wave64_point_same_format; reflexivity.
        -- constructor; [|constructor].
           exists (filepos st).
           cbn [IndexPoint.start_byte IndexPoint.num_samples
                  bytes_per_sample channels].
           split; [lia|]. split; [lia|].
           split; [apply bytes_eqb_eq; exact Hdata|].
           split; [exact Hpos|].
           rewrite Z.add_0_r. reflexivity.
      * apply Z.mod_pos_bound. lia.
    + apply ret_inv in Hseen. destruct Hseen as [-> ->].
      constructor; cbn [fst snd got_fmt_header object filepos]; try assumption.
      apply Z.mod_pos_bound. lia.
Qed.

(** X22: every index point of a provider the Wave64 parser returns comes
    from a chunk with the data GUID whose 24-byte header lies in the file:
    start_byte is the position of the first byte of the GUID, not of the
    payload that follows the header, and the count is the declared chunk
    size, which counts the header, divided by bytes_per_sample, taken as a
    signed number, then divided by channels.  So the frames FillBuffer
    reads for a Wave64 data chunk begin with the bytes of its header. *)
Theorem wave64_index_points_at_headers :
  forall (pf : platform) (f : file) (fuel : nat) (this : PCMAudioProvider)
         (m : mapper),
    Wave64.Wave64AudioProvider pf f fuel = Some (Return this, m) ->
    Forall (wave64_point f this) (index_points this).
Proof.
  intros pf f fuel this m H.
  unfold Wave64.Wave64AudioProvider, construct in H.
  pose proof (wave64_open_cases pf f) as Ho.
  destruct (Wave64.open pf f unmapped) as [[st0 | e | u] m0] eqn:Hopen;
    try discriminate.
  destruct (while fuel more_data (Wave64.chunk pf f) st0 m0)
    as [[[st1 | e | u] m1]|] eqn:Hw; try discriminate.
  inversion H; subst.
  apply (while_invariant_state _ _ (wave64_walk_inv f)) in Hw.
  - exact (w64_points _ _ _ Hw).
  - intros st s st' s' Hinv _ Hb. eapply wave64_chunk_keeps_points; eassumption.
  - pose proof (wave64_open_object _ _ _ _ Hopen) as Hobj.
    assert (Hserial : serial_ok m0 /\ filepos st0 = 40).
    { unfold Wave64.open in Hopen.
      destruct (Z.of_nat (List.length f) <? Wave64.smallest_possible_file pf);
        [discriminate|].
      invert_run Hopen.
      destruct (EnsureRangeAccessible_fresh _ _ _ _ _ _ _ Hrun I) as [Hs _].
      unfold Wave64.CheckGuid in *.
      repeat match goal with
             | H : bind (load _ _ _) _ _ = (Return _, _) |- _ =>
                 let Hl := fresh "Hl" in
                 apply bind_Return in H; destruct H as (? & ? & Hl & H);
                 apply load_inv in Hl; destruct Hl as (-> & _);
                 apply ret_inv in H; destruct H as [-> ->]
             end.
      repeat match type of Hopen with
             | (if ?b then _ else _) _ = _ => destruct b; [discriminate|]
             | _ => progress invert_run Hopen
             end.
      repeat match goal with
             | H : bind (load _ _ _) _ _ = (Return _, _) |- _ =>
                 let Hl := fresh "Hl" in
                 apply bind_Return in H; destruct H as (? & ? & Hl & H);
                 apply load_inv in Hl; destruct Hl as (-> & _);
                 apply ret_inv in H; destruct H as [-> ->]
             | H : load_uint _ _ _ _ _ = (Return _, _) |- _ =>
                 apply load_inv_state in H; subst
             end.
      apply ret_inv in Hopen. destruct Hopen as [-> ->].
      split; [exact Hs | reflexivity]. }
    destruct Hserial as [Hserial Hfp].
    constructor.
    + tauto.
    + exact Hserial.
    + rewrite Hobj. cbn. congruence.
    + rewrite Hobj. constructor.
    + rewrite Hfp. lia.
Qed.

Lemma wave64_index_points_at_headers_witness :
  exists this m,
    Wave64.Wave64AudioProvider lp64 backward_w64 4 = Some (Return this, m) /\
    Forall (wave64_point backward_w64 this) (index_points this).
Proof.
  eexists _, _. split.
  - vm_compute. reflexivity.
  - eapply (wave64_index_points_at_headers lp64 backward_w64 4).
    vm_compute. reflexivity.
Defined.

(** X23: the sums of the index hold for every provider the Wave64 parser
    returns, whatever sizes the chunks declare: each point starts at the
    sum of the counts of the points before it and num_samples, which fits
    64 bits, is the sum of all counts.  The order of the index can fail
    only through a negative count: when no count is negative the index is
    in order of start_sample and num_samples is not negative. *)
Theorem wave64_index_running_sums :
  forall (pf : platform) (f : file) (fuel : nat) (this : PCMAudioProvider)
         (m : mapper),
    Wave64.Wave64AudioProvider pf f fuel = Some (Return this, m) ->
    (forall k ip, nth_error (index_points this) k = Some ip ->
                  IndexPoint.start_sample ip
                  = total_samples (firstn k (index_points this))) /\
    num_samples this = total_samples (index_points this) /\
    (Forall (fun ip => 0 <= IndexPoint.num_samples ip) (index_points this) ->
     ordered_from 0 (index_points this) /\ 0 <= num_samples this).
Proof.
  intros pf f fuel this m H. unfold Wave64.Wave64AudioProvider in H.
  apply (construct_invariant _ _ _ _ (fun st => index_sums (object st))) in H.
  - destruct H as (st & -> & [Hc Ht] & _).
    split; [|split; [exact Ht|]].
    + intros k ip Hk. rewrite (contiguous_nth _ _ _ _ Hc Hk). lia.
    + intro Hn. split; [apply contiguous_ordered; assumption|].
      rewrite Ht. apply (total_samples_nonneg (object st)). exact Hn.
  - intros st m0 Ho. rewrite (wave64_open_object _ _ _ _ Ho).
    apply new_provider_sums.
  - intros st s st' s' Hs _ Hb. apply wave64_chunk_effect in Hb.
    eapply effect_keeps_sums; eassumption.
Qed.

Lemma wave64_index_running_sums_witness :
  exists this m,
    Wave64.Wave64AudioProvider lp64 backward_w64 4 = Some (Return this, m) /\
    (forall k ip, nth_error (index_points this) k = Some ip ->
                  IndexPoint.start_sample ip
                  = total_samples (firstn k (index_points this))) /\
    num_samples this = total_samples (index_points this) /\
    (Forall (fun ip => 0 <= IndexPoint.num_samples ip) (index_points this) ->
     ordered_from 0 (index_points this) /\ 0 <= num_samples this).
Proof.
  eexists _, _. split.
  - vm_compute. reflexivity.
  - eapply (wave64_index_running_sums lp64 backward_w64 4).
    vm_compute. reflexivity.
Defined.

(** ** Pointers kept across a change of window *)

Lemma remap_granted pf (f : file) m start new_start size length :
  map_view pf new_start size = true ->
  0 <= new_start -> new_start <= start -> 0 <= size ->
  start + length <= new_start + size ->
  new_start + size <= Z.of_nat (List.length f) ->
  let r' := {| get_offset := new_start; get_size := size;
               serial := S (regions_created m) |} in
  let m' := {| region := Some r'; mapping_start := new_start;
               regions_created := S (regions_created m) |} in
  let p := {| ptr_serial := S (regions_created m);
              ptr_offset := start - new_start |} in
  remap pf start new_start size m = (Return p, m') /\
  forall off n, 0 <= off -> 0 <= n -> off + n <= length ->
    load f (ptr_add p off) n m' = (Return (bytes_at f (start + off) n), m').
Proof.
  intros Hview H0 Hle Hsz Hcov Hend r' m' p. split.
  - unfold remap. rewrite Hview. reflexivity.
  - intros off n Hoff Hn Hfit. unfold load.
    cbn [region m' r' p ptr_add ptr_serial ptr_offset serial get_offset get_size].
    rewrite Nat.eqb_refl. rewrite !leb_true by lia.
    cbn [andb]. do 3 f_equal. lia.
Qed.

(** X24: the reference to the chunk header outlives the window it points
    into.  On a build with a 32-bit size_t, when the window in place holds
    the 8-byte header of a first 'fmt ' chunk but not the 16 bytes that
    follow it, the request for the format fields maps a new window and
    destroys the old one; the format is read, and the size of the chunk is
    then read through the old pointer, into a region that is no longer
    mapped, which is undefined.  (With windows of 16 MiB aligned to 1 MiB
    this is a 'fmt ' chunk header in the last 8 bytes of a window.) *)
Theorem riff_fmt_header_across_windows :
  forall (pf : platform) (f : file) (st : walk) (m : mapper)
         (r : mapped_region),
    let fsize := Z.of_nat (List.length f) in
    size_t_bits pf = Bits32 -> dependable pf fsize ->
    mapper_wf fsize m -> serial_ok m -> region m = Some r ->
    0 <= filepos st -> filepos st + 24 <= fsize ->
    covers m r (filepos st) 8 -> ~ covers m r (filepos st + 8) 16 ->
    got_fmt_header st = false ->
    bytes_at f (filepos st) 4 = chars "fmt " ->
    le (bytes_at f (filepos st + 8) 2) = 1 ->
    exists m',
      RiffWav.chunk pf f st m = (Undefined InvalidPointer, m') /\
      regions_created m' = S (regions_created m).
Proof.
  intros pf f st m r fsize Hbits Hpf Hwf Hserial Hr Hpos Hfit Hcov Hnot Hgot
    Htype Hpcm.
  pose proof (proj2 Hpf Hbits) as H32.
  pose proof (proj1 Hpf) as Hview.
  change (2 ^ 32 - 2 ^ 20) with 4293918720 in H32.
  assert (Hmx : INT64_MAX = 2 ^ 63 - 1) by reflexivity.
  assert (Hmn : INT64_MIN = - 2 ^ 63) by reflexivity.
  assert (Hmax : fsize <= INT64_MAX) by lia.
  pose proof (mapper_wf_window_ok _ _ _ Hmax Hwf Hr) as Hok.
  destruct Hcov as [Hlo Hhi].
  unfold RiffWav.chunk, RiffWav.sizeof_ChunkHeader. fold fsize.
  rewrite (bind_step _ _ _ _ _
             (EnsureRangeAccessible_reuses pf fsize (filepos st) 8 m r
                ltac:(apply is_int64_true; lia) ltac:(lia) Hr Hok ltac:(lia)
                ltac:(unfold covers; lia))).
  set (ch := {| ptr_serial := serial r;
                ptr_offset := filepos st - mapping_start m |}).
  assert (Hck : RiffWav.CheckFourcc f ch 0 "fmt " m = (Return true, m)).
  { unfold RiffWav.CheckFourcc.
    rewrite (bind_step _ _ _ _ _
               (load_in_window f m r (ptr_add ch 0) 4 Hr Hwf eq_refl
                  ltac:(cbv [ch ptr_add ptr_offset ptr_serial]; lia)
                  ltac:(cbv [ch ptr_add ptr_offset ptr_serial]; lia))).
    cbv [ch ptr_add ptr_offset ptr_serial].
    replace (mapping_start m + (filepos st - mapping_start m + 0))
      with (filepos st) by lia.
    rewrite Htype. reflexivity. }
  rewrite (bind_step _ _ _ _ _ Hck).
  rewrite (uint_small 32 (filepos st + 8))
    by (change (2 ^ 32) with 4294967296; lia).
  unfold RiffWav.fmt_chunk, RiffWav.sizeof_fmtChunk. rewrite Hgot. fold fsize.
  rewrite !bind_assoc.
  destruct (window_start_32_bounds (filepos st + 8) ltac:(lia)) as (HA & Hd & Hm).
  destruct (window_size_32_bounds fsize (filepos st + 8) 16
              ltac:(lia) ltac:(lia) ltac:(lia)) as (Hc & He & Hz & _).
  destruct (remap_granted pf f m (filepos st + 8)
              (window_start_32 (filepos st + 8))
              (window_size_32 fsize (filepos st + 8) 16) 16
              (Hview _ _) ltac:(lia) ltac:(lia) Hz Hc He) as [Hremap Hload].
  rewrite <- (EnsureRangeAccessible_remaps_32 pf fsize m (filepos st + 8) 16)
    in Hremap
    by (try assumption; try lia;
        intros r' Hr'; rewrite Hr in Hr'; inversion Hr'; subst r'; exact Hnot).
  rewrite (bind_step _ _ _ _ _ Hremap).
  unfold load_uint. rewrite !bind_assoc.
  rewrite (bind_step _ _ _ _ _ (Hload 0 2 ltac:(lia) ltac:(lia) ltac:(lia))).
  rewrite Z.add_0_r.
  rewrite (bind_step _ _ _ _ _
             (eq_refl : ret (le (bytes_at f (filepos st + 8) 2)) _ = (_, _))).
  rewrite Hpcm. cbn [Z.eqb Pos.eqb negb].
  rewrite !bind_assoc.
  rewrite (bind_step _ _ _ _ _ (Hload 4 4 ltac:(lia) ltac:(lia) ltac:(lia))).
  rewrite (bind_step _ _ _ _ _ (eq_refl : ret _ _ = (_, _))).
  rewrite !bind_assoc.
  rewrite (bind_step _ _ _ _ _ (Hload 2 2 ltac:(lia) ltac:(lia) ltac:(lia))).
  rewrite (bind_step _ _ _ _ _ (eq_refl : ret _ _ = (_, _))).
  rewrite !bind_assoc.
  rewrite (bind_step _ _ _ _ _ (Hload 14 2 ltac:(lia) ltac:(lia) ltac:(lia))).
  rewrite (bind_step _ _ _ _ _ (eq_refl : ret _ _ = (_, _))).
  rewrite (bind_step _ _ _ _ _ (eq_refl : ret _ _ = (_, _))).
  eexists. split.
  - unfold bind at 1. unfold bind at 1. unfold load.
    cbn [region serial ch ptr_add ptr_serial].
    assert (Hne : Nat.eqb (S (regions_created m)) (serial r) = false).
    { apply Nat.eqb_neq. unfold serial_ok in Hserial. rewrite Hr in Hserial. lia. }
    rewrite Hne. reflexivity.
  - reflexivity.
Qed.

Lemma riff_fmt_header_across_windows_witness :
  exists m',
    RiffWav.chunk ilp32 (stereo16_wav ramp)
      (at_first_chunk (stereo16_wav ramp) 12 48 false)
      {| region := Some {| get_offset := 0; get_size := 20; serial := 1 |};
         mapping_start := 0; regions_created := 1 |}
      = (Undefined InvalidPointer, m') /\
    regions_created m' = 2%nat.
Proof.
  apply (riff_fmt_header_across_windows ilp32 (stereo16_wav ramp)
           (at_first_chunk (stereo16_wav ramp) 12 48 false)
           {| region := Some {| get_offset := 0; get_size := 20; serial := 1 |};
              mapping_start := 0; regions_created := 1 |}
           {| get_offset := 0; get_size := 20; serial := 1 |}).
  - reflexivity.
  - split; [reflexivity | intros _; vm_compute; discriminate].
  - vm_compute. repeat split; discriminate.
  - vm_compute. apply le_n.
  - reflexivity.
  - cbn. lia.
  - vm_compute. discriminate.
  - unfold covers. cbn. lia.
  - unfold covers. cbn. lia.
  - reflexivity.
  - reflexivity.
  - reflexivity.
Defined.

(** ** A Wave64 cursor past 2^63 *)

(** X25: the Wave64 cursor is a uint64_t given to EnsureRangeAccessible as
    an int64_t.  On a 64-bit build, once the cursor is at or above 2^63 (a
    chunk that declares 2^63 bytes puts it there) the iteration asks for
    ranges that start below 0; they pass the test against the end of the
    file, and the chunk size is read through a pointer that lies before
    the mapped file, which is undefined, where a decode error would be
    expected. *)
Theorem wave64_cursor_past_int64 :
  forall (pf : platform) (f : file) (st : walk) (m : mapper),
    let fsize := Z.of_nat (List.length f) in
    size_t_bits pf = Bits64 -> map_view pf 0 fsize = true ->
    fsize <= INT64_MAX -> 0 <= mapping_start m ->
    2 ^ 63 <= filepos st -> filepos st + 24 <= 2 ^ 64 ->
    exists m',
      Wave64.chunk pf f st m = (Undefined InvalidPointer, m').
Proof.
  intros pf f st m fsize Hbits Hview Hmax Hms Hlo Hhi.
  assert (Hb : INT64_MAX = 2 ^ 63 - 1) by reflexivity.
  assert (Hb' : INT64_MIN = - 2 ^ 63) by reflexivity.
  assert (H64 : 2 ^ 64 = 2 * 2 ^ 63) by reflexivity.
  assert (Hs1 : sint 64 (filepos st) = filepos st - 2 ^ 64).
  { unfold sint. rewrite Z.mod_small by lia. cbv zeta.
    change (64 - 1) with 63. rewrite (proj2 (Z.ltb_ge _ _)) by lia.
    reflexivity. }
  assert (Hs2 : sint 64 (uint 64 (filepos st + 16)) = filepos st + 16 - 2 ^ 64).
  { rewrite uint_small by lia.
    unfold sint. rewrite Z.mod_small by lia. cbv zeta.
    change (64 - 1) with 63. rewrite (proj2 (Z.ltb_ge _ _)) by lia.
    reflexivity. }
  assert (H0 : 0 <= fsize) by (unfold fsize; lia).
  unfold Wave64.chunk. fold fsize. rewrite Hs1, Hs2.
  rewrite (bind_step _ _ _ _ _
             (EnsureRangeAccessible_negative_64 pf fsize m
                (filepos st - 2 ^ 64) 16 Hbits Hview
                Hmax Hms ltac:(lia) ltac:(lia) ltac:(lia))).
  set (m1 := {| region := Some {| get_offset := 0; get_size := fsize;
                                  serial := S (regions_created m) |};
                mapping_start := 0;
                regions_created := S (regions_created m) |}).
  rewrite (bind_step _ _ _ _ _
             (EnsureRangeAccessible_negative_64 pf fsize m1
                (filepos st + 16 - 2 ^ 64) 8 Hbits Hview
                Hmax ltac:(cbn; lia) ltac:(lia) ltac:(lia) ltac:(lia))).
  eexists. unfold bind at 1. unfold load_uint, bind at 1. unfold load.
  cbn [region ptr_add ptr_offset ptr_serial serial get_offset get_size].
  rewrite Nat.eqb_refl.
  rewrite (leb_false 0 (filepos st + 16 - 2 ^ 64 + 0)) by lia.
  reflexivity.
Qed.

Lemma wave64_cursor_past_int64_witness :
  (exists m, Wave64.Wave64AudioProvider lp64 far_w64 2
             = Some (Undefined InvalidPointer, m)) /\
  exists m',
    Wave64.chunk lp64 far_w64
      {| data_left := uint 64 (88 - 2 ^ 63); filepos := 40 + 2 ^ 63;
         got_fmt_header := false; object := PCMAudioProvider_new far_w64 |}
      (mapped_whole 128)
    = (Undefined InvalidPointer, m').
Proof.
  split.
  - eexists. vm_compute. reflexivity.
  - apply (wave64_cursor_past_int64 lp64 far_w64
             {| data_left := uint 64 (88 - 2 ^ 63); filepos := 40 + 2 ^ 63;
                got_fmt_header := false;
                object := PCMAudioProvider_new far_w64 |}
             (mapped_whole 128)).
    + reflexivity.
    + reflexivity.
    + vm_compute. discriminate.
    + cbn. lia.
    + vm_compute. discriminate.
    + vm_compute. discriminate.
Defined.

(** ** Reads of the RIFF WAV parser on a 64-bit build *)

Lemma keeps_bind {A B} m0 (c : M mapper A) (k : A -> M mapper B)
  (Q : A -> Prop) (R : B -> Prop) :
  keeps m0 c Q -> (forall a, Q a -> keeps m0 (k a) R) -> keeps m0 (bind c k) R.
Proof.
  intros Hc Hk o m' H. apply bind_cases in H.
  destruct H as [(a & s1 & Hca & Hka) | [(e & Hce & ->) | (u & Hcu & ->)]].
  - destruct (Hc _ _ Hca) as [-> HQ]. exact (Hk a HQ _ _ Hka).
  - destruct (Hc _ _ Hce) as [-> _]. auto.
  - destruct (Hc _ _ Hcu) as [-> Hu]. auto.
Qed.

Lemma keeps_ret {A} m0 (a : A) (Q : A -> Prop) : Q a -> keeps m0 (ret a) Q.
Proof. intros HQ o m' H. inversion H. auto. Qed.

Lemma keeps_throw {A} m0 e (Q : A -> Prop) : keeps m0 (throw e) Q.
Proof. intros o m' H. inversion H. auto. Qed.

Lemma keeps_i64 m0 z : keeps m0 (i64 z) (fun _ => True).
Proof.
  intros o m' H. apply i64_cases in H. destruct H as [-> [-> | ->]].
  - auto.
  - split; [reflexivity | right; reflexivity].
Qed.

Lemma keeps_divide m0 a b : keeps m0 (divide a b) (fun _ => True).
Proof.
  intros o m'. unfold divide. destruct (b =? 0); intro H; inversion H.
  - split; [reflexivity | left; reflexivity].
  - auto.
Qed.

Lemma keeps_EnsureRangeAccessible pf fsize m0 r start length :
  fsize <= INT64_MAX -> whole_file fsize m0 r ->
  0 <= start -> 0 <= length ->
  keeps m0 (EnsureRangeAccessible pf fsize start length)
    (fun p => p = {| ptr_serial := serial r; ptr_offset := start |} /\
              start + length <= fsize).
Proof.
  intros Hmax Hwhole Hs Hl o m' H.
  destruct (Z_le_gt_dec (start + length) fsize) as [Hin | Hout].
  - rewrite (EnsureRangeAccessible_whole_file pf fsize m0 r start length
               Hmax Hwhole Hs Hl Hin) in H.
    inversion H. auto.
  - unfold EnsureRangeAccessible in H.
    destruct (is_int64 (start + length)) eqn:Hfit.
    + rewrite bind_i64 in H by exact Hfit.
      rewrite gtb_true in H by lia. inversion H. auto.
    + unfold bind, i64 in H. rewrite Hfit in H. inversion H.
      split; [reflexivity | right; reflexivity].
Qed.

Lemma keeps_load (f : file) m0 r pos off n :
  whole_file (Z.of_nat (List.length f)) m0 r ->
  0 <= pos + off -> 0 <= n -> pos + off + n <= Z.of_nat (List.length f) ->
  keeps m0 (load f (ptr_add {| ptr_serial := serial r; ptr_offset := pos |} off) n)
    (fun _ => True).
Proof.
  intros Hwhole H0 Hn Hin o m' H.
  rewrite (load_whole_file f m0 r pos off n Hwhole H0 Hn Hin) in H.
  inversion H. auto.
Qed.

Lemma keeps_load_uint (f : file) m0 r pos off n :
  whole_file (Z.of_nat (List.length f)) m0 r ->
  0 <= pos + off -> 0 <= n -> pos + off + n <= Z.of_nat (List.length f) ->
  keeps m0 (load_uint f {| ptr_serial := serial r; ptr_offset := pos |} off n)
    (fun _ => True).
Proof.
  intros Hwhole H0 Hn Hin. unfold load_uint.
  eapply keeps_bind; [apply keeps_load; eassumption|].
  intros bs _. apply keeps_ret. exact I.
Qed.

Lemma keeps_CheckFourcc (f : file) m0 r pos off s :
  whole_file (Z.of_nat (List.length f)) m0 r ->
  0 <= pos + off -> pos + off + 4 <= Z.of_nat (List.length f) ->
  keeps m0 (RiffWav.CheckFourcc f {| ptr_serial := serial r; ptr_offset := pos |}
              off s)
    (fun _ => True).
Proof.
  intros Hwhole H0 Hin. unfold RiffWav.CheckFourcc.
  eapply keeps_bind; [apply keeps_load; try eassumption; lia|].
  intros bs _. apply keeps_ret. exact I.
Qed.

Lemma riff_chunk_keeps pf f st m0 r :
  let fsize := Z.of_nat (List.length f) in
  fsize <= INT64_MAX -> whole_file fsize m0 r -> 0 <= filepos st ->
  keeps m0 (RiffWav.chunk pf f st) (fun st' => 0 <= filepos st').
Proof.
  intros fsize Hmax Hwhole Hpos. unfold RiffWav.chunk.
  eapply keeps_bind.
  { apply (keeps_EnsureRangeAccessible pf fsize m0 r); try assumption.
    unfold RiffWav.sizeof_ChunkHeader. lia. }
  unfold RiffWav.sizeof_ChunkHeader. intros ch [-> Hin].
  eapply keeps_bind; [apply keeps_CheckFourcc; try assumption; fold fsize; lia|].
  intros is_fmt _.
  eapply keeps_bind with (Q := fun _ => True).
  { destruct is_fmt.
    - unfold RiffWav.fmt_chunk, RiffWav.sizeof_fmtChunk.
      destruct (got_fmt_header st); [apply keeps_throw|].
      pose proof (uint_nonneg 32 (filepos st + 8) ltac:(lia)) as Hp1.
      eapply keeps_bind.
      { apply (keeps_EnsureRangeAccessible pf fsize m0 r); try assumption. lia. }
      intros fmt [-> Hin2].
      eapply keeps_bind;
        [apply keeps_load_uint; try assumption; fold fsize; lia|].
      intros compression _.
      destruct (negb (compression =? 1)); [apply keeps_throw|].
      eapply keeps_bind;
        [apply keeps_load_uint; try assumption; fold fsize; lia|].
      intros samplerate _.
      eapply keeps_bind;
        [apply keeps_load_uint; try assumption; fold fsize; lia|].
      intros chans _.
      eapply keeps_bind;
        [apply keeps_load_uint; try assumption; fold fsize; lia|].
      intros bits _. apply keeps_ret. exact I.
    - eapply keeps_bind;
        [apply keeps_CheckFourcc; try assumption; fold fsize; lia|].
      intros is_data _. destruct is_data.
      + unfold RiffWav.data_chunk.
        destruct (negb (got_fmt_header st)); [apply keeps_throw|].
        eapply keeps_bind;
          [apply keeps_load_uint; try assumption; fold fsize; lia|].
        intros size _.
        eapply keeps_bind; [apply keeps_divide|]. intros samples _.
        eapply keeps_bind; [apply keeps_divide|]. intros frames _.
        eapply keeps_bind; [apply keeps_i64|]. intros total _.
        apply keeps_ret. exact I.
      + apply keeps_ret. exact I. }
  intros seen _.
  eapply keeps_bind; [apply keeps_load_uint; try assumption; fold fsize; lia|].
  intros size _. apply keeps_ret. cbn [filepos]. apply uint_nonneg. lia.
Qed.

Lemma while_keeps {St} m0 (cond : St -> bool) (body : St -> M mapper St)
  (I : St -> Prop) :
  (forall st, I st -> keeps m0 (body st) I) ->
  forall fuel st o m',
    I st -> while fuel cond body st m0 = Some (o, m') ->
    m' = m0 /\
    match o with
    | Undefined u => arithmetic u
    | _ => True
    end.
Proof.
  intros Hbody. induction fuel as [|n IH]; intros st o m' HI H; cbn in H.
  - destruct (cond st); [discriminate|]. inversion H. auto.
  - destruct (cond st); [|inversion H; auto].
    destruct (body st m0) as [[st1 | e | u] m1] eqn:Hb;
      destruct (Hbody st HI _ _ Hb) as [-> Hpost].
    + eapply IH; eassumption.
    + inversion H. auto.
    + inversion H. auto.
Qed.

(** X26: on a build with a 64-bit size_t on which the view of the whole
    file is granted, the RIFF WAV constructor reads nothing but bytes of
    the mapped file: whatever the file holds and however the constructor
    ends, it has mapped no region or the whole file once, and it has made
    no read through a pointer that is outside the mapped region or into a
    region that is no longer mapped.  Of the undefined behaviours that are
    told apart here, which are those of the bounds and the lifetime of a
    read and those of arithmetic, only a division by zero or an overflow
    of num_samples can end it; the alignment of the structures laid over
    the file is not among them, and nothing is said of it. *)
Theorem riff_reads_inside_the_file_64 :
  forall (pf : platform) (f : file) (fuel : nat)
         (o : outcome PCMAudioProvider) (m : mapper),
    let fsize := Z.of_nat (List.length f) in
    size_t_bits pf = Bits64 -> map_view pf 0 fsize = true ->
    fsize <= INT64_MAX ->
    RiffWav.RiffWavPCMAudioProvider pf f fuel = Some (o, m) ->
    (m = unmapped \/ m = mapped_whole fsize) /\
    match o with
    | Undefined u => arithmetic u
    | _ => True
    end.
Proof.
  intros pf f fuel o m fsize Hbits Hview Hmax H.
  assert (Hmx : INT64_MAX = 2 ^ 63 - 1) by reflexivity.
  assert (Hmn : INT64_MIN = - 2 ^ 63) by reflexivity.
  unfold RiffWav.RiffWavPCMAudioProvider, construct in H.
  destruct (Z_le_gt_dec 12 fsize) as [Hin | Hout].
  - pose proof (EnsureRangeAccessible_maps_whole_file pf fsize unmapped 0 12
                  Hbits Hview Hmax eq_refl ltac:(lia) ltac:(lia) Hin) as Hera.
    change {| region := Some {| get_offset := 0; get_size := fsize;
                                serial := S (regions_created unmapped) |};
              mapping_start := 0;
              regions_created := S (regions_created unmapped) |}
      with (mapped_whole fsize) in Hera.
    cbn [regions_created unmapped] in Hera.
    pose proof (mapped_whole_file fsize) as Hwhole.
    assert (Hopen : keeps (mapped_whole fsize)
                      (fun m1 => RiffWav.open pf f unmapped)
                      (fun st => 0 <= filepos st)).
    { intros o1 m1 Ho. unfold RiffWav.open, RiffWav.sizeof_RIFFChunk in Ho.
      fold fsize in Ho. rewrite (bind_step _ _ _ _ _ Hera) in Ho.
      revert o1 m1 Ho.
      change (keeps (mapped_whole fsize)
                (riff <- RiffWav.CheckFourcc f
                           {| ptr_serial := 1; ptr_offset := 0 |} 0 "RIFF" ;;
                 if negb riff then
                   throw (AudioDataNotFoundError "File is not a RIFF file")
                 else
                   wave <- RiffWav.CheckFourcc f
                             {| ptr_serial := 1; ptr_offset := 0 |} 8 "WAVE" ;;
                   if negb wave then
                     throw (AudioDataNotFoundError "File is not a RIFF WAV file")
                   else
                     size <- load_uint f {| ptr_serial := 1; ptr_offset := 0 |} 4 4 ;;
                     ret {| data_left := uint 32 (size - 4);
                            filepos := 12;
                            got_fmt_header := false;
                            object := PCMAudioProvider_new f |})%cxx
                (fun st => 0 <= filepos st)).
      pose (r0 := {| get_offset := 0; get_size := fsize; serial := 1 |}).
      eapply keeps_bind;
        [apply (keeps_CheckFourcc f (mapped_whole fsize) r0 0 0);
         try exact Hwhole; fold fsize; lia|].
      intros riff _. destruct (negb riff); [apply keeps_throw|].
      eapply keeps_bind;
        [apply (keeps_CheckFourcc f (mapped_whole fsize) r0 0 8);
         try exact Hwhole; fold fsize; lia|].
      intros wave _. destruct (negb wave); [apply keeps_throw|].
      eapply keeps_bind;
        [apply (keeps_load_uint f (mapped_whole fsize) r0 0 4 4);
         try exact Hwhole; fold fsize; lia|].
      intros size _. apply keeps_ret. cbn. lia. }
    destruct (RiffWav.open pf f unmapped) as [[st0 | e | u] m0] eqn:Ho;
      destruct (Hopen _ _ eq_refl) as [-> Hpost].
    + destruct (while fuel more_data (RiffWav.chunk pf f) st0 (mapped_whole fsize))
        as [[o1 m1]|] eqn:Hw; [|discriminate].
      destruct (while_keeps (mapped_whole fsize) more_data (RiffWav.chunk pf f)
                  (fun st => 0 <= filepos st)
                  ltac:(intros st Hst;
                        exact (riff_chunk_keeps pf f st _ _ Hmax Hwhole Hst))
                  fuel st0 o1 m1 Hpost Hw) as [-> Hu].
      destruct o1; inversion H; subst; auto.
    + inversion H; subst. auto.
    + inversion H; subst. auto.
  - assert (Hopen : RiffWav.open pf f unmapped
                    = (Throw (AudioDecodeError "Attempted to map beyond end of file"),
                       unmapped)).
    { unfold RiffWav.open, RiffWav.sizeof_RIFFChunk, EnsureRangeAccessible.
      fold fsize. unfold bind at 1.
      rewrite bind_i64 by (apply is_int64_true; lia).
      rewrite gtb_true by lia. reflexivity. }
    rewrite Hopen in H. inversion H; subst. auto.
Qed.

Lemma riff_reads_inside_the_file_64_witness :
  exists m,
    RiffWav.RiffWavPCMAudioProvider lp64 zero_channels_wav 2
      = Some (Undefined DivisionByZero, m) /\
    (m = unmapped \/ m = mapped_whole (Z.of_nat (List.length zero_channels_wav))) /\
    arithmetic DivisionByZero.
Proof.
  eexists. split.
  - vm_compute. reflexivity.
  - apply (riff_reads_inside_the_file_64 lp64 zero_channels_wav 2
             (Undefined DivisionByZero)).
    + reflexivity.
    + reflexivity.
    + vm_compute. discriminate.
    + vm_compute. reflexivity.
Defined.

(** ** Files made of chunks *)

Lemma byte_val_byte_of_Z z : byte_val (byte_of_Z z) = z mod 256.
Proof.
  unfold byte_val, byte_of_Z.
  pose proof (Z.mod_pos_bound z 256 ltac:(lia)) as Hb.
  destruct (Byte.of_N (Z.to_N (z mod 256))) as [b|] eqn:E.
  - apply Byte.to_of_N in E. rewrite E. lia.
  - exfalso. pose proof (Byte.to_of_N_option_map (Z.to_N (z mod 256))) as H.
    rewrite E in H. cbn in H.
    destruct (Z.to_N (z mod 256) <=? 255)%N eqn:E2; [discriminate|].
    apply N.leb_gt in E2. lia.
Qed.

Lemma le_le_bytes n z : le (le_bytes n z) = z mod 256 ^ Z.of_nat n.
Proof.
  revert z. induction n as [|n IH]; intro z.
  - cbn. rewrite Z.mod_1_r. reflexivity.
  - cbn [le_bytes le]. rewrite IH, byte_val_byte_of_Z.
    rewrite Nat2Z.inj_succ, Z.pow_succ_r by lia.
    rewrite Z.rem_mul_r by lia. reflexivity.
Qed.

Lemma le_bytes_length n z : List.length (le_bytes n z) = n.
Proof. revert z. induction n; intro z; cbn; [reflexivity | f_equal; auto]. Qed.

Lemma zeros_length n : List.length (zeros n) = n.
Proof. apply repeat_length. Qed.

Lemma bytes_at_all (l : list byte) :
  bytes_at l 0 (Z.of_nat (List.length l)) = l.
Proof.
  unfold bytes_at. rewrite Nat2Z.id. cbn [Z.to_nat skipn]. apply firstn_all.
Qed.

Lemma bytes_at_prefix (a b : list byte) :
  bytes_at (a ++ b) 0 (Z.of_nat (List.length a)) = a.
Proof.
  rewrite bytes_at_app_l by lia. apply bytes_at_all.
Qed.

Lemma bytes_at_middle (pre x post : list byte) off n :
  0 <= off -> 0 <= n -> off + n <= Z.of_nat (List.length x) ->
  bytes_at (pre ++ x ++ post) (Z.of_nat (List.length pre) + off) n
  = bytes_at x off n.
Proof.
  intros Hoff Hn Hfit.
  rewrite bytes_at_app_r by lia.
  replace (Z.of_nat (List.length pre) + off - Z.of_nat (List.length pre))
    with off by lia.
  apply bytes_at_app_l; assumption.
Qed.

Lemma CheckFourcc_whole_file (f : file) m r pos off s :
  whole_file (Z.of_nat (List.length f)) m r ->
  0 <= pos + off -> pos + off + 4 <= Z.of_nat (List.length f) ->
  RiffWav.CheckFourcc f {| ptr_serial := serial r; ptr_offset := pos |} off s m
  = (Return (bytes_eqb (bytes_at f (pos + off) 4) (chars s)), m).
Proof.
  intros Hwhole H0 Hin. unfold RiffWav.CheckFourcc.
  rewrite (bind_step _ _ _ _ _
             (load_whole_file f m r pos off 4 Hwhole H0 ltac:(lia) Hin)).
  reflexivity.
Qed.

Lemma load_uint_whole_file (f : file) m r pos off n :
  whole_file (Z.of_nat (List.length f)) m r ->
  0 <= pos + off -> 0 <= n -> pos + off + n <= Z.of_nat (List.length f) ->
  load_uint f {| ptr_serial := serial r; ptr_offset := pos |} off n m
  = (Return (le (bytes_at f (pos + off) n)), m).
Proof.
  intros Hwhole H0 Hn Hin. unfold load_uint.
  rewrite (bind_step _ _ _ _ _ (load_whole_file f m r pos off n Hwhole H0 Hn Hin)).
  reflexivity.
Qed.

(** The first request, for the header, maps the whole file. *)
Lemma first_request_maps_file pf fsize length :
  maps_at_once pf fsize -> fsize <= INT64_MAX ->
  0 <= length -> length <= fsize ->
  EnsureRangeAccessible pf fsize 0 length unmapped
  = (Return {| ptr_serial := 1; ptr_offset := 0 |}, mapped_whole fsize).
Proof.
  intros [Hview H32] Hmax Hl Hin.
  destruct (size_t_bits pf) eqn:Hbits.
  - specialize (H32 eq_refl).
    rewrite (EnsureRangeAccessible_remaps_32 pf fsize unmapped 0 length Hbits
               ltac:(change (2 ^ 32 - 2 ^ 20) with 4293918720; lia)
               I ltac:(lia) Hl ltac:(lia))
      by (intros r Hr; discriminate Hr).
    assert (Hw : window_size_32 fsize 0 length = fsize).
    { unfold window_size_32, window_start_32.
      change (0 mod 1048576) with 0. change (0 / 1048576) with 0. lia. }
    rewrite Hw. change (window_start_32 0) with 0.
    unfold remap. rewrite Hview. reflexivity.
  - rewrite (EnsureRangeAccessible_maps_whole_file pf fsize unmapped 0 length
               Hbits Hview Hmax eq_refl ltac:(lia) Hl ltac:(lia)).
    reflexivity.
Qed.

(** One iteration of the RIFF WAV walk when the whole file is mapped, for
    each of the three kinds of chunk. *)
Lemma riff_other_chunk_whole pf f st m r :
  let fsize := Z.of_nat (List.length f) in
  fsize <= INT64_MAX -> whole_file fsize m r ->
  0 <= filepos st -> filepos st + 8 <= fsize ->
  bytes_at f (filepos st) 4 <> chars "fmt " ->
  bytes_at f (filepos st) 4 <> chars "data" ->
  let size := le (bytes_at f (filepos st + 4) 4) in
  RiffWav.chunk pf f st m
  = (Return {| data_left :=
                 uint 32 (uint 32 (data_left st - 8) - RiffWav.word_aligned size);
               filepos :=
                 uint 32 (uint 32 (filepos st + 8) + RiffWav.word_aligned size);
               got_fmt_header := got_fmt_header st;
               object := object st |}, m).
Proof.
  intros fsize Hmax Hwhole Hpos Hfit Hfmt Hdata size.
  unfold RiffWav.chunk, RiffWav.sizeof_ChunkHeader. fold fsize.
  rewrite (bind_step _ _ _ _ _
             (EnsureRangeAccessible_whole_file pf fsize m r (filepos st) 8
                Hmax Hwhole Hpos ltac:(lia) Hfit)).
  rewrite (bind_step _ _ _ _ _
             (CheckFourcc_whole_file f m r (filepos st) 0 "fmt " Hwhole
                ltac:(lia) ltac:(fold fsize; lia))).
  rewrite Z.add_0_r. rewrite (bytes_eqb_neq _ _ Hfmt). cbv iota.
  rewrite bind_assoc.
  rewrite (bind_step _ _ _ _ _
             (CheckFourcc_whole_file f m r (filepos st) 0 "data" Hwhole
                ltac:(lia) ltac:(fold fsize; lia))).
  rewrite Z.add_0_r. rewrite (bytes_eqb_neq _ _ Hdata). cbv iota.
  rewrite (bind_step _ _ _ _ _
             (eq_refl : ret (got_fmt_header st, object st) m = (_, m))).
  rewrite (bind_step _ _ _ _ _
             (load_uint_whole_file f m r (filepos st) 4 4 Hwhole
                ltac:(lia) ltac:(lia) ltac:(fold fsize; lia))).
  reflexivity.
Qed.

Lemma riff_data_chunk_whole pf f st m r :
  let fsize := Z.of_nat (List.length f) in
  fsize <= INT64_MAX -> whole_file fsize m r ->
  0 <= filepos st -> filepos st + 8 <= fsize ->
  bytes_at f (filepos st) 4 = chars "data" ->
  got_fmt_header st = true ->
  bytes_per_sample (object st) <> 0 -> channels (object st) <> 0 ->
  let size := le (bytes_at f (filepos st + 4) 4) in
  let frames :=
    Z.quot (Z.quot size (bytes_per_sample (object st))) (channels (object st)) in
  is_int64 (num_samples (object st) + frames) = true ->
  RiffWav.chunk pf f st m
  = (Return {| data_left :=
                 uint 32 (uint 32 (data_left st - 8) - RiffWav.word_aligned size);
               filepos :=
                 uint 32 (uint 32 (filepos st + 8) + RiffWav.word_aligned size);
               got_fmt_header := true;
               object :=
                 push_back (object st)
                   {| IndexPoint.start_byte := uint 32 (filepos st + 8);
                      IndexPoint.start_sample := num_samples (object st);
                      IndexPoint.num_samples := frames |}
                   (num_samples (object st) + frames) |}, m).
Proof.
  intros fsize Hmax Hwhole Hpos Hfit Htype Hgot Hbps Hch size frames Htot.
  unfold RiffWav.chunk, RiffWav.sizeof_ChunkHeader. fold fsize.
  rewrite (bind_step _ _ _ _ _
             (EnsureRangeAccessible_whole_file pf fsize m r (filepos st) 8
                Hmax Hwhole Hpos ltac:(lia) Hfit)).
  rewrite (bind_step _ _ _ _ _
             (CheckFourcc_whole_file f m r (filepos st) 0 "fmt " Hwhole
                ltac:(lia) ltac:(fold fsize; lia))).
  rewrite Z.add_0_r, Htype.
  change (bytes_eqb (chars "data") (chars "fmt ")) with false. cbv iota.
  rewrite bind_assoc.
  rewrite (bind_step _ _ _ _ _
             (CheckFourcc_whole_file f m r (filepos st) 0 "data" Hwhole
                ltac:(lia) ltac:(fold fsize; lia))).
  rewrite Z.add_0_r, Htype.
  change (bytes_eqb (chars "data") (chars "data")) with true. cbv iota.
  unfold RiffWav.data_chunk. rewrite Hgot. cbn [negb].
  rewrite !bind_assoc.
  rewrite (bind_step _ _ _ _ _
             (load_uint_whole_file f m r (filepos st) 4 4 Hwhole
                ltac:(lia) ltac:(lia) ltac:(fold fsize; lia))).
  fold size.
  unfold divide at 1. apply Z.eqb_neq in Hbps. rewrite Hbps.
  rewrite !bind_assoc.
  rewrite (bind_step _ _ _ _ _ (eq_refl : ret _ m = (_, m))).
  unfold divide at 1. apply Z.eqb_neq in Hch. rewrite Hch.
  rewrite !bind_assoc.
  rewrite (bind_step _ _ _ _ _ (eq_refl : ret _ m = (_, m))).
  fold frames. rewrite !bind_assoc. rewrite bind_i64 by exact Htot.
  rewrite (bind_step _ _ _ _ _ (eq_refl : ret _ m = (_, m))).
  rewrite (bind_step _ _ _ _ _
             (load_uint_whole_file f m r (filepos st) 4 4 Hwhole
                ltac:(lia) ltac:(lia) ltac:(fold fsize; lia))).
  reflexivity.
Qed.

Lemma riff_fmt_chunk_whole pf f st m r :
  let fsize := Z.of_nat (List.length f) in
  fsize <= INT64_MAX -> whole_file fsize m r ->
  0 <= filepos st -> filepos st + 24 <= fsize -> filepos st + 8 < 2 ^ 32 ->
  bytes_at f (filepos st) 4 = chars "fmt " ->
  got_fmt_header st = false ->
  le (bytes_at f (filepos st + 8 + 0) 2) = 1 ->
  let size := le (bytes_at f (filepos st + 4) 4) in
  RiffWav.chunk pf f st m
  = (Return {| data_left :=
                 uint 32 (uint 32 (data_left st - 8) - RiffWav.word_aligned size);
               filepos :=
                 uint 32 (filepos st + 8 + RiffWav.word_aligned size);
               got_fmt_header := true;
               object :=
                 set_format (object st)
                   (le (bytes_at f (filepos st + 8 + 4) 4))
                   (le (bytes_at f (filepos st + 8 + 2) 2))
                   ((le (bytes_at f (filepos st + 8 + 14) 2) + 7) / 8) |}, m).
Proof.
  intros fsize Hmax Hwhole Hpos Hfit H32 Htype Hgot Hpcm size.
  unfold RiffWav.chunk, RiffWav.sizeof_ChunkHeader. fold fsize.
  rewrite (bind_step _ _ _ _ _
             (EnsureRangeAccessible_whole_file pf fsize m r (filepos st) 8
                Hmax Hwhole Hpos ltac:(lia) ltac:(lia))).
  rewrite (bind_step _ _ _ _ _
             (CheckFourcc_whole_file f m r (filepos st) 0 "fmt " Hwhole
                ltac:(lia) ltac:(fold fsize; lia))).
  rewrite Z.add_0_r, Htype.
  change (bytes_eqb (chars "fmt ") (chars "fmt ")) with true. cbv iota.
  rewrite (uint_small 32 (filepos st + 8)) by lia.
  unfold RiffWav.fmt_chunk, RiffWav.sizeof_fmtChunk. rewrite Hgot. fold fsize.
  rewrite !bind_assoc.
  rewrite (bind_step _ _ _ _ _
             (EnsureRangeAccessible_whole_file pf fsize m r (filepos st + 8) 16
                Hmax Hwhole ltac:(lia) ltac:(lia) ltac:(lia))).
  rewrite ?bind_assoc.
  rewrite (bind_step _ _ _ _ _
             (load_uint_whole_file f m r (filepos st + 8) 0 2 Hwhole
                ltac:(lia) ltac:(lia) ltac:(fold fsize; lia))).
  rewrite Hpcm. cbn [Z.eqb Pos.eqb negb].
  rewrite !bind_assoc.
  rewrite (bind_step _ _ _ _ _
             (load_uint_whole_file f m r (filepos st + 8) 4 4 Hwhole
                ltac:(lia) ltac:(lia) ltac:(fold fsize; lia))).
  rewrite !bind_assoc.
  rewrite (bind_step _ _ _ _ _
             (load_uint_whole_file f m r (filepos st + 8) 2 2 Hwhole
                ltac:(lia) ltac:(lia) ltac:(fold fsize; lia))).
  rewrite !bind_assoc.
  rewrite (bind_step _ _ _ _ _
             (load_uint_whole_file f m r (filepos st + 8) 14 2 Hwhole
                ltac:(lia) ltac:(lia) ltac:(fold fsize; lia))).
  rewrite ?bind_assoc.
  rewrite (bind_step _ _ _ _ _ (eq_refl : ret _ m = (_, m))).
  rewrite (bind_step _ _ _ _ _
             (load_uint_whole_file f m r (filepos st) 4 4 Hwhole
                ltac:(lia) ltac:(lia) ltac:(fold fsize; lia))).
  reflexivity.
Qed.

Lemma while_step {S St} (cond : St -> bool) (body : St -> M S St) k st s st' s' :
  cond st = true -> body st s = (Return st', s') ->
  while (Datatypes.S k) cond body st s = while k cond body st' s'.
Proof. intros Hc Hb. cbn [while]. rewrite Hc, Hb. reflexivity. Qed.

Lemma item_type_length c : well_typed c -> List.length (item_type c) = 4%nat.
Proof. destruct c; cbn; [reflexivity | tauto]. Qed.

Lemma encode_length c :
  well_typed c ->
  Z.of_nat (List.length (encode c)) = 8 + item_size c + item_size c mod 2.
Proof.
  intro Hc. unfold encode.
  rewrite !length_app, le_bytes_length, zeros_length, (item_type_length c Hc).
  unfold item_size.
  pose proof (Z.mod_pos_bound (Z.of_nat (List.length (item_payload c))) 2
                ltac:(lia)).
  lia.
Qed.

Lemma encode_type c : well_typed c -> bytes_at (encode c) 0 4 = item_type c.
Proof.
  intro Hc. unfold encode.
  pose proof (bytes_at_prefix (item_type c)
                (le_bytes 4 (item_size c) ++ item_payload c
                 ++ zeros (Z.to_nat (item_size c mod 2)))) as H.
  rewrite (item_type_length c Hc) in H. exact H.
Qed.

Lemma encode_size c :
  well_typed c -> item_size c < 2 ^ 32 ->
  le (bytes_at (encode c) 4 4) = item_size c.
Proof.
  intros Hc Hsz. unfold encode.
  rewrite bytes_at_app_r by (rewrite (item_type_length c Hc); lia).
  rewrite (item_type_length c Hc). change (4 - Z.of_nat 4) with 0.
  pose proof (bytes_at_prefix (le_bytes 4 (item_size c))
                (item_payload c ++ zeros (Z.to_nat (item_size c mod 2)))) as H.
  rewrite le_bytes_length in H. change (Z.of_nat 4) with 4 in H.
  rewrite H, le_le_bytes. change (256 ^ Z.of_nat 4) with (2 ^ 32).
  apply Z.mod_small. unfold item_size in *. lia.
Qed.

Lemma quot_quot_div s b c :
  0 <= s -> 0 < b -> 0 < c -> Z.quot (Z.quot s b) c = s / (b * c).
Proof.
  intros Hs Hb Hc. rewrite Z.quot_quot by lia.
  apply Z.quot_div_nonneg; [exact Hs | nia].
Qed.

Lemma push_all_cons this ip ips :
  push_all this (ip :: ips)
  = push_all (push_back this ip (num_samples this + IndexPoint.num_samples ip)) ips.
Proof. reflexivity. Qed.

Lemma push_all_spec ips : forall this,
  push_all this ips
  = {| file_mapping := file_mapping this;
       file_size := file_size this;
       float_samples := float_samples this;
       sample_rate := sample_rate this;
       channels := channels this;
       bytes_per_sample := bytes_per_sample this;
       num_samples := num_samples this + total_samples ips;
       index_points := index_points this ++ ips |}.
Proof.
  induction ips as [|ip ips IH]; intro this.
  - destruct this. cbn. rewrite Z.add_0_r, app_nil_r. reflexivity.
  - rewrite push_all_cons, IH. cbn [push_back file_mapping file_size
      float_samples sample_rate channels bytes_per_sample num_samples
      index_points total_samples].
    rewrite <- app_assoc. cbn [app]. f_equal. lia.
Qed.

(** The walk over the items of a file, the whole of which is mapped: one
    iteration for each item. *)
Lemma riff_walk_items pf (f : file) m r :
  let fsize := Z.of_nat (List.length f) in
  whole_file fsize m r -> fsize < 2 ^ 32 ->
  forall items pre st fuel,
    f = pre ++ riff_body items ->
    Forall well_typed items ->
    filepos st = Z.of_nat (List.length pre) ->
    data_left st = Z.of_nat (List.length (riff_body items)) ->
    got_fmt_header st = true ->
    0 < bytes_per_sample (object st) -> 0 < channels (object st) ->
    0 <= num_samples (object st) <= Z.of_nat (List.length pre) ->
    (List.length items <= fuel)%nat ->
    while fuel more_data (RiffWav.chunk pf f) st m
    = Some (Return {| data_left := 0;
                      filepos := fsize;
                      got_fmt_header := true;
                      object :=
                        push_all (object st)
                          (riff_index (frame_size (object st)) (filepos st)
                             (num_samples (object st)) items) |}, m).
Proof.
  intros fsize Hwhole H32.
  assert (Hmx : INT64_MAX = 2 ^ 63 - 1) by reflexivity.
  assert (Hmn : INT64_MIN = - 2 ^ 63) by reflexivity.
  assert (H63 : 2 ^ 32 < 2 ^ 63) by reflexivity.
  assert (Hmax : fsize <= INT64_MAX) by lia.
  induction items as [|c rest IH];
    intros pre st fuel Hf Hty Hfp Hdl Hgot Hbps Hch Hnum Hfuel.
  - cbn [riff_body flat_map List.length] in *. rewrite app_nil_r in Hf. subst pre.
    rewrite while_done by (unfold more_data; rewrite Hdl; reflexivity).
    destruct st as [dl fp got o]. cbn in *. subst. reflexivity.
  - pose proof (Forall_inv Hty) as Hc. pose proof (Forall_inv_tail Hty) as Hty'.
    cbn [riff_body flat_map] in Hf, Hdl. fold (riff_body rest) in Hf, Hdl.
    pose proof (encode_length c Hc) as Hlen.
    assert (Hfs : fsize = Z.of_nat (List.length pre)
                          + Z.of_nat (List.length (encode c))
                          + Z.of_nat (List.length (riff_body rest))).
    { unfold fsize. rewrite Hf, !length_app. lia. }
    rewrite length_app, Nat2Z.inj_add in Hdl.
    assert (Hsz : 0 <= item_size c < 2 ^ 32)
      by (pose proof (Z.mod_pos_bound (item_size c) 2 ltac:(lia));
          unfold item_size in *; lia).
    pose proof (Z.mod_pos_bound (item_size c) 2 ltac:(lia)) as Hpad.
    assert (Htype : bytes_at f (filepos st) 4 = item_type c).
    { rewrite Hf, Hfp.
      rewrite <- (Z.add_0_r (Z.of_nat (List.length pre))).
      rewrite bytes_at_middle by lia. apply encode_type. exact Hc. }
    assert (Hsize : le (bytes_at f (filepos st + 4) 4) = item_size c).
    { rewrite Hf, Hfp. rewrite bytes_at_middle by lia.
      apply encode_size; [exact Hc | lia]. }
    assert (Hwa : RiffWav.word_aligned (item_size c)
                  = item_size c + item_size c mod 2).
    { rewrite word_aligned_pads by lia. apply Z.mod_small. lia. }
    destruct fuel as [|k]; [cbn in Hfuel; lia|].
    assert (Hcond : more_data st = true).
    { unfold more_data. rewrite Hdl.
      destruct (Z.eqb_spec (Z.of_nat (List.length (encode c))
                            + Z.of_nat (List.length (riff_body rest))) 0);
        [lia | reflexivity]. }
    assert (Hdl1 : uint 32 (uint 32 (data_left st - 8)
                            - RiffWav.word_aligned (item_size c))
                   = Z.of_nat (List.length (riff_body rest))).
    { rewrite Hwa, Hdl.
      rewrite (uint_small 32 (Z.of_nat (List.length (encode c))
                              + Z.of_nat (List.length (riff_body rest)) - 8))
        by lia.
      rewrite uint_small by lia. lia. }
    assert (Hfp1 : uint 32 (uint 32 (filepos st + 8)
                            + RiffWav.word_aligned (item_size c))
                   = Z.of_nat (List.length (pre ++ encode c))).
    { rewrite Hwa, Hfp, length_app.
      rewrite (uint_small 32 (Z.of_nat (List.length pre) + 8)) by lia.
      rewrite uint_small by lia. lia. }
    destruct c as [payload | type payload].
    + (* a data chunk *)
      set (frames := Z.of_nat (List.length payload) / frame_size (object st)).
      assert (Hq : Z.quot (Z.quot (item_size (data_item payload))
                             (bytes_per_sample (object st)))
                     (channels (object st)) = frames).
      { unfold frames, frame_size, item_size. cbn [item_payload].
        apply quot_quot_div; lia. }
      assert (Hfr : 0 <= frames <= Z.of_nat (List.length payload)).
      { assert (Hfs1 : 1 <= frame_size (object st))
          by (unfold frame_size; nia).
        unfold frames. split.
        - apply Z.div_pos; lia.
        - apply Z.div_le_upper_bound; [lia|]. nia. }
      pose proof (riff_data_chunk_whole pf f st m r Hmax Hwhole
                    ltac:(lia) ltac:(fold fsize; lia) Htype Hgot
                    ltac:(lia) ltac:(lia)) as Hrun.
      cbv zeta in Hrun. rewrite Hsize, Hq, Hdl1, Hfp1 in Hrun.
      specialize (Hrun ltac:(apply is_int64_true;
                             unfold item_size in *; cbn [item_payload] in *; lia)).
      rewrite (while_step _ _ _ _ _ _ _ Hcond Hrun).
      rewrite (IH (pre ++ encode (data_item payload)) _ k);
        cbn [filepos data_left got_fmt_header object push_back
               bytes_per_sample channels num_samples];
        try assumption; try reflexivity; try lia.
      * cbn [riff_index]. fold frames. rewrite push_all_cons.
        cbn [IndexPoint.num_samples].
        rewrite (uint_small 32 (filepos st + 8)) by lia.
        rewrite Hfp, length_app, Nat2Z.inj_add.
        unfold frame_size. cbn [push_back bytes_per_sample channels].
        reflexivity.
      * rewrite Hf, <- app_assoc. reflexivity.
      * rewrite length_app. unfold item_size in *. cbn [item_payload] in *. lia.
      * cbn [List.length] in Hfuel. lia.
    + (* a chunk of another type *)
      destruct Hc as (Hl4 & Hnf & Hnd).
      pose proof (riff_other_chunk_whole pf f st m r Hmax Hwhole
                    ltac:(lia) ltac:(fold fsize; lia)
                    ltac:(rewrite Htype; exact Hnf)
                    ltac:(rewrite Htype; exact Hnd)) as Hrun.
      cbv zeta in Hrun. rewrite Hsize, Hdl1, Hfp1 in Hrun.
      rewrite (while_step _ _ _ _ _ _ _ Hcond Hrun).
      rewrite (IH (pre ++ encode (other_item type payload)) _ k);
        cbn [filepos data_left got_fmt_header object];
        try assumption; try reflexivity; try lia.
      * cbn [riff_index]. rewrite Hfp, length_app, Nat2Z.inj_add. reflexivity.
      * rewrite Hf, <- app_assoc. reflexivity.
      * rewrite length_app. lia.
      * cbn [List.length] in Hfuel. lia.
Qed.

Lemma riff_open_whole pf (f : file) :
  let fsize := Z.of_nat (List.length f) in
  maps_at_once pf fsize -> fsize <= INT64_MAX ->
  riff_signature f = true ->
  RiffWav.open pf f unmapped
  = (Return {| data_left := uint 32 (le (bytes_at f 4 4) - 4);
               filepos := 12;
               got_fmt_header := false;
               object := PCMAudioProvider_new f |}, mapped_whole fsize).
Proof.
  intros fsize Hpf Hmax Hsig.
  pose proof (riff_signature_length f Hsig) as Hlen. fold fsize in Hlen.
  unfold riff_signature in Hsig. apply andb_prop in Hsig.
  destruct Hsig as [Hriff Hwave].
  pose proof (mapped_whole_file fsize) as Hwhole.
  set (r0 := {| get_offset := 0; get_size := fsize; serial := 1 |}) in *.
  unfold RiffWav.open, RiffWav.sizeof_RIFFChunk. fold fsize.
  rewrite (bind_step _ _ _ _ _
             (first_request_maps_file pf fsize 12 Hpf Hmax ltac:(lia) Hlen)).
  change {| ptr_serial := 1; ptr_offset := 0 |}
    with {| ptr_serial := serial r0; ptr_offset := 0 |}.
  rewrite (bind_step _ _ _ _ _
             (CheckFourcc_whole_file f _ r0 0 0 "RIFF" Hwhole
                ltac:(lia) ltac:(fold fsize; lia))).
  cbn [Z.add]. rewrite Hriff. cbn [negb].
  rewrite (bind_step _ _ _ _ _
             (CheckFourcc_whole_file f _ r0 0 8 "WAVE" Hwhole
                ltac:(lia) ltac:(fold fsize; lia))).
  cbn [Z.add]. rewrite Hwave. cbn [negb].
  rewrite (bind_step _ _ _ _ _
             (load_uint_whole_file f _ r0 0 4 4 Hwhole
                ltac:(lia) ltac:(lia) ltac:(fold fsize; lia))).
  reflexivity.
Qed.

Lemma riff_header_length size : List.length (riff_header size) = 12%nat.
Proof. reflexivity. Qed.

Lemma riff_fmt_length compression chans rate bits :
  List.length (riff_fmt compression chans rate bits) = 24%nat.
Proof. reflexivity. Qed.

Lemma le_bytes_small n z :
  0 <= z < 256 ^ Z.of_nat n -> le (le_bytes n z) = z.
Proof. intro H. rewrite le_le_bytes. apply Z.mod_small. exact H. Qed.

(** X27: every RIFF WAV file made of a 12-byte header whose size field
    counts what follows it, a format chunk that declares PCM with at
    least one channel and one bit per sample, and then any number of data
    chunks and chunks of other types, each padded to an even size, is
    accepted when the whole file is mapped by the first request and is
    shorter than 4 GiB.  The constructor returns after one iteration per
    chunk with the format of the format chunk, one index point per data
    chunk, in file order, at the byte after its chunk header and with the
    whole frames of its payload, each starting at the sum of the counts
    before it, and with num_samples the sum of all counts.  The factory
    returns that provider without running the Wave64 parser. *)
Theorem riff_file_parsed :
  forall (pf : platform) (chans rate bits : Z) (items : list riff_item)
         (fuel : nat),
    let f := riff_file chans rate bits items in
    maps_at_once pf (Z.of_nat (List.length f)) ->
    Z.of_nat (List.length f) < 2 ^ 32 ->
    1 <= chans < 2 ^ 16 -> 0 <= rate < 2 ^ 32 -> 1 <= bits < 2 ^ 16 ->
    Forall well_typed items ->
    (List.length items < fuel)%nat ->
    RiffWav.RiffWavPCMAudioProvider pf f fuel
    = Some (Return (riff_provider chans rate bits items),
            mapped_whole (Z.of_nat (List.length f))) /\
    CreatePCMAudioProvider pf fuel f
    = Some ([RIFF_WAV],
            Return (riff_provider chans rate bits items,
                    mapped_whole (Z.of_nat (List.length f)))).
Proof.
  intros pf chans rate bits items fuel f Hpf H32 Hchans Hrate Hbits Hty Hfuel.
  enough (Hparse : RiffWav.RiffWavPCMAudioProvider pf f fuel
                   = Some (Return (riff_provider chans rate bits items),
                           mapped_whole (Z.of_nat (List.length f))))
    by (split; [exact Hparse
               | unfold CreatePCMAudioProvider; rewrite Hparse; reflexivity]).
  assert (Hmx : INT64_MAX = 2 ^ 63 - 1) by reflexivity.
  assert (H63 : 2 ^ 32 < 2 ^ 63) by reflexivity.
  set (fsize := Z.of_nat (List.length f)) in *.
  assert (Hmax : fsize <= INT64_MAX) by lia.
  set (body := riff_body items).
  set (size := 28 + Z.of_nat (List.length body)).
  set (head := riff_header size ++ riff_fmt 1 chans rate bits).
  assert (Hf : f = head ++ body).
  { unfold f, riff_file, head. fold body. fold size. apply app_assoc. }
  assert (Hhead : List.length head = 36%nat) by reflexivity.
  assert (Hfs : fsize = 36 + Z.of_nat (List.length body)).
  { unfold fsize. rewrite Hf, length_app, Hhead. lia. }
  assert (Hat : forall off n, 0 <= off -> 0 <= n -> off + n <= 36 ->
                              bytes_at f off n = bytes_at head off n).
  { intros off n Ho Hn Hfit. rewrite Hf. apply bytes_at_app_l; assumption. }
  assert (H16 : 2 ^ 16 = 256 ^ Z.of_nat 2) by reflexivity.
  assert (H32' : 2 ^ 32 = 256 ^ Z.of_nat 4) by reflexivity.
  assert (Hsig : riff_signature f = true).
  { unfold riff_signature. rewrite !Hat by lia. reflexivity. }
  assert (Hsize : le (bytes_at f 4 4) = size).
  { rewrite Hat by lia.
    change (bytes_at head 4 4) with (le_bytes 4 size).
    apply le_bytes_small. unfold size. lia. }
  pose proof (riff_open_whole pf f Hpf Hmax Hsig) as Hopen.
  fold fsize in Hopen. rewrite Hsize in Hopen.
  pose proof (mapped_whole_file fsize) as Hwhole.
  set (st0 := {| data_left := uint 32 (size - 4); filepos := 12;
                 got_fmt_header := false;
                 object := PCMAudioProvider_new f |}) in *.
  pose proof (riff_fmt_chunk_whole pf f st0 (mapped_whole fsize) _ Hmax Hwhole
                ltac:(cbn; lia) ltac:(cbn [filepos st0]; fold fsize; lia)
                ltac:(cbn; lia)) as Hfmt.
  cbv zeta in Hfmt. cbn [filepos data_left got_fmt_header object st0] in Hfmt.
  rewrite !Hat in Hfmt by lia.
  change (bytes_at head 12 4) with (chars "fmt ") in Hfmt.
  change (bytes_at head (12 + 8 + 0) 2) with (le_bytes 2 1) in Hfmt.
  change (bytes_at head (12 + 4) 4) with (le_bytes 4 16) in Hfmt.
  change (bytes_at head (12 + 8 + 4) 4) with (le_bytes 4 rate) in Hfmt.
  change (bytes_at head (12 + 8 + 2) 2) with (le_bytes 2 chans) in Hfmt.
  change (bytes_at head (12 + 8 + 14) 2) with (le_bytes 2 bits) in Hfmt.
  rewrite (le_bytes_small 4 rate) in Hfmt by lia.
  rewrite (le_bytes_small 2 chans) in Hfmt by lia.
  rewrite (le_bytes_small 2 bits) in Hfmt by lia.
  specialize (Hfmt eq_refl eq_refl eq_refl).
  change (le (le_bytes 4 16)) with 16 in Hfmt.
  change (RiffWav.word_aligned 16) with 16 in Hfmt.
  rewrite (uint_small 32 (size - 4)) in Hfmt by (unfold size; lia).
  rewrite (uint_small 32 (size - 4 - 8)) in Hfmt by (unfold size; lia).
  rewrite (uint_small 32 (size - 4 - 8 - 16)) in Hfmt by (unfold size; lia).
  change (uint 32 (12 + 8 + 16)) with 36 in Hfmt.
  set (bps := (bits + 7) / 8) in *.
  assert (Hbps : 1 <= bps).
  { unfold bps. apply Z.div_le_lower_bound; lia. }
  unfold RiffWav.RiffWavPCMAudioProvider, construct. rewrite Hopen.
  destruct fuel as [|k]; [lia|].
  assert (Hcond : more_data st0 = true).
  { unfold more_data, st0. cbn [data_left].
    rewrite (uint_small 32 (size - 4)) by (unfold size; lia).
    destruct (Z.eqb_spec (size - 4) 0); [unfold size in *; lia | reflexivity]. }
  rewrite (while_step _ _ _ _ _ _ _ Hcond Hfmt).
  rewrite (riff_walk_items pf f (mapped_whole fsize) _ Hwhole H32 items head _ k
             Hf Hty);
    cbn [filepos data_left got_fmt_header object set_format
           bytes_per_sample channels num_samples PCMAudioProvider_new];
    try reflexivity; try lia.
  - rewrite push_all_spec. unfold riff_provider, frame_size.
    cbn [set_format file_mapping file_size float_samples sample_rate channels
           bytes_per_sample num_samples index_points PCMAudioProvider_new app
           Z.add].
    fold f. fold fsize. fold bps. reflexivity.
  - unfold size. fold body. lia.
Qed.

Lemma riff_file_parsed_witness :
  RiffWav.RiffWavPCMAudioProvider ilp32 (riff_file 2 44100 16 split_items) 4
  = Some (Return (riff_provider 2 44100 16 split_items),
          mapped_whole (Z.of_nat (List.length (riff_file 2 44100 16 split_items))))
  /\
  CreatePCMAudioProvider ilp32 4 (riff_file 2 44100 16 split_items)
  = Some ([RIFF_WAV],
          Return (riff_provider 2 44100 16 split_items,
                  mapped_whole
                    (Z.of_nat (List.length (riff_file 2 44100 16 split_items))))).
Proof.
  apply (riff_file_parsed ilp32 2 44100 16 split_items 4).
  - split; [reflexivity | intros _; vm_compute; discriminate].
  - vm_compute. reflexivity.
  - lia.
  - lia.
  - lia.
  - repeat constructor; try discriminate.
  - cbn. lia.
Defined.

(** ** Reading back a file made of chunks *)






